(** * Iris ODM: Schema, Model (storage engine) and SyncManager

    A shallow embedding of the JavaScript sources
    - [Schema.js]   (Schema.toDocument, Schema.toObject, Schema.fromArray,
                     Schema.fromString, addIndex, removeIndex),
    - [Model.js]    (the multi-collection Model: constructor, connect,
                     disconnect, refresh, find, findById, sort, limit,
                     create, update, delete, deleteMany, clear, count,
                     _validateData, _executeTransaction, _prepare,
                     _castValue, _isValidType, _matchesQuery),
    - [Sync.js]     (SyncManager: prepareSyncSchema, pullFromServer,
                     pushToServer, sync, handleConflict,
                     getLastSyncTimestamp, prepareForSync, watchChanges),
    followed by the properties established about them. *)

From Stdlib Require Import String List ZArith Bool Lia Ascii DecimalString.
From Stdlib Require Import Permutation Sorted.
From Stdlib Require DecimalNat DecimalFacts.
Import ListNotations.
Local Open Scope string_scope.
Local Open Scope Z_scope.
Local Open Scope list_scope.
Set Warnings "-register-all".

(** ** JavaScript values

    Numbers are modelled on their integer fragment plus [NaN]; a [Date]
    instance carries its time value, [None] being the Invalid Date.
    Objects are association lists in [Object.entries] order (property names
    that are array indices, which JavaScript would list first, are not used
    as field names of records).  No modelled value is a function.  An
    object inherits from [Object.prototype] only: [get] reads own
    properties, and the places where the sources reach an inherited
    property ([data.hasOwnProperty], the conversion of an object to a
    string or a number, [this.schema.definition[key]] in [_prepare]) are
    modelled through [inherited] and [convertible] below. *)

Inductive num : Type :=
| NaN
| Fin (z : Z).

Inductive value : Type :=
| VUndefined
| VNull
| VBool (b : bool)
| VNum (n : num)
| VStr (s : string)
| VDate (t : option Z)
| VArr (l : list value)
| VObj (l : list (string * value)).

Definition obj := list (string * value).

(** Errors a call can be rejected with. *)
Inductive verror : Type :=
| FieldRequired (field : string)          (* Field 'f' is required *)
| FieldMustBeUnique (field : string)      (* Field 'f' must be unique *)
| FieldMustBeOfType (field : string)      (* Field 'f' must be of type T *)
| FieldValidationFailed (field : string)  (* Validation failed for field 'f' *)
| FieldValidationError (field msg : string). (* Validation error for field 'f': msg *)

Inductive error : Type :=
| TypeError (msg : string)
| DataError                 (* DOMException: the provided key is not valid *)
| ConstraintError           (* DOMException: key already exists *)
| NotFoundError             (* DOMException: no such object store *)
| ItemNotFound              (* Error("Item not found") *)
| PrimaryRequired           (* Error("Primary key ... is required for update operation") *)
| ValidationFailed (errors : list verror)
| FetchFailed (msg : string).

(** The settlement of a promise (or the completion of a synchronous call):
    resolved with a value, rejected with an error, or never settled. *)
Inductive outcome (A : Type) : Type :=
| Resolved (a : A)
| Rejected (e : error)
| Pending.
Arguments Resolved {A} a.
Arguments Rejected {A} e.
Arguments Pending {A}.

(** Parts of the JavaScript runtime the sources call and that are taken as
    given: [Date.parse], the conversion of a string to a number and
    [Date.prototype.toString]; the clock ([new Date()]) and the identifier
    generator [IrisUtils.generateObjectId] (time and randomness) are
    sequences of which each call consumes the next element. *)
Class Runtime : Type := {
  Date_parse : string -> option Z;      (* None: NaN *)
  StringToNumber : string -> num;
  Date_toString : option Z -> string;
  Date_now : nat -> Z;                  (* the n-th reading of the clock *)
  generateObjectId : nat -> string      (* the n-th identifier generated *)
}.

Definition string_of_nat (n : nat) : string :=
  NilZero.string_of_uint (Nat.to_uint n).

Definition string_of_Z (z : Z) : string :=
  NilZero.string_of_int (Z.to_int z).

Fixpoint join (sep : string) (l : list string) : string :=
  match l with
  | [] => ""
  | [s] => s
  | s :: rest => (s ++ sep ++ join sep rest)%string
  end.

Fixpoint chars (s : string) : list string :=
  match s with
  | EmptyString => []
  | String c rest => String c EmptyString :: chars rest
  end.

(** [s.includes(sub)] on strings. *)
Fixpoint string_includes (sub s : string) : bool :=
  prefix sub s ||
  match s with
  | EmptyString => false
  | String _ rest => string_includes sub rest
  end.

Section Values.
Context {rt : Runtime}.

(** ToBoolean. *)
Definition truthy (v : value) : bool :=
  match v with
  | VUndefined | VNull => false
  | VBool b => b
  | VNum NaN => false
  | VNum (Fin z) => negb (z =? 0)
  | VStr s => negb (s =? "")%string
  | VDate _ | VArr _ | VObj _ => true
  end.

(** [typeof v === "object"]. *)
Definition typeof_object (v : value) : bool :=
  match v with
  | VNull | VDate _ | VArr _ | VObj _ => true
  | _ => false
  end.

(** ToString, on a value that is [convertible] (see below).  A number is
    printed as its decimal numeral: JavaScript turns to the exponent form
    from 10^21 on, and numbers of that size are outside the fragment used
    here.  A plain object is printed by [Object.prototype.toString]; one
    that has a property [toString] of its own is not convertible, and
    [_castValue], which catches the exception, tests for it before it
    converts. *)
Fixpoint to_string (v : value) : string :=
  match v with
  | VUndefined => "undefined"
  | VNull => "null"
  | VBool true => "true"
  | VBool false => "false"
  | VNum NaN => "NaN"
  | VNum (Fin z) => string_of_Z z
  | VStr s => s
  | VDate t => Date_toString t
  | VArr l =>
      join "," (map (fun x => match x with
                              | VUndefined | VNull => ""
                              | _ => to_string x
                              end) l)
  | VObj _ => "[object Object]"
  end.

(** ToPrimitive with hint number: a Date yields its time value, arrays and
    plain objects their string form. *)
Definition to_primitive (v : value) : value :=
  match v with
  | VDate None => VNum NaN
  | VDate (Some t) => VNum (Fin t)
  | VArr _ | VObj _ => VStr (to_string v)
  | _ => v
  end.

(** ToNumber. *)
Definition to_number (v : value) : num :=
  match to_primitive v with
  | VNull => Fin 0
  | VBool true => Fin 1
  | VBool false => Fin 0
  | VNum n => n
  | VStr s => StringToNumber s
  | _ => NaN
  end.

(** The abstract relational comparison [x < y]; [None] is its undefined
    result (an operand is NaN). *)
Definition js_lt (x y : value) : option bool :=
  match to_primitive x, to_primitive y with
  | VStr a, VStr b => Some (String.ltb a b)
  | px, py =>
      match to_number px, to_number py with
      | Fin a, Fin b => Some (a <? b)
      | _, _ => None
      end
  end.

Definition is_some_true (o : option bool) : bool :=
  match o with Some true => true | _ => false end.
Definition is_some_false (o : option bool) : bool :=
  match o with Some false => true | _ => false end.

Definition js_gt (x y : value) : bool := is_some_true (js_lt y x).
Definition js_gte (x y : value) : bool := is_some_false (js_lt x y).
Definition js_ltb (x y : value) : bool := is_some_true (js_lt x y).
Definition js_lte (x y : value) : bool := is_some_false (js_lt y x).

(** Strict equality [x === y].  Dates, arrays and objects compare by
    identity; the values compared by the sources are a record read from the
    store (a fresh structured clone) and a value supplied by the caller, so
    two such objects are never identical. *)
Definition strict_equals (x y : value) : bool :=
  match x, y with
  | VUndefined, VUndefined => true
  | VNull, VNull => true
  | VBool a, VBool b => Bool.eqb a b
  | VNum (Fin a), VNum (Fin b) => a =? b
  | VStr a, VStr b => (a =? b)%string
  | _, _ => false
  end.

(** SameValueZero, the comparison of [Array.prototype.includes]. *)
Definition same_value_zero (x y : value) : bool :=
  match x, y with
  | VNum NaN, VNum NaN => true
  | _, _ => strict_equals x y
  end.

(** *** Properties *)

Fixpoint lookup (k : string) (o : obj) : option value :=
  match o with
  | [] => None
  | (k', v) :: rest => if (k' =? k)%string then Some v else lookup k rest
  end.

(** [o[k]] on a plain object. *)
Definition get (o : obj) (k : string) : value :=
  match lookup k o with
  | Some v => v
  | None => VUndefined
  end.

Definition has (o : obj) (k : string) : bool :=
  match lookup k o with
  | Some _ => true
  | None => false
  end.

(** The names of the properties of [Object.prototype], which every plain
    object inherits: functions, and the accessor [__proto__].  Read on an
    object that has no own property of that name, each of them is a truthy
    value that is not one of the modelled values. *)
Definition Object_prototype_names : list string :=
  ["constructor"; "__defineGetter__"; "__defineSetter__"; "hasOwnProperty";
   "__lookupGetter__"; "__lookupSetter__"; "isPrototypeOf";
   "propertyIsEnumerable"; "toString"; "valueOf"; "__proto__"; "toLocaleString"].

Definition inherited (k : string) : bool :=
  existsb (String.eqb k) Object_prototype_names.

(** ToPrimitive does not throw on [v].  On a plain object it calls
    [toString] (and [valueOf], which by inheritance returns the object
    itself): an own property [toString] hides the inherited method and, not
    being a function, leaves no method that returns a primitive, so the
    conversion throws a TypeError.  The string form of an array is the join
    of the string forms of its elements. *)
Fixpoint convertible (v : value) : bool :=
  match v with
  | VObj o => negb (has o "toString")
  | VArr l =>
      forallb (fun x => match x with
                        | VUndefined | VNull => true
                        | _ => convertible x
                        end) l
  | _ => true
  end.

(** [o[k] = v]: an existing property keeps its position, a new one is
    appended. *)
Fixpoint set (o : obj) (k : string) (v : value) : obj :=
  match o with
  | [] => [(k, v)]
  | (k', v') :: rest =>
      if (k' =? k)%string then (k', v) :: rest else (k', v') :: set rest k v
  end.

(** [delete o[k]]. *)
Definition remove (o : obj) (k : string) : obj :=
  filter (fun kv => negb (fst kv =? k)%string) o.

(** [{...a, ...b}]. *)
Definition spread (a b : obj) : obj :=
  fold_left (fun acc kv => set acc (fst kv) (snd kv)) b a.

(** The index an array-index property name denotes, below [n]. *)
Definition index_of_key (k : string) (n : nat) : option nat :=
  find (fun i => (k =? string_of_nat i)%string) (seq 0 n).

Definition indexed {A : Type} (l : list A) : list (string * A) :=
  combine (map string_of_nat (seq 0 (List.length l))) l.

(** [Object.entries(v)]; throws on [undefined] and [null]. *)
Definition Object_entries (v : value) : outcome obj :=
  match v with
  | VUndefined | VNull =>
      Rejected (TypeError "Cannot convert undefined or null to object")
  | VObj o => Resolved o
  | VArr l => Resolved (indexed l)
  | VStr s => Resolved (indexed (map VStr (chars s)))
  | VBool _ | VNum _ | VDate _ => Resolved []
  end.

(** [{...v}] for an arbitrary value. *)
Definition spread_value (v : value) : obj :=
  match Object_entries v with
  | Resolved o => o
  | _ => []
  end.

(** [v[k]] for an arbitrary value; throws on [undefined] and [null]. *)
Definition get_prop (v : value) (k : string) : outcome value :=
  match v with
  | VUndefined | VNull =>
      Rejected (TypeError "Cannot read properties of undefined or null")
  | VObj o => Resolved (get o k)
  | VArr l =>
      if (k =? "length")%string then Resolved (VNum (Fin (Z.of_nat (List.length l))))
      else match index_of_key k (List.length l) with
           | Some i => Resolved (nth i l VUndefined)
           | None => Resolved VUndefined
           end
  | VStr s =>
      if (k =? "length")%string then Resolved (VNum (Fin (Z.of_nat (String.length s))))
      else match index_of_key k (String.length s) with
           | Some i => Resolved (nth i (map VStr (chars s)) VUndefined)
           | None => Resolved VUndefined
           end
  | VBool _ | VNum _ | VDate _ => Resolved VUndefined
  end.

(** [v.hasOwnProperty(k)].  An own property named [hasOwnProperty] hides
    the inherited method; its value is not a function, so the call throws. *)
Definition hasOwnProperty (v : value) (k : string) : outcome bool :=
  match v with
  | VUndefined | VNull =>
      Rejected (TypeError "Cannot read properties of undefined or null")
  | VObj o =>
      if has o "hasOwnProperty"
      then Rejected (TypeError "hasOwnProperty is not a function")
      else Resolved (has o k)
  | VArr l =>
      Resolved ((k =? "length")%string ||
                match index_of_key k (List.length l) with Some _ => true | None => false end)
  | VStr s =>
      Resolved ((k =? "length")%string ||
                match index_of_key k (String.length s) with Some _ => true | None => false end)
  | VBool _ | VNum _ | VDate _ => Resolved false
  end.

End Values.

(** ** Schema.js *)

(** The type tokens of a schema: the built-in constructors and user classes. *)
Inductive jstype : Type :=
| TString
| TNumber
| TBoolean
| TDate
| TArray
| TObject
| TCustom (cls : string).

Definition jstype_eqb (a b : jstype) : bool :=
  match a, b with
  | TString, TString | TNumber, TNumber | TBoolean, TBoolean
  | TDate, TDate | TArray, TArray | TObject, TObject => true
  | TCustom x, TCustom y => (x =? y)%string
  | _, _ => false
  end.

(** What a user-supplied [validate] function does on a value: returns a
    truthy or a falsy result, or throws. *)
Inductive vresult : Type :=
| VTruthy
| VFalsy
| VThrows (msg : string).

(** A definition object [{ type, required, unique, default, validate }]. *)
Record fielddef : Type := {
  fd_type : option jstype;
  fd_required : bool;
  fd_unique : bool;
  fd_default : option value;
  fd_validate : option (value -> vresult)
}.

(** The definition of a field is a definition object or, in the short form
    used by [prepareSyncSchema] ([_lastSync: Date]), a bare constructor. *)
Inductive definition : Type :=
| Def (d : fielddef)
| Ctor (t : jstype).

(** The schema: [definition], and [indexes], an array of objects
    [{ field, ...options }] that the constructor leaves empty. *)
Record Schema : Type := {
  sdefinition : list (string * definition);
  sindexes : list obj
}.

Definition fields_of (s : Schema) : list string := map fst (sdefinition s).

Fixpoint lookup_def (k : string) (l : list (string * definition)) : option definition :=
  match l with
  | [] => None
  | (k', d) :: rest => if (k' =? k)%string then Some d else lookup_def k rest
  end.

Fixpoint set_def (l : list (string * definition)) (k : string) (d : definition)
  : list (string * definition) :=
  match l with
  | [] => [(k, d)]
  | (k', d') :: rest =>
      if (k' =? k)%string then (k', d) :: rest else (k', d') :: set_def rest k d
  end.

Module SchemaOps.



(** Whether [f] is a declared field of [s]. *)
Definition declared (s : Schema) (f : string) : bool :=
  existsb (String.eqb f) (fields_of s).

(** [{ type: String }]. *)
Definition string_def : definition :=
  Def {| fd_type := Some TString; fd_required := false; fd_unique := false;
         fd_default := None; fd_validate := None |}.

(** [Schema.fromArray(definition)]: every listed field is declared with
    type String. *)
Definition fromArray (fields : list string) : Schema :=
  {| sdefinition := fold_left (fun schema field => set_def schema field string_def)
                              fields [];
     sindexes := [] |}.

(** [s.split(sep)] for a separator of one character. *)
Fixpoint split (sep : ascii) (s : string) : list string :=
  match s with
  | EmptyString => [EmptyString]
  | String c rest =>
      if Ascii.eqb c sep then EmptyString :: split sep rest
      else match split sep rest with
           | piece :: pieces => String c piece :: pieces
           | [] => [String c EmptyString]
           end
  end.

(** [Schema.fromString(definition)]: the fields are the pieces of the string
    between its commas. *)
Definition fromString (definition : string) : Schema :=
  fromArray (split "," definition).

(** The array [indexes] of a schema holds objects [{ field, ...options }].
    [addIndex(field, options)] appends one; [removeIndex(field)] keeps the
    entries whose [field] is not [field].  Both are given as the change they
    make to [this.indexes]. *)
Definition addIndex (indexes : list obj) (field : string) (options : value) : list obj :=
  indexes ++ [spread [("field", VStr field)] (spread_value options)].

Definition removeIndex (indexes : list obj) (field : string) : list obj :=
  filter (fun index => negb (strict_equals (get index "field") (VStr field))) indexes.

End SchemaOps.

(** ** Model.js *)

Inductive logmsg : Type :=
| WarnPrimaryConverted (primary : string)   (* We convert the ... key to a string ... *)
| WarnKeyLength (primary : string)          (* We recommend using a 24-character string ... *)
| WarnInvalidDate (v : value)               (* Invalid date value: ... *)
| LogError (e : error).                     (* console.error(e) *)

(** An object store holds its records in key order; the key of a record is
    the value of its key path (the primary field).  Only string keys are
    modelled: the Model casts the primary to String before every [add], and
    [put] writes back a record read from the store. *)
Definition store := list obj.
Definition database := list (string * store).

(** A secondary index of an object store: its key path, which the Model
    also gives it as name, and whether it is unique. *)
Record index : Type := {
  ix_keyPath : string;
  ix_unique : bool
}.

(** The properties [type] and [unique] of a constructor function.  They are
    undefined until the Model constructor assigns them, which it does when
    the primary's definition is a bare constructor. *)
Record ctor_props : Type := {
  cp_type : option jstype;
  cp_unique : bool
}.

(** The options of [new Model(name, schema, options)]. *)
Record Options : Type := {
  opt_version : option Z;
  opt_primary : option string;
  opt_collections : option (list string);
  opt_active : option string
}.

(** The state: the fields of the Model instance, the methods patched onto it
    ([watchers]: the [syncStatusField] of each wrapper installed by
    [watchChanges], outermost first), and the environment it acts on: the
    database the substrate holds under [name] with its version and, by
    object store, the secondary indexes of its object stores, the
    properties set on constructor functions, the console, and how many
    identifiers and clock readings have been consumed. *)
Record Model : Type := {
  name : string;
  schema : Schema;
  version : Z;
  primary : string;
  collections : list string;
  activeCollection : string;
  db : bool;
  watchers : list string;
  indexedDB : option (Z * database);
  indexes : list (string * list index);
  ctors : jstype -> ctor_props;
  console : list logmsg;
  idcount : nat;
  ticks : nat
}.

Definition with_schema (m : Model) (s : Schema) : Model :=
  {| name := name m; schema := s; version := version m; primary := primary m;
     collections := collections m; activeCollection := activeCollection m;
     db := db m; watchers := watchers m; indexedDB := indexedDB m; indexes := indexes m;
     ctors := ctors m; console := console m; idcount := idcount m;
     ticks := ticks m |}.

Definition with_version (m : Model) (v : Z) : Model :=
  {| name := name m; schema := schema m; version := v; primary := primary m;
     collections := collections m; activeCollection := activeCollection m;
     db := db m; watchers := watchers m; indexedDB := indexedDB m; indexes := indexes m;
     ctors := ctors m; console := console m; idcount := idcount m;
     ticks := ticks m |}.

Definition with_ctors (m : Model) (c : jstype -> ctor_props) : Model :=
  {| name := name m; schema := schema m; version := version m; primary := primary m;
     collections := collections m; activeCollection := activeCollection m;
     db := db m; watchers := watchers m; indexedDB := indexedDB m; indexes := indexes m;
     ctors := c; console := console m; idcount := idcount m;
     ticks := ticks m |}.

Definition with_console (m : Model) (c : list logmsg) : Model :=
  {| name := name m; schema := schema m; version := version m; primary := primary m;
     collections := collections m; activeCollection := activeCollection m;
     db := db m; watchers := watchers m; indexedDB := indexedDB m; indexes := indexes m;
     ctors := ctors m; console := c; idcount := idcount m;
     ticks := ticks m |}.

Definition with_idcount (m : Model) (n : nat) : Model :=
  {| name := name m; schema := schema m; version := version m; primary := primary m;
     collections := collections m; activeCollection := activeCollection m;
     db := db m; watchers := watchers m; indexedDB := indexedDB m; indexes := indexes m;
     ctors := ctors m; console := console m; idcount := n;
     ticks := ticks m |}.

Definition with_ticks (m : Model) (n : nat) : Model :=
  {| name := name m; schema := schema m; version := version m; primary := primary m;
     collections := collections m; activeCollection := activeCollection m;
     db := db m; watchers := watchers m; indexedDB := indexedDB m; indexes := indexes m;
     ctors := ctors m; console := console m; idcount := idcount m;
     ticks := n |}.

Definition with_watchers (m : Model) (w : list string) : Model :=
  {| name := name m; schema := schema m; version := version m; primary := primary m;
     collections := collections m; activeCollection := activeCollection m;
     db := db m; watchers := w; indexedDB := indexedDB m; indexes := indexes m;
     ctors := ctors m; console := console m; idcount := idcount m;
     ticks := ticks m |}.

Definition with_indexedDB (m : Model) (d : option (Z * database)) : Model :=
  {| name := name m; schema := schema m; version := version m; primary := primary m;
     collections := collections m; activeCollection := activeCollection m;
     db := db m; watchers := watchers m; indexedDB := d; indexes := indexes m;
     ctors := ctors m; console := console m; idcount := idcount m;
     ticks := ticks m |}.

Definition with_indexes (m : Model) (ixs : list (string * list index)) : Model :=
  {| name := name m; schema := schema m; version := version m; primary := primary m;
     collections := collections m; activeCollection := activeCollection m;
     db := db m; watchers := watchers m; indexedDB := indexedDB m; indexes := ixs;
     ctors := ctors m; console := console m; idcount := idcount m;
     ticks := ticks m |}.

(** The effect of a successful [connect]. *)
Definition with_connection (m : Model) (v : Z) (stores : database) : Model :=
  {| name := name m; schema := schema m; version := v; primary := primary m;
     collections := map fst stores; activeCollection := activeCollection m;
     db := true; watchers := watchers m; indexedDB := Some (v, stores);
     indexes := indexes m;
     ctors := ctors m; console := console m; idcount := idcount m;
     ticks := ticks m |}.

(** The object stores of the database, and the one CRUD operates on. *)
Definition stores_of (m : Model) : database :=
  match indexedDB m with
  | Some (_, stores) => stores
  | None => []
  end.

Fixpoint find_store (n : string) (d : database) : option store :=
  match d with
  | [] => None
  | (n', st) :: rest => if (n' =? n)%string then Some st else find_store n rest
  end.

Fixpoint replace_store (n : string) (st : store) (d : database) : database :=
  match d with
  | [] => []
  | (n', st') :: rest =>
      if (n' =? n)%string then (n', st) :: rest else (n', st') :: replace_store n st rest
  end.

Definition active_store (m : Model) : option store :=
  find_store (activeCollection m) (stores_of m).

(** The secondary indexes of an object store, and of the one CRUD operates
    on. *)
Fixpoint indexes_of (n : string) (ixs : list (string * list index)) : list index :=
  match ixs with
  | [] => []
  | (n', l) :: rest => if (n' =? n)%string then l else indexes_of n rest
  end.

Definition active_indexes (m : Model) : list index :=
  indexes_of (activeCollection m) (indexes m).

(** Computations on the state that resolve, reject or never settle. *)
Definition M (A : Type) : Type := Model -> Model * outcome A.

Definition ret {A : Type} (a : A) : M A := fun m => (m, Resolved a).

Definition throw {A : Type} (e : error) : M A := fun m => (m, Rejected e).

Definition lift {A : Type} (o : outcome A) : M A := fun m => (m, o).

Definition bind {A B : Type} (c : M A) (k : A -> M B) : M B :=
  fun m =>
    match c m with
    | (m', Resolved a) => k a m'
    | (m', Rejected e) => (m', Rejected e)
    | (m', Pending) => (m', Pending)
    end.

(** [try { c } catch (e) { h e }]. *)
Definition try_catch {A : Type} (c : M A) (h : error -> M A) : M A :=
  fun m =>
    match c m with
    | (m', Rejected e) => h e m'
    | r => r
    end.

Notation "x <- c ;; k" := (bind c (fun x => k))
  (at level 61, c at next level, right associativity).
Notation "c ;;; k" := (bind c (fun _ => k))
  (at level 61, right associativity).

Definition gets {A : Type} (f : Model -> A) : M A :=
  fun m => (m, Resolved (f m)).

(** Code run inside an event handler of a request: an exception thrown
    there aborts the transaction and the promise is never settled. *)
Definition in_handler {A : Type} (c : M A) : M A :=
  fun m =>
    match c m with
    | (m', Rejected _) => (m', Pending)
    | r => r
    end.

Definition log (msg : logmsg) : M unit :=
  fun m => (with_console m (console m ++ [msg])%list, Resolved tt).

Module ModelOps.
Section WithRuntime.
Context {rt : Runtime}.

(** *** Reading a definition *)

Definition def_type (m : Model) (d : definition) : option jstype :=
  match d with
  | Def fd => fd_type fd
  | Ctor t => cp_type (ctors m t)
  end.

Definition def_unique (m : Model) (d : definition) : bool :=
  match d with
  | Def fd => fd_unique fd
  | Ctor t => cp_unique (ctors m t)
  end.

Definition def_required (d : definition) : bool :=
  match d with
  | Def fd => fd_required fd
  | Ctor _ => false
  end.

Definition def_validate (d : definition) : option (value -> vresult) :=
  match d with
  | Def fd => fd_validate fd
  | Ctor _ => None
  end.

(** *** constructor *)

Definition no_ctor_props : jstype -> ctor_props :=
  fun _ => {| cp_type := None; cp_unique := false |}.

Definition set_ctor (c : jstype -> ctor_props) (t : jstype) (p : ctor_props)
  : jstype -> ctor_props :=
  fun t' => if jstype_eqb t' t then p else c t'.

Definition is_String (t : option jstype) : bool :=
  match t with
  | Some TString => true
  | _ => false
  end.

(** [{ type: String, unique: true }]. *)
Definition string_unique_def : definition :=
  Def {| fd_type := Some TString; fd_required := false; fd_unique := true;
         fd_default := None; fd_validate := None |}.

(** The three branches of the constructor on the primary's definition:
    absent; present with a type other than String; present with type String
    and no [unique].  The result is the definitions, the properties of the
    constructor functions and what is logged. *)
Definition adjust_primary (prim : string) (defs : list (string * definition))
  : list (string * definition) * (jstype -> ctor_props) * list logmsg :=
  match lookup_def prim defs with
  | None => (set_def defs prim string_unique_def, no_ctor_props, [])
  | Some (Def fd) =>
      if negb (is_String (fd_type fd)) then
        (set_def defs prim
           (Def {| fd_type := Some TString; fd_required := fd_required fd;
                   fd_unique := fd_unique fd; fd_default := fd_default fd;
                   fd_validate := fd_validate fd |}),
         no_ctor_props, [WarnPrimaryConverted prim])
      else if negb (fd_unique fd) then
        (set_def defs prim
           (Def {| fd_type := fd_type fd; fd_required := fd_required fd;
                   fd_unique := true; fd_default := fd_default fd;
                   fd_validate := fd_validate fd |}),
         no_ctor_props, [])
      else (defs, no_ctor_props, [])
  | Some (Ctor t) =>
      (* the definition is the constructor function [t] itself: the
         assignment sets a property of that function; its [type] is
         undefined before, so the second branch is the one taken *)
      (defs,
       set_ctor no_ctor_props t {| cp_type := Some TString; cp_unique := false |},
       [WarnPrimaryConverted prim])
  end.

(** [options.primary || "_id"]. *)
Definition primary_of (options : Options) : string :=
  match opt_primary options with
  | Some p => if (p =? "")%string then "_id" else p
  | None => "_id"
  end.

(** [new Model(name, schema, options)], in an environment where the
    substrate holds [existing] under [name], with object stores that have no
    secondary index, nothing has been logged and no constructor function
    carries a property yet. *)
Definition new_Model (nm : string) (s : Schema) (options : Options)
    (existing : option (Z * database)) : Model :=
  let adjusted := adjust_primary (primary_of options) (sdefinition s) in
  {| name := nm;
     schema := {| sdefinition := fst (fst adjusted); sindexes := sindexes s |};
     version := match opt_version options with
                | Some v => if v =? 0 then 1 else v
                | None => 1
                end;
     primary := primary_of options;
     collections := match opt_collections options with
                    | Some (c :: cs) => c :: cs
                    | _ => []
                    end;
     activeCollection := match opt_active options with
                         | Some a => if (a =? "")%string then nm else a
                         | None => nm
                         end;
     db := false;
     watchers := [];
     indexedDB := existing;
     indexes := [];
     ctors := snd (fst adjusted);
     console := snd adjusted;
     idcount := 0;
     ticks := 0 |}.

(** *** connect *)

(** [db.objectStoreNames.contains(n)]. *)
Definition contains_store (n : string) (d : database) : bool :=
  existsb (fun entry => (fst entry =? n)%string) d.

(** [db.createObjectStore(n, ...)]: the stores are listed by name. *)
Fixpoint createObjectStore (n : string) (d : database) : database :=
  match d with
  | [] => [(n, [])]
  | (n', st) :: rest =>
      if String.ltb n n' then (n, []) :: d
      else (n', st) :: createObjectStore n rest
  end.

Definition ensure_store (n : string) (d : database) : database :=
  if contains_store n d then d else createObjectStore n d.

(** [onupgradeneeded]: create the declared collections that do not exist
    yet, or the store named after the database when none is declared.  The
    indexes each new store is given are [upgrade_indexes]'s, below. *)
Definition upgrade (m : Model) (d : database) : database :=
  match collections m with
  | [] => ensure_store (name m) d
  | colls => fold_left (fun acc c => ensure_store c acc) colls d
  end.

(** Every store that [onupgradeneeded] creates is given the indexes of the
    schema: [store.createIndex(index.field, index.field, { unique:
    index.unique || false })] for each of [this.schema.indexes].  The index
    declarations are taken to be well formed (their fields are strings,
    distinct, each a valid key path), so that [createIndex] does not throw. *)
Definition declared_indexes (s : Schema) : list index :=
  flat_map (fun declared =>
              match get declared "field" with
              | VStr field =>
                  [{| ix_keyPath := field; ix_unique := truthy (get declared "unique") |}]
              | _ => []
              end)
           (sindexes s).

Definition set_indexes (n : string) (l : list index) (ixs : list (string * list index))
  : list (string * list index) :=
  (n, l) :: filter (fun entry => negb (fst entry =? n)%string) ixs.

Definition upgrade_indexes (m : Model) (d : database) (ixs : list (string * list index))
  : list (string * list index) :=
  fold_left (fun acc c => set_indexes c (declared_indexes (schema m)) acc)
            (filter (fun c => negb (contains_store c d))
                    (match collections m with
                     | [] => [name m]
                     | colls => colls
                     end))
            ixs.

Definition syncVersion (m : Model) (v : Z) : Z :=
  match indexedDB m with
  | Some (ev, _) => if negb (v =? 0) && (v <? ev) then ev else v
  | None => 1
  end.

(** [connect()].  [indexedDB.open] throws on a version that is not
    positive; thrown inside the async executor, the exception leaves the
    returned promise unsettled. *)
Definition connect : M unit :=
  fun m =>
    let v := syncVersion m (version m) in
    let '(stored, stores) := match indexedDB m with
                             | Some (ev, d) => (ev, d)
                             | None => (0, [])
                             end in
    if v <=? 0 then (with_version m v, Pending)
    else
      let stores' := if stored <? v then upgrade m stores else stores in
      let indexes' := if stored <? v then upgrade_indexes m stores (indexes m)
                      else indexes m in
      (with_connection (with_indexes m indexes') v stores', Resolved tt).

(** [_executeTransaction(mode, callback)]: connect if no handle is held,
    open a transaction on the active collection and run the callback on its
    store.  A transaction on a store that does not exist throws. *)
Definition _executeTransaction {A : Type} (callback : store -> M (store * A)) : M A :=
  (fun m => if db m then (m, Resolved tt) else connect m) ;;;
  (fun m =>
     match active_store m with
     | None => (m, Rejected NotFoundError)
     | Some st =>
         match callback st m with
         | (m', Resolved (st', a)) =>
             (with_indexedDB m'
                (match indexedDB m' with
                 | Some (v, d) => Some (v, replace_store (activeCollection m') st' d)
                 | None => None
                 end),
              Resolved a)
         | (m', Rejected e) => (m', Rejected e)
         | (m', Pending) => (m', Pending)
         end
     end).

(** *** The object store *)

Fixpoint valid_key (v : value) : bool :=
  match v with
  | VNum (Fin _) => true
  | VStr _ => true
  | VDate (Some _) => true
  | VArr l => forallb valid_key l
  | _ => false
  end.

Definition key_of (keyPath : string) (r : obj) : option string :=
  match get r keyPath with
  | VStr k => Some k
  | _ => None
  end.

Definition has_key (keyPath k : string) (r : obj) : bool :=
  match key_of keyPath r with
  | Some k' => (k' =? k)%string
  | None => false
  end.

(** [store.get(key)]: an invalid key throws; a valid key that is not a
    string is the key of no record. *)
Definition store_get (keyPath : string) (st : store) (key : value)
  : outcome (option obj) :=
  if valid_key key then
    match key with
    | VStr k => Resolved (List.find (has_key keyPath k) st)
    | _ => Resolved None
    end
  else Rejected DataError.

Fixpoint store_insert (keyPath k : string) (r : obj) (st : store) : store :=
  match st with
  | [] => [r]
  | r' :: rest =>
      match key_of keyPath r' with
      | Some k' =>
          if (k' =? k)%string then r :: rest
          else if String.ltb k k' then r :: r' :: rest
          else r' :: store_insert keyPath k r rest
      | None => r' :: store_insert keyPath k r rest
      end
  end.

(** [store.put(record)], as far as the primary key goes; the unique
    indexes are [violates_unique]'s. *)
Definition store_put (keyPath : string) (st : store) (r : obj) : outcome store :=
  match key_of keyPath r with
  | Some k => Resolved (store_insert keyPath k r st)
  | None => Rejected DataError
  end.

(** [store.add(record)]: as [put], but an existing key is an error. *)
Definition store_add (keyPath : string) (st : store) (record : value) : outcome store :=
  match record with
  | VObj r =>
      match key_of keyPath r with
      | Some k =>
          if existsb (has_key keyPath k) st then Rejected ConstraintError
          else Resolved (store_insert keyPath k r st)
      | None => Rejected DataError
      end
  | _ => Rejected DataError
  end.

(** The key a record has in an index: the value its key path leads to, by
    own properties (and the [length] of a string or an array), if that
    value is a valid key.  A record without such a key is not in the
    index. *)
Fixpoint evaluate_keyPath (identifiers : list string) (v : value) : option value :=
  match identifiers with
  | [] => Some v
  | identifier :: rest =>
      match v with
      | VStr s =>
          if (identifier =? "length")%string
          then evaluate_keyPath rest (VNum (Fin (Z.of_nat (String.length s))))
          else None
      | VArr l =>
          if (identifier =? "length")%string
          then evaluate_keyPath rest (VNum (Fin (Z.of_nat (List.length l))))
          else None
      | VObj o =>
          match lookup identifier o with
          | Some VUndefined | None => None
          | Some x => evaluate_keyPath rest x
          end
      | _ => None
      end
  end.

Definition index_key (ix : index) (r : obj) : option value :=
  if (ix_keyPath ix =? "")%string then None
  else match evaluate_keyPath (SchemaOps.split "." (ix_keyPath ix)) (VObj r) with
       | Some key => if valid_key key then Some key else None
       | None => None
       end.

(** Two keys are equal. *)
Fixpoint key_eqb (a b : value) : bool :=
  match a, b with
  | VNum (Fin x), VNum (Fin y) => x =? y
  | VStr x, VStr y => (x =? y)%string
  | VDate (Some x), VDate (Some y) => x =? y
  | VArr l, VArr l' =>
      (fix all_eqb (l l' : list value) : bool :=
         match l, l' with
         | [], [] => true
         | x :: rest, y :: rest' => key_eqb x y && all_eqb rest rest'
         | _, _ => false
         end) l l'
  | _, _ => false
  end.

(** Writing [r] would give a unique index a key it already holds for
    another record: the request of [add] or [put] then fails with a
    ConstraintError and the transaction is aborted. *)
Definition violates_unique (ixs : list index) (keyPath : string) (st : store) (r : obj)
  : bool :=
  existsb
    (fun ix =>
       ix_unique ix &&
       match index_key ix r with
       | Some key =>
           existsb (fun other =>
                      negb (match key_of keyPath r with
                            | Some k => has_key keyPath k other
                            | None => false
                            end) &&
                      match index_key ix other with
                      | Some key' => key_eqb key key'
                      | None => false
                      end)
                   st
       | None => false
       end)
    ixs.

(** [store.delete(key)]. *)
Definition store_delete (keyPath : string) (st : store) (key : value) : outcome store :=
  if valid_key key then
    match key with
    | VStr k => Resolved (filter (fun r => negb (has_key keyPath k r)) st)
    | _ => Resolved st
    end
  else Rejected DataError.

(** *** _matchesQuery *)

(** [l.every(f)]: stops at the first element on which [f] is false; an
    exception thrown by [f] propagates. *)
Fixpoint every {A : Type} (f : A -> outcome bool) (l : list A) : outcome bool :=
  match l with
  | [] => Resolved true
  | x :: rest =>
      match f x with
      | Resolved true => every f rest
      | r => r
      end
  end.

(** [operand.includes(x)]: defined on arrays and strings. *)
Definition includes (operand x : value) : outcome bool :=
  match operand with
  | VArr l => Resolved (existsb (fun e => same_value_zero e x) l)
  | VStr s => Resolved (string_includes (to_string x) s)
  | _ => Rejected (TypeError "operand.includes is not a function")
  end.

(** One entry [operator: operand] of an operator object, against [item[key]]. *)
Definition operator_holds (item : obj) (key : string) (entry : string * value)
  : outcome bool :=
  let '(operator, operand) := entry in
  if (operator =? "$gt")%string then Resolved (js_gt (get item key) operand)
  else if (operator =? "$gte")%string then Resolved (js_gte (get item key) operand)
  else if (operator =? "$lt")%string then Resolved (js_ltb (get item key) operand)
  else if (operator =? "$lte")%string then Resolved (js_lte (get item key) operand)
  else if (operator =? "$ne")%string then
    Resolved (negb (strict_equals (get item key) operand))
  else if (operator =? "$in")%string then includes operand (get item key)
  else if (operator =? "$nin")%string then
    match includes operand (get item key) with
    | Resolved b => Resolved (negb b)
    | r => r
    end
  else Resolved false.

(** One clause [key: value] of a query. *)
Definition clause_matches (item : obj) (clause : string * value) : outcome bool :=
  let '(key, value) := clause in
  if truthy value && typeof_object value then
    match Object_entries value with
    | Resolved entries => every (operator_holds item key) entries
    | Rejected e => Rejected e
    | Pending => Pending
    end
  else Resolved (strict_equals (get item key) value).

Definition _matchesQuery (item : obj) (query : value) : outcome bool :=
  match Object_entries query with
  | Resolved clauses => every (clause_matches item) clauses
  | Rejected e => Rejected e
  | Pending => Pending
  end.

(** *** find, sort, limit *)

(** The projection of a record on [fields]. *)
Definition select_fields (fields : value) (r : obj) : obj :=
  let n := match get_prop fields "length" with
           | Resolved len => match to_number len with
                             | Fin z => Z.to_nat z
                             | NaN => 0%nat
                             end
           | _ => 0%nat
           end in
  fold_left
    (fun selected i =>
       match get_prop fields (string_of_nat i) with
       | Resolved field =>
           if has r (to_string field)
           then set selected (to_string field) (get r (to_string field))
           else selected
       | _ => selected
       end)
    (seq 0 n) [].

(** The cursor loop of [find].  An exception thrown by [_matchesQuery]
    inside the success handler aborts the transaction without settling the
    promise. *)
Fixpoint scan (query fields : value) (st : store) : outcome (list obj) :=
  match st with
  | [] => Resolved []
  | r :: rest =>
      let valueToPush := if truthy fields then select_fields fields r else r in
      let continue (pushed : bool) :=
        match scan query fields rest with
        | Resolved results => Resolved (if pushed then valueToPush :: results else results)
        | other => other
        end in
      if negb (truthy query) then continue true
      else match _matchesQuery r query with
           | Resolved b => continue b
           | _ => Pending
           end
  end.

(** [find({query = null, fields = null} = {})]. *)
Definition find (arg : value) : M (list obj) :=
  let options := match arg with VUndefined => VObj [] | _ => arg end in
  q <- lift (get_prop options "query") ;;
  f <- lift (get_prop options "fields") ;;
  let query := match q with VUndefined => VNull | _ => q end in
  let fields := match f with VUndefined => VNull | _ => f end in
  _executeTransaction (fun st => lift (match scan query fields st with
                                       | Resolved results => Resolved (st, results)
                                       | Rejected e => Rejected e
                                       | Pending => Pending
                                       end)).

(** The time value of [new Date(v)]. *)
Definition to_date (v : value) : option Z :=
  match v with
  | VDate t => t
  | VStr s => Date_parse s
  | VArr _ | VObj _ => Date_parse (to_string v)
  | _ => match to_number v with
         | Fin z => if Z.abs z <=? 8640000000000000 then Some z else None
         | NaN => None
         end
  end.

Definition num_sub (a b : num) : num :=
  match a, b with
  | Fin x, Fin y => Fin (x - y)
  | _, _ => NaN
  end.

Definition num_of_time (t : option Z) : num :=
  match t with
  | Some z => Fin z
  | None => NaN
  end.

(** The comparator [sort] passes to [Array.prototype.sort]. *)
Definition sort_compare (keyName : string) (isDate asc : bool) (a b : obj) : num :=
  if asc then
    if isDate
    then num_sub (num_of_time (to_date (get a keyName))) (num_of_time (to_date (get b keyName)))
    else num_sub (to_number (get a keyName)) (to_number (get b keyName))
  else
    if isDate
    then num_sub (num_of_time (to_date (get b keyName))) (num_of_time (to_date (get a keyName)))
    else num_sub (to_number (get b keyName)) (to_number (get a keyName)).

(** [Array.prototype.sort] with a comparator is a stable sort: an element is
    moved behind a later one only when the comparator is positive on them
    (a NaN result counts as zero). *)
Fixpoint sort_insert (cmp : obj -> obj -> num) (x : obj) (sorted : list obj) : list obj :=
  match sorted with
  | [] => [x]
  | y :: rest =>
      match cmp x y with
      | Fin z => if 0 <? z then y :: sort_insert cmp x rest else x :: y :: rest
      | NaN => x :: y :: rest
      end
  end.

Definition array_sort (cmp : obj -> obj -> num) (l : list obj) : list obj :=
  fold_right (sort_insert cmp) [] l.

(** [sort({ fields, keyField, order })], with [isDate] for
    [keyField.type === "date"] and [asc] for [order === "asc"]. *)
Definition sort (fields : list obj) (keyName : string) (isDate asc : bool) : list obj :=
  array_sort (sort_compare keyName isDate asc) fields.

(** [limit({ fields, limit })] is [fields.slice(0, limit)]. *)
Definition limit (fields : list obj) (n : Z) : list obj :=
  if n <? 0 then firstn (Z.to_nat (Z.of_nat (List.length fields) + n)) fields
  else firstn (Z.to_nat n) fields.

(** *** Validation and casting *)

(** [_isValidType(value, type)].  [None] stands for a [type] that is not a
    constructor (a definition object without [type]): [instanceof] throws.
    No modelled value is an instance of a user class. *)
Definition _isValidType (v : value) (type : option jstype) : outcome bool :=
  match type with
  | Some TString => Resolved (match v with VStr _ => true | _ => false end)
  | Some TNumber => Resolved (match v with VNum (Fin _) => true | _ => false end)
  | Some TBoolean => Resolved (match v with VBool _ => true | _ => false end)
  | Some TDate => Resolved (match v with VDate (Some _) => true | _ => false end)
  | Some TArray => Resolved (match v with VArr _ => true | _ => false end)
  | Some TObject => Resolved (match v with VDate _ | VArr _ | VObj _ => true | _ => false end)
  | Some (TCustom _) => Resolved false
  | None => Rejected (TypeError "Right-hand side of 'instanceof' is not callable")
  end.

(** [definition.type || definition]. *)
Definition validation_type (m : Model) (d : definition) : option jstype :=
  match d with
  | Def fd => fd_type fd
  | Ctor t => match cp_type (ctors m t) with
              | Some t' => Some t'
              | None => Some t
              end
  end.

(** What the conversion of [v] to a primitive throws when it throws. *)
Definition not_primitive : error :=
  TypeError "Cannot convert object to primitive value".

(** [_castValue(value, type)].  [String(value)], [Number(value)] and the
    template literal of the warning convert the value to a primitive, which
    throws on a value that is not [convertible]; the exception is caught
    and logged, and [null] is returned. *)
Definition _castValue (v : value) (type : option jstype) : M value :=
  try_catch
    (match type with
     | Some TString =>
         if convertible v then ret (VStr (to_string v)) else throw not_primitive
     | Some TNumber =>
         if convertible v then ret (VNum (to_number v)) else throw not_primitive
     | Some TBoolean => ret (VBool (truthy v))
     | Some TDate =>
         let converted :=
           match v with
           | VDate _ => v
           | VStr s => match Date_parse s with
                       | Some _ => VDate (Date_parse s)
                       | None => VNull
                       end
           | _ => VNull
           end in
         if negb (truthy converted) ||
            match converted with VDate None => true | _ => false end
         then (if convertible v then log (WarnInvalidDate v)
               else throw not_primitive) ;;;
              ret VNull
         else ret converted
     | _ => ret v
     end)
    (fun e => log (LogError e) ;;; ret VNull).

(** [prepared[key] = value] on the object that [_prepare] builds.  The
    object has no property [__proto__] of its own: an assignment to that
    name is received by the accessor of [Object.prototype] and creates no
    property (what it does to the prototype of [prepared] is seen neither by
    the spread of [update] nor by the structured clone of [store.add]). *)
Definition assign (prepared : obj) (key : string) (v : value) : obj :=
  if (key =? "__proto__")%string then prepared else set prepared key v.

(** The loop of [_prepare] over the entries of the data.  The test is
    [this.schema.definition[key]]: it is met by a key the schema declares
    and also, through the prototype of the definition object, by a key that
    is [inherited]; what is read there has no [type], so the value is kept
    as it is. *)
Fixpoint _prepare_entries (entries : obj) (prepared : obj) : M obj :=
  match entries with
  | [] => ret prepared
  | (key, v) :: rest =>
      d <- gets (fun m => lookup_def key (sdefinition (schema m))) ;;
      match d with
      | Some definition =>
          ty <- gets (fun m => def_type m definition) ;;
          c <- _castValue v ty ;;
          _prepare_entries rest (assign prepared key c)
      | None =>
          if inherited key then
            c <- _castValue v None ;;
            _prepare_entries rest (assign prepared key c)
          else _prepare_entries rest prepared
      end
  end.

(** [_prepare(data)]. *)
Definition _prepare (data : value) : M obj :=
  entries <- lift (Object_entries data) ;;
  _prepare_entries entries [].

Inductive pkstatus : Type := PkE | PkW | PkS.

(** [validatePrimaryKey(data)]. *)
Definition validatePrimaryKey (data : value) : M pkstatus :=
  prim <- gets primary ;;
  p <- lift (get_prop data prim) ;;
  if negb (truthy p) then ret PkE
  else
    len <- lift (get_prop p "length") ;;
    if negb (strict_equals len (VNum (Fin 24)))
    then log (WarnKeyLength prim) ;;; ret PkW
    else ret PkS.

Inductive operation : Type := OpCreate | OpUpdate.

(** [data[k] = v] in strict mode.  Properties added to an array or a Date
    are outside the value model; [create] passes a plain object. *)
Definition assign_prop (data : value) (k : string) (v : value) : outcome value :=
  match data with
  | VObj o => Resolved (VObj (set o k v))
  | VUndefined | VNull =>
      Rejected (TypeError "Cannot set properties of undefined or null")
  | _ => Rejected (TypeError "Cannot create property")
  end.

(** [delete data[k]] in strict mode: deleting an own property of a string,
    or the length of an array, throws; a deleted array element reads
    [undefined] afterwards. *)
Definition delete_prop (data : value) (k : string) : outcome value :=
  match data with
  | VUndefined | VNull =>
      Rejected (TypeError "Cannot convert undefined or null to object")
  | VObj o => Resolved (VObj (remove o k))
  | VStr s =>
      match hasOwnProperty data k with
      | Resolved true => Rejected (TypeError "Cannot delete property")
      | _ => Resolved data
      end
  | VArr l =>
      if (k =? "length")%string then Rejected (TypeError "Cannot delete property")
      else match index_of_key k (List.length l) with
           | Some i => Resolved (VArr (firstn i l ++ VUndefined :: skipn (S i) l)%list)
           | None => Resolved data
           end
  | _ => Resolved data
  end.

Definition generateId : M string :=
  fun m => (with_idcount m (S (idcount m)), Resolved (generateObjectId (idcount m))).

Definition now : M Z :=
  fun m => (with_ticks m (S (ticks m)), Resolved (Date_now (ticks m))).

(** The checks [_validateData] makes for one declared field, in the order of
    the source: required, unique (not on update), type, custom validator. *)
Definition validate_field (data : value) (op : operation)
    (entry : string * definition) : M (list verror) :=
  let '(field, definition) := entry in
  e1 <- (if def_required definition then
           h <- lift (hasOwnProperty data field) ;;
           ret (if h then [] else [FieldRequired field])
         else ret []) ;;
  unique <- gets (fun m => def_unique m definition) ;;
  e2 <- (if unique && match op with OpUpdate => false | OpCreate => true end then
           v <- lift (get_prop data field) ;;
           existing <- find (VObj [("query", VObj [(field, v)])]) ;;
           ret (match existing with [] => [] | _ :: _ => [FieldMustBeUnique field] end)
         else ret []) ;;
  h <- lift (hasOwnProperty data field) ;;
  v <- lift (get_prop data field) ;;
  e3 <- (if h && negb (strict_equals v VNull) then
           type <- gets (fun m => validation_type m definition) ;;
           ok <- lift (_isValidType v type) ;;
           ret (if ok then [] else [FieldMustBeOfType field])
         else ret []) ;;
  let e4 := match def_validate definition with
            | Some validate =>
                if h then
                  match validate v with
                  | VTruthy => []
                  | VFalsy => [FieldValidationFailed field]
                  | VThrows msg => [FieldValidationError field msg]
                  end
                else []
            | None => []
            end in
  ret (e1 ++ e2 ++ e3 ++ e4)%list.

Fixpoint validate_fields (data : value) (op : operation)
    (entries : list (string * definition)) (errors : list verror) : M (list verror) :=
  match entries with
  | [] => ret errors
  | entry :: rest =>
      es <- validate_field data op entry ;;
      validate_fields data op rest (errors ++ es)%list
  end.

(** [_validateData(data, operation, id)].  The call may assign the primary
    of [data]; the data as it is afterwards is returned. *)
Definition _validateData (data : value) (op : operation) (id : value) : M value :=
  data' <- match op with
           | OpCreate =>
               status <- validatePrimaryKey data ;;
               match status with
               | PkE =>
                   prim <- gets primary ;;
                   g <- generateId ;;
                   lift (assign_prop data prim (VStr g))
               | _ => ret data
               end
           | OpUpdate =>
               if negb (truthy id) then throw PrimaryRequired else ret data
           end ;;
  entries <- gets (fun m => sdefinition (schema m)) ;;
  errors <- validate_fields data' op entries [] ;;
  match errors with
  | [] => ret data'
  | _ :: _ => throw (ValidationFailed errors)
  end.

(** *** create, update, delete *)

(** [create(data, options)], with [castToScheme] for [options.castToScheme]. *)
Definition create (data : value) (castToScheme : bool) : M value :=
  data1 <- (if castToScheme then p <- _prepare data ;; ret (VObj p) else ret data) ;;
  data2 <- _validateData data1 OpCreate VUndefined ;;
  _executeTransaction (fun st =>
    record <- (if negb castToScheme
               then p <- _prepare data2 ;; ret (VObj p)
               else ret data2) ;;
    prim <- gets primary ;;
    st' <- lift (store_add prim st record) ;;
    ixs <- gets active_indexes ;;
    if violates_unique ixs prim st (spread_value record)
    then throw ConstraintError
    else ret (st', data2)).

(** [update(data, id)]. *)
Definition update (data id : value) : M obj :=
  prim <- gets primary ;;
  id1 <- (if truthy id then ret id else lift (get_prop data prim)) ;;
  data1 <- lift (delete_prop data prim) ;;
  _validateData data1 OpUpdate id1 ;;;
  _executeTransaction (fun st =>
    found <- lift (store_get prim st id1) ;;
    match found with
    | None => throw ItemNotFound
    | Some item =>
        written <- in_handler
                     (prepared <- _prepare data1 ;;
                      let updatedItem := spread item prepared in
                      st' <- lift (store_put prim st updatedItem) ;;
                      ret (st', updatedItem)) ;;
        ixs <- gets active_indexes ;;
        if violates_unique ixs prim st (snd written)
        then throw ConstraintError
        else ret written
    end).

(** [delete(id)]. *)
Definition delete (id : value) : M value :=
  _executeTransaction (fun st =>
    prim <- gets primary ;;
    st' <- lift (store_delete prim st id) ;;
    ret (st', id)).

(** *** The methods as called on the instance

    [watchChanges] replaces [model.update] and [model.create] by wrappers
    around the methods it finds; a call goes through every wrapper
    installed, the latest first, and ends in the method of the class.  The
    wrapper of [update] is [(id, data) => originalUpdate(id, syncData)] and
    that of [create] is [(data) => originalCreate(syncData)]. *)
Fixpoint wrapped_update (ws : list string) (id data : value) : M obj :=
  match ws with
  | [] => update id data
  | syncStatusField :: rest =>
      t <- now ;;
      let syncData :=
        set (set (spread_value data) syncStatusField (VStr "modified"))
            "_localUpdatedAt" (VDate (Some t)) in
      wrapped_update rest id (VObj syncData)
  end.

Fixpoint wrapped_create (ws : list string) (data : value) (castToScheme : bool)
  : M value :=
  match ws with
  | [] => create data castToScheme
  | syncStatusField :: rest =>
      t <- now ;;
      let syncData :=
        set (set (spread_value data) syncStatusField (VStr "modified"))
            "_localUpdatedAt" (VDate (Some t)) in
      wrapped_create rest (VObj syncData) false
  end.

(** [model.update(a, b)] and [model.create(data, options)]. *)
Definition call_update (a b : value) : M obj :=
  ws <- gets watchers ;;
  wrapped_update ws a b.

Definition call_create (data : value) (castToScheme : bool) : M value :=
  ws <- gets watchers ;;
  wrapped_create ws data castToScheme.

(** *** disconnect, refresh *)

(** [this.db = null]. *)
Definition without_handle (m : Model) : Model :=
  {| name := name m; schema := schema m; version := version m; primary := primary m;
     collections := collections m; activeCollection := activeCollection m;
     db := false; watchers := watchers m; indexedDB := indexedDB m; indexes := indexes m;
     ctors := ctors m; console := console m; idcount := idcount m;
     ticks := ticks m |}.

(** [disconnect()]. *)
Definition disconnect : M unit :=
  fun m => (if db m then without_handle m else m, Resolved tt).

(** [refresh()]. *)
Definition refresh : M unit := disconnect ;;; connect.

(** *** findById, count, clear, deleteMany *)

(** [findById(id, fields = null)]. *)
Definition findById (id fields : value) : M value :=
  _executeTransaction (fun st =>
    prim <- gets primary ;;
    found <- lift (store_get prim st id) ;;
    match found with
    | None => ret (st, VUndefined)
    | Some result =>
        if negb (truthy fields) then ret (st, VObj result)
        else ret (st, VObj (select_fields fields result))
    end).

(** [count()]. *)
Definition count : M value :=
  _executeTransaction (fun st => ret (st, VNum (Fin (Z.of_nat (List.length st))))).

(** [clear()]. *)
Definition clear : M value :=
  _executeTransaction (fun _ => ret ([], VBool true)).

(** [ids.map((id) => this.delete(id))]: the calls are made in array order,
    each in a transaction of its own, and each yields a promise. *)
Fixpoint delete_each (ids : list value) : M (list (outcome value)) :=
  match ids with
  | [] => ret []
  | id :: rest =>
      fun m =>
        let '(m1, r) := delete id m in
        match delete_each rest m1 with
        | (m2, Resolved rs) => (m2, Resolved (r :: rs))
        | other => other
        end
  end.

(** [Promise.all(promises)]: rejected as soon as one of the promises is (the
    promises above are rejected, if at all, in the order of the array),
    resolved with all the results once all are resolved. *)
Fixpoint Promise_all {A : Type} (promises : list (outcome A)) : outcome (list A) :=
  match promises with
  | [] => Resolved []
  | p :: rest =>
      match p, Promise_all rest with
      | Rejected e, _ => Rejected e
      | _, Rejected e => Rejected e
      | Pending, _ => Pending
      | Resolved _, Pending => Pending
      | Resolved a, Resolved l => Resolved (a :: l)
      end
  end.

(** [deleteMany(query)]. *)
Definition deleteMany (query : value) : M (list value) :=
  items <- find query ;;
  prim <- gets primary ;;
  deleted <- delete_each (map (fun item => get item prim) items) ;;
  lift (Promise_all deleted).

End WithRuntime.
End ModelOps.

(** ** Sync.js *)

Record SyncOptions : Type := {
  so_idField : option string;
  so_syncStatus : option string;
  so_serverId : option string;
  so_lastSync : option string;
  so_conflictResolution : option string
}.

(** The fields of a SyncManager the modelled methods read. *)
Record SyncManager : Type := {
  idField : string;
  syncStatusField : string;
  serverIdField : string;
  lastSyncField : string;
  conflictResolution : string
}.

(** What [pushToServer], [pullFromServer] return: [{ success: true,
    synchronized }] or [{ success: false, error }]. *)
Inductive sync_result : Type :=
| Success (synchronized : value)
| Failure (e : error).

Module SyncOps.
Import ModelOps.
Section WithRuntime.
Context {rt : Runtime}.

Definition or_default (o : option string) (d : string) : string :=
  match o with
  | Some s => if (s =? "")%string then d else s
  | None => d
  end.

(** [new SyncManager(model, options)]. *)
Definition new_SyncManager (options : SyncOptions) : SyncManager :=
  {| idField := or_default (so_idField options) "_id";
     syncStatusField := or_default (so_syncStatus options) "_syncStatus";
     serverIdField := or_default (so_serverId options) "_id";
     lastSyncField := or_default (so_lastSync options) "_lastSync";
     conflictResolution := or_default (so_conflictResolution options) "server-wins" |}.

(** [prepareSyncSchema()]. *)
Definition prepareSyncSchema (sm : SyncManager) : M unit :=
  fun m =>
    let defs := sdefinition (schema m) in
    let syncFields :=
      set_def
        (set_def
           (set_def
              (set_def [] (syncStatusField sm)
                 (Def {| fd_type := Some TString; fd_required := false;
                         fd_unique := false; fd_default := Some (VStr "synced");
                         fd_validate := None |}))
              (lastSyncField sm) (Ctor TDate))
           "_syncErrors" (Ctor TArray))
        "_localUpdatedAt" (Ctor TDate) in
    let syncFields :=
      match lookup_def (serverIdField sm) defs with
      | None => set_def syncFields (serverIdField sm) string_unique_def
      | Some _ => syncFields
      end in
    (with_schema m
       {| sdefinition := fold_left (fun acc kd => set_def acc (fst kd) (snd kd))
                                   syncFields defs;
          sindexes := sindexes (schema m) |},
     Resolved tt).

(** [prepareForSync(item)]. *)
Definition prepareForSync (sm : SyncManager) (item : obj) : obj :=
  remove (remove (remove (remove (remove item (syncStatusField sm))
                                 (serverIdField sm))
                         (lastSyncField sm))
                 "_syncErrors")
         "_localUpdatedAt".

(** [watchChanges()]. *)
Definition watchChanges (sm : SyncManager) : M unit :=
  fun m => (with_watchers m (syncStatusField sm :: watchers m), Resolved tt).

(** The elements a [for ... of] loop visits. *)
Definition iterate (v : value) : outcome (list value) :=
  match v with
  | VArr l => Resolved l
  | VStr s => Resolved (map VStr (chars s))
  | _ => Rejected (TypeError "is not iterable")
  end.

(** The loop of [pushToServer] over [result.synchronized]. *)
Fixpoint confirm_all (sm : SyncManager) (acks : list value) : M unit :=
  match acks with
  | [] => ret tt
  | synced :: rest =>
      localId <- lift (get_prop synced "localId") ;;
      serverId <- lift (get_prop synced "serverId") ;;
      t <- now ;;
      call_update localId
        (VObj (set (set (set [] (syncStatusField sm) (VStr "synced"))
                        (serverIdField sm) serverId)
                   (lastSyncField sm) (VDate (Some t)))) ;;;
      confirm_all sm rest
  end.

(** [pushToServer()]; [fetch] maps the body of the request to what
    [response.json()] yields (or to the failure of the exchange). *)
Definition pushToServer (sm : SyncManager) (fetch : value -> outcome value)
  : M sync_result :=
  try_catch
    (modifiedItems <- find (VObj [(syncStatusField sm, VStr "modified")]) ;;
     let changeset :=
       map (fun item =>
              VObj [("id", get item (serverIdField sm));
                    ("data", VObj (prepareForSync sm item));
                    ("localId", get item (idField sm))])
           modifiedItems in
     result <- lift (fetch (VObj [("changes", VArr changeset)])) ;;
     synchronized <- lift (get_prop result "synchronized") ;;
     acks <- lift (iterate synchronized) ;;
     confirm_all sm acks ;;;
     n <- lift (get_prop synchronized "length") ;;
     ret (Success n))
    (fun e => ret (Failure e)).

(** The body of the callback [handleConflict] maps over [localItem]. *)
Definition resolve_conflict (sm : SyncManager) (localItem serverItem item : value)
  : M (option obj) :=
  if (conflictResolution sm =? "server-wins")%string then
    id <- lift (get_prop item (idField sm)) ;;
    sid <- lift (get_prop serverItem (idField sm)) ;;
    t <- now ;;
    r <- call_update id
           (VObj (set (set (set (spread_value serverItem)
                                (serverIdField sm) sid)
                           (syncStatusField sm) (VStr "synced"))
                      (lastSyncField sm) (VDate (Some t)))) ;;
    ret (Some r)
  else if (conflictResolution sm =? "client-wins")%string then
    status <- lift (get_prop localItem (syncStatusField sm)) ;;
    if negb (strict_equals status (VStr "modified")) then
      id <- lift (get_prop localItem (idField sm)) ;;
      sid <- lift (get_prop serverItem (idField sm)) ;;
      t <- now ;;
      r <- call_update id
             (VObj (set (set (set (spread_value serverItem)
                                  (serverIdField sm) sid)
                             (syncStatusField sm) (VStr "synced"))
                        (lastSyncField sm) (VDate (Some t)))) ;;
      ret (Some r)
    else ret None
  else if (conflictResolution sm =? "manual")%string then
    id <- lift (get_prop localItem (idField sm)) ;;
    r <- call_update id
           (VObj (set (set (spread_value localItem)
                           (syncStatusField sm) (VStr "conflict"))
                      "_serverVersion" serverItem)) ;;
    ret (Some r)
  else ret None.

(** [localItem.map(async (item) => ...)]: the callbacks are started in array
    order and each yields a promise of its own, so a rejection stays in the
    array; the model runs them one after the other. *)
Fixpoint map_conflicts (sm : SyncManager) (localItem serverItem : value)
    (items : list value) : M (list (outcome (option obj))) :=
  match items with
  | [] => ret []
  | item :: rest =>
      fun m =>
        let '(m1, r) := resolve_conflict sm localItem serverItem item m in
        match map_conflicts sm localItem serverItem rest m1 with
        | (m2, Resolved rs) => (m2, Resolved (r :: rs))
        | other => other
        end
  end.

(** [handleConflict(localItem, serverItem)]. *)
Definition handleConflict (sm : SyncManager) (localItem serverItem : value)
  : M (list (outcome (option obj))) :=
  match localItem with
  | VArr items => map_conflicts sm localItem serverItem items
  | _ => throw (TypeError "localItem.map is not a function")
  end.

(** [getLastSyncTimestamp()]. *)
Definition getLastSyncTimestamp (sm : SyncManager) : M value :=
  lastSyncedItems <-
    try_catch
      (result <- find (VObj [(syncStatusField sm, VStr "synced")]) ;;
       let sorted := sort result (lastSyncField sm) true false in
       ret (Some (limit sorted 1)))
      (fun e => log (LogError e) ;;; ret None) ;;
  match lastSyncedItems with
  | None => throw (TypeError "Cannot read properties of undefined")
  | Some [] => ret VNull
  | Some (first :: _) => ret (get first (lastSyncField sm))
  end.

(** The loop of [pullFromServer] over [serverData.items]. *)
Fixpoint pull_all (sm : SyncManager) (items : list value) : M unit :=
  match items with
  | [] => ret tt
  | item :: rest =>
      id <- lift (get_prop item (idField sm)) ;;
      localItem <- find (VObj [(serverIdField sm, id)]) ;;
      match localItem with
      | [] =>
          t <- now ;;
          call_create
            (VObj (set (set (set (spread_value item)
                                 (serverIdField sm) id)
                            (syncStatusField sm) (VStr "synced"))
                       (lastSyncField sm) (VDate (Some t))))
            false ;;;
          pull_all sm rest
      | _ :: _ =>
          handleConflict sm (VArr (map VObj localItem)) item ;;;
          pull_all sm rest
      end
  end.

(** [pullFromServer(lastSyncTimestamp)]. *)
Definition pullFromServer (sm : SyncManager) (fetch : value -> outcome value)
    (lastSyncTimestamp : value) (batchSize : value) : M sync_result :=
  try_catch
    (serverData <- lift (fetch (VObj [("lastSync", lastSyncTimestamp);
                                      ("batchSize", batchSize)])) ;;
     items <- lift (get_prop serverData "items") ;;
     l <- lift (iterate items) ;;
     pull_all sm l ;;;
     n <- lift (get_prop items "length") ;;
     ret (Success n))
    (fun e => log (LogError e) ;;; ret (Failure e)).

(** What [sync] returns: [{ success: true, pushed, pulled }] or
    [{ success: false, error }]. *)
Inductive sync_report : Type :=
| Synced (pushed pulled : value)
| SyncFailed (e : error).

(** [result.synchronized || 0]. *)
Definition synchronized_or_zero (result : sync_result) : value :=
  match result with
  | Success n => if truthy n then n else VNum (Fin 0)
  | Failure _ => VNum (Fin 0)
  end.

(** [sync()]; [put] and [post] stand for the exchanges of [pushToServer]
    and of [pullFromServer].  [pullFromServer(lastSyncTimestamp = null)]
    takes [null] for an [undefined] argument. *)
Definition sync (sm : SyncManager) (put post : value -> outcome value)
    (batchSize : value) : M sync_report :=
  try_catch
    (pushResult <- pushToServer sm put ;;
     lastSync <- getLastSyncTimestamp sm ;;
     pullResult <- pullFromServer sm post
                     (match lastSync with VUndefined => VNull | _ => lastSync end)
                     batchSize ;;
     ret (Synced (synchronized_or_zero pushResult) (synchronized_or_zero pullResult)))
    (fun e => ret (SyncFailed e)).

End WithRuntime.
End SyncOps.

(** ** A concrete runtime and concrete engines

    The runtime below agrees with JavaScript on the inputs the examples use:
    decimal numerals, two ISO date strings, and strings that are no dates. *)

Module Scenario.
Import ModelOps SyncOps.

Fixpoint digits_value (s : string) (acc : Z) : option Z :=
  match s with
  | EmptyString => Some acc
  | String c rest =>
      let n := Z.of_nat (nat_of_ascii c) in
      if (48 <=? n) && (n <=? 57) then digits_value rest (10 * acc + (n - 48))
      else None
  end.

Definition pad6 (n : nat) : string :=
  let s := string_of_nat n in
  (substring 0 (6 - String.length s) "000000" ++ s)%string.

#[export] Instance runtime : Runtime := {
  Date_parse s :=
    if (s =? "1970-01-01T00:00:00.000Z")%string then Some 0
    else if (s =? "2024-12-04T18:35:27.000Z")%string then Some 1733337327000
    else None;
  StringToNumber s :=
    match digits_value s 0 with
    | Some z => Fin z
    | None => NaN
    end;
  Date_toString t :=
    match t with
    | None => "Invalid Date"
    | Some z => ("Date " ++ string_of_Z z)%string
    end;
  Date_now n := 1733337327000 + Z.of_nat n;
  generateObjectId n := ("674fa68cb742d1ff3e" ++ pad6 n)%string
}.

Definition no_options : Options :=
  {| opt_version := None; opt_primary := None; opt_collections := None;
     opt_active := None |}.

Definition field (t : jstype) (required unique : bool) : definition :=
  Def {| fd_type := Some t; fd_required := required; fd_unique := unique;
         fd_default := None; fd_validate := None |}.

(** The schema of the Model tests: [name] and [age], both required. *)
Definition userSchema : Schema :=
  {| sdefinition := [("name", field TString true false);
                     ("age", field TNumber true false)];
     sindexes := [] |}.

(** [new Model('users', userSchema)] once connected, holding one record. *)
Definition john : obj :=
  [("name", VStr "John Doe"); ("age", VNum (Fin 30));
   ("_id", VStr "674fa6419b342e316cbe59da")].

(** A patch that also names the primary. *)
Definition patch : obj :=
  [("name", VStr "Johnathan Doe"); ("age", VNum (Fin 31)); ("_id", VStr "other")].

Definition users : Model :=
  let m := fst (connect (new_Model "users" userSchema no_options None)) in
  with_indexedDB m (Some (1, [("users", [john])])).

(** The schema and the SyncManager of the Sync tests; the engine after
    [prepareSyncSchema], [watchChanges] and [connect]. *)
Definition syncSchema : Schema :=
  {| sdefinition := [("_id", field TString false true);
                     ("name", field TString true false);
                     ("age", field TNumber false false);
                     ("updatedAt", field TDate false false)];
     sindexes := [] |}.

Definition sync_options (policy : option string) : SyncOptions :=
  {| so_idField := Some "_id"; so_syncStatus := None; so_serverId := None;
     so_lastSync := None; so_conflictResolution := policy |}.

Definition manager : SyncManager := new_SyncManager (sync_options (Some "server-wins")).

Definition client_wins : SyncManager := new_SyncManager (sync_options (Some "client-wins")).

Definition testdb : Model :=
  fst (connect
         (fst (watchChanges manager
                 (fst (prepareSyncSchema manager
                         (new_Model "testdb" syncSchema no_options None)))))).

(** The engine after [model.create({ name: 'Alice', age: 28 })]. *)
Definition testdb_alice : Model :=
  fst (call_create (VObj [("name", VStr "Alice"); ("age", VNum (Fin 28))]) false testdb).

Definition alice_id : string := "674fa68cb742d1ff3e000000".

(** A remote authority that acknowledges Alice's record. *)
Definition acknowledge (body : value) : outcome value :=
  Resolved (VObj [("synchronized",
                   VArr [VObj [("localId", VStr alice_id);
                               ("serverId", VStr "srv-1")]])]).

(** An engine holding a record synced at instant 100 and a record modified
    since it was synced at instant 200. *)
Definition synced_record : obj :=
  [("_id", VStr "a"); ("name", VStr "Ann"); ("_syncStatus", VStr "synced");
   ("_lastSync", VDate (Some 100))].

Definition modified_record : obj :=
  [("_id", VStr "b"); ("name", VStr "Bob"); ("_syncStatus", VStr "modified");
   ("_lastSync", VDate (Some 200))].

Definition testdb_two : Model :=
  with_indexedDB testdb (Some (1, [("testdb", [synced_record; modified_record])])).

(** An engine, connected and empty, whose schema declares [email] unique;
    two records with the same email. *)
Definition accountSchema : Schema :=
  {| sdefinition := [("email", field TString true true);
                     ("name", field TString false false)];
     sindexes := [] |}.

Definition accounts : Model :=
  fst (connect (new_Model "accounts" accountSchema no_options None)).

Definition ann : obj := [("email", VStr "ann@example.com"); ("name", VStr "Ann")].

Definition anna : obj := [("email", VStr "ann@example.com"); ("name", VStr "Anna")].

(** An engine, connected and empty, whose schema declares the array [tags]
    unique; a record with one tag. *)
Definition postSchema : Schema :=
  {| sdefinition := [("tags", field TArray false true)]; sindexes := [] |}.

Definition posts : Model :=
  fst (connect (new_Model "posts" postSchema no_options None)).

Definition post : obj := [("tags", VArr [VStr "a"])].

(** An engine whose schema has been given a unique index,
    [memberSchema.addIndex('email', { unique: true })], before the database
    was created; it holds two members. *)
Definition memberSchema : Schema :=
  {| sdefinition := [("email", field TString false false)];
     sindexes := SchemaOps.addIndex [] "email" (VObj [("unique", VBool true)]) |}.

Definition ann_member : obj := [("_id", VStr "a"); ("email", VStr "ann@example.com")].

Definition bob_member : obj := [("_id", VStr "b"); ("email", VStr "bob@example.com")].

Definition members : Model :=
  let m := fst (connect (new_Model "members" memberSchema no_options None)) in
  with_indexedDB m (Some (1, [("members", [ann_member; bob_member])])).

(** A SyncManager whose status field is named [__proto__], and the engine
    it prepares and watches. *)
Definition proto_manager : SyncManager :=
  new_SyncManager
    {| so_idField := Some "_id"; so_syncStatus := Some "__proto__"; so_serverId := None;
       so_lastSync := None; so_conflictResolution := None |}.

Definition protodb : Model :=
  fst (connect
         (fst (watchChanges proto_manager
                 (fst (prepareSyncSchema proto_manager
                         (new_Model "testdb" syncSchema no_options None)))))).

End Scenario.

(** ** Query matching as the specification words it

    A query maps a field to a literal or to an operator object.  A literal
    clause is an exact-equality test.  An operator object (any value that is
    an object) holds when every one of its entries holds, and only the seven
    operators below have entries that can hold.  A record matches a query
    when every clause holds. *)

Module QuerySpec.
Import ModelOps.
Section WithRuntime.
Context {rt : Runtime}.


Definition is_object (v : value) : bool :=
  match v with
  | VDate _ | VArr _ | VObj _ => true
  | _ => false
  end.




End WithRuntime.
End QuerySpec.

(** ** Notions used to state the properties *)

(** [m'] is [m] with more lines on the console. *)
Definition only_logs (m m' : Model) : Prop :=
  exists logs, m' = with_console m (console m ++ logs).

(** The records of collection [c]. *)
Definition records (m : Model) (c : string) : store :=
  match find_store c (stores_of m) with
  | Some st => st
  | None => []
  end.

(** A computation that leaves the records of every collection as they are,
    and one that never resolves. *)
Definition keeps_records {A : Type} (c : M A) : Prop :=
  forall m coll, records (fst (c m)) coll = records m coll.

Definition never_resolves {A : Type} (c : M A) : Prop :=
  forall m a, snd (c m) <> Resolved a.

(** [m'] differs from [m] at most in the console and in how many
    identifiers and clock readings have been consumed. *)
Definition same_engine (m m' : Model) : Prop :=
  schema m' = schema m /\ primary m' = primary m /\ ctors m' = ctors m /\
  indexedDB m' = indexedDB m /\ activeCollection m' = activeCollection m /\
  db m' = db m /\ watchers m' = watchers m /\ indexes m' = indexes m.

(** The keys [_prepare] keeps: those the schema declares and, the
    definition being read through its prototype, those every object
    inherits; [__proto__], which [_prepare] cannot assign, excepted. *)
Definition kept (m : Model) (k : string) : bool :=
  negb (k =? "__proto__")%string &&
  match lookup_def k (sdefinition (schema m)) with
  | Some _ => true
  | None => inherited k
  end.

(** Every definition object of the schema names a type. *)
Definition schema_typed (m : Model) : Prop :=
  forall f fd, In (f, Def fd) (sdefinition (schema m)) -> fd_type fd <> None.

(** The data holds no object (no array, Date or plain object) in a field
    the schema declares unique: what it holds there is a primitive value,
    or nothing. *)
Definition primitive_in_unique_fields (m : Model) (data : obj) : Prop :=
  forall f d, In (f, d) (sdefinition (schema m)) ->
              ModelOps.def_unique m d = true ->
              QuerySpec.is_object (get data f) = false.

(** A value given explicitly: a boolean, a number or a string. *)
Definition explicit_value (v : value) : bool :=
  match v with
  | VBool _ | VNum (Fin _) | VStr _ => true
  | _ => false
  end.

(** The data as [_validateData] leaves it on create: with a generated
    primary when it came without one. *)
Definition with_primary {rt : Runtime} (m : Model) (o : obj) : obj :=
  if truthy (get o (primary m)) then o
  else set o (primary m) (VStr (generateObjectId (idcount m))).

(** What an update's validation of one field can come to: a list of errors
    none of which is a uniqueness violation, or an exception that is not a
    validation failure. *)
Definition update_outcome (o : outcome (list verror)) : Prop :=
  match o with
  | Resolved es => forall f, ~ In (FieldMustBeUnique f) es
  | Rejected (ValidationFailed _) => False
  | _ => True
  end.

(** A schema whose primary is declared as a Number, without [unique]. *)
Definition numericIdSchema : Schema :=
  {| sdefinition := [("_id", Scenario.field TNumber false false);
                     ("name", Scenario.field TString true false)];
     sindexes := [] |}.

(** ** Notions used to state the further properties *)

(** The records [find] keeps under the query [q]: those on which
    [_matchesQuery] returns [true]. *)
Definition matches {rt : Runtime} (q : value) (r : obj) : bool :=
  match ModelOps._matchesQuery r q with
  | Resolved true => true
  | _ => false
  end.

(** [m'] is [m] up to the connection, the console and the counters: the
    instance is configured as before and every collection holds the records
    it held; if [m] holds a connection, so does [m'], and the database and
    its indexes are the same. *)
Definition steady (m m' : Model) : Prop :=
  activeCollection m' = activeCollection m /\ primary m' = primary m /\
  schema m' = schema m /\ ctors m' = ctors m /\ watchers m' = watchers m /\
  (forall coll, records m' coll = records m coll) /\
  (db m = true ->
   db m' = true /\ indexedDB m' = indexedDB m /\ indexes m' = indexes m).

(** [m'] has the active collection of [m] and, in every other collection,
    the records of [m]. *)
Definition apart (m m' : Model) : Prop :=
  activeCollection m' = activeCollection m /\ primary m' = primary m /\
  forall coll, coll <> activeCollection m -> records m' coll = records m coll.

(** On an engine that holds a connection, [m'] differs from [m] at most in
    the console and the counters. *)
Definition undisturbed (m m' : Model) : Prop := db m = true -> same_engine m m'.

(** On an engine that holds a connection and whose active collection holds
    a record, [m'] differs from [m] at most in the console and the
    counters. *)
Definition settled (m m' : Model) : Prop :=
  db m = true ->
  (exists r st, active_store m = Some (r :: st)) ->
  same_engine m m'.

(** A computation whose final state is related by [R] to the state it
    starts in, whatever that state is. *)
Definition preserves (R : Model -> Model -> Prop) {A : Type} (c : M A) : Prop :=
  forall m, R m (fst (c m)).

(** The state a transaction leaves when its callback returns [st']. *)
Definition committed (m : Model) (st' : store) : Model :=
  with_indexedDB m
    (match indexedDB m with
     | Some (v, d) => Some (v, replace_store (activeCollection m) st' d)
     | None => None
     end).


(** The number [sort] compares a record by: the time value of
    [new Date(r[keyName])] for a key field of type "date", [r[keyName]] as
    a number otherwise. *)
Definition sort_key {rt : Runtime} (keyName : string) (isDate : bool) (r : obj) : num :=
  if isDate then ModelOps.num_of_time (ModelOps.to_date (get r keyName))
  else to_number (get r keyName).

(** [x] is not after [y] in the order asked for. *)
Definition in_order (asc : bool) (x y : num) : Prop :=
  match x, y with
  | Fin a, Fin b => if asc then a <= b else b <= a
  | _, _ => False
  end.

(** The definition [prepareSyncSchema] gives the sync-status field, and the
    object literal it spreads over the schema, before the server id. *)
Definition syncStatus_def : definition :=
  Def {| fd_type := Some TString; fd_required := false; fd_unique := false;
         fd_default := Some (VStr "synced"); fd_validate := None |}.

Definition sync_literal (sm : SyncManager) : list (string * definition) :=
  set_def (set_def (set_def (set_def [] (syncStatusField sm) syncStatus_def)
                            (lastSyncField sm) (Ctor TDate))
                   "_syncErrors" (Ctor TArray))
          "_localUpdatedAt" (Ctor TDate).

(** The body [pushToServer] sends when the changeset is built from the
    records [st]. *)
Definition changes_of (sm : SyncManager) (st : store) : value :=
  VObj [("changes",
         VArr (map (fun item =>
                      VObj [("id", get item (serverIdField sm));
                            ("data", VObj (SyncOps.prepareForSync sm item));
                            ("localId", get item (idField sm))]) st))].

(** The string [s] does not contain the character [c]. *)
Definition without (c : ascii) (s : string) : Prop :=
  ~ In c (list_ascii_of_string s).

(** An engine like [Scenario.users] whose database holds a second
    collection, [orders], with one record. *)
Definition order : obj := [("_id", VStr "o-1"); ("total", VNum (Fin 12))].

Definition shop : Model :=
  with_indexedDB Scenario.users
    (Some (1, [("users", [Scenario.john]); ("orders", [order])])).


(** A server that cannot be reached, and one that sends one item. *)
Definition offline (body : value) : outcome value := Rejected (FetchFailed "Failed to fetch").

Definition one_item (body : value) : outcome value :=
  Resolved (VObj [("items", VArr [VObj [("_id", VStr "a"); ("name", VStr "Anne")]])]).

(** * Properties *)

(** ** Objects *)

Lemma hasOwnProperty_own (o : obj) (k : string) :
  has o "hasOwnProperty" = false -> hasOwnProperty (VObj o) k = Resolved (has o k).
Proof. intro H. simpl. now rewrite H. Qed.

Lemma hasOwnProperty_hidden (o : obj) (k : string) (b : bool) :
  hasOwnProperty (VObj o) k = Resolved b -> has o "hasOwnProperty" = false.
Proof. simpl. destruct (has o "hasOwnProperty"); [discriminate | reflexivity]. Qed.


Lemma strict_equals_null (v : value) :
  strict_equals v VNull = true <-> v = VNull.
Proof.
  destruct v as [| |b|n|s|t|l|l]; try destruct n; simpl; split; intro H;
    try reflexivity; try discriminate.
Qed.

Lemma lookup_set (o : obj) (k k' : string) (v : value) :
  lookup k' (set o k v) = if (k =? k')%string then Some v else lookup k' o.
Proof.
  induction o as [|[k0 v0] o IH]; simpl.
  - reflexivity.
  - destruct (String.eqb_spec k0 k) as [->|Hne]; simpl.
    + destruct (k =? k')%string; reflexivity.
    + destruct (String.eqb_spec k0 k') as [->|Hne'].
      * destruct (String.eqb_spec k k') as [->|_]; [congruence | reflexivity].
      * exact IH.
Qed.

Lemma get_set (o : obj) (k k' : string) (v : value) :
  get (set o k v) k' = if (k =? k')%string then v else get o k'.
Proof.
  unfold get. rewrite lookup_set. destruct (k =? k')%string; reflexivity.
Qed.

Lemma lookup_remove (o : obj) (k k' : string) :
  lookup k' (remove o k) = if (k =? k')%string then None else lookup k' o.
Proof.
  unfold remove. induction o as [|[k0 v0] o IH]; simpl.
  - destruct (k =? k')%string; reflexivity.
  - destruct (String.eqb_spec k0 k) as [->|Hne]; simpl.
    + rewrite IH. destruct (k =? k')%string; reflexivity.
    + rewrite IH. destruct (String.eqb_spec k0 k') as [->|Hne'].
      * destruct (String.eqb_spec k k') as [->|_]; [congruence | reflexivity].
      * reflexivity.
Qed.

Lemma lookup_spread (a b : obj) (k : string) :
  lookup k (spread a b) =
  match lookup k (rev b) with
  | Some v => Some v
  | None => lookup k a
  end.
Proof.
  unfold spread. revert a. induction b as [|[k0 v0] b IH]; intro a; simpl.
  - reflexivity.
  - rewrite IH. clear IH.
    assert (Happ : forall l, lookup k (l ++ [(k0, v0)]) =
                             match lookup k l with
                             | Some v => Some v
                             | None => if (k0 =? k)%string then Some v0 else None
                             end).
    { induction l as [|[k1 v1] l IHl]; simpl.
      - reflexivity.
      - destruct (k1 =? k)%string; [reflexivity | exact IHl]. }
    rewrite Happ, lookup_set.
    destruct (lookup k (rev b)); [reflexivity|].
    destruct (k0 =? k)%string; reflexivity.
Qed.

(** ** Schema: toDocument and toObject *)

Module SchemaFacts.
Import SchemaOps.








End SchemaFacts.

(** ** Query matching *)

Module QueryFacts.
Import ModelOps QuerySpec.
Section WithRuntime.
Context {rt : Runtime}.


Lemma is_object_test (v : value) :
  truthy v && typeof_object v = is_object v.
Proof.
  destruct v as [| |b|n|s|t|l|l]; simpl; try reflexivity.
  - now rewrite andb_false_r.
  - now rewrite andb_false_r.
  - now rewrite andb_false_r.
Qed.





End WithRuntime.
End QueryFacts.

(** ** Casting *)

Module CastFacts.
Import ModelOps.
Section WithRuntime.
Context {rt : Runtime}.

Lemma only_logs_refl (m : Model) : only_logs m m.
Proof.
  exists []. destruct m; unfold with_console; simpl.
  now rewrite app_nil_r.
Qed.

Lemma only_logs_trans (m1 m2 m3 : Model) :
  only_logs m1 m2 -> only_logs m2 m3 -> only_logs m1 m3.
Proof.
  intros [l1 ->] [l2 ->]. exists (l1 ++ l2).
  unfold with_console; simpl. now rewrite app_assoc.
Qed.

Lemma only_logs_log (m : Model) (msg : logmsg) :
  only_logs m (fst (log msg m)).
Proof. exists [msg]. reflexivity. Qed.

Lemma only_logs_fields (m m' : Model) :
  only_logs m m' ->
  schema m' = schema m /\ primary m' = primary m /\ ctors m' = ctors m /\
  indexedDB m' = indexedDB m /\ activeCollection m' = activeCollection m /\
  db m' = db m /\ watchers m' = watchers m /\ indexes m' = indexes m.
Proof. intros [l ->]. repeat split. Qed.

(** [_castValue] always returns, and only writes to the console. *)
Lemma castValue_returns (v : value) (ty : option jstype) (m : Model) :
  exists m' r, _castValue v ty m = (m', Resolved r) /\ only_logs m m'.
Proof.
  assert (Hlogs : forall msg, only_logs m (with_console m (console m ++ [msg])))
    by (intro msg; now exists [msg]).
  unfold _castValue, try_catch.
  destruct ty as [[| | | | | |c]|];
    try (eexists; eexists; split; [reflexivity | apply only_logs_refl]).
  - destruct (convertible v);
      (eexists; eexists; split; [reflexivity|]); [apply only_logs_refl | apply Hlogs].
  - destruct (convertible v);
      (eexists; eexists; split; [reflexivity|]); [apply only_logs_refl | apply Hlogs].
  - destruct (negb (truthy match v with
                            | VDate _ => v
                            | VStr s => match Date_parse s with
                                        | Some _ => VDate (Date_parse s)
                                        | None => VNull
                                        end
                            | _ => VNull
                            end) ||
              match match v with
                    | VDate _ => v
                    | VStr s => match Date_parse s with
                                | Some _ => VDate (Date_parse s)
                                | None => VNull
                                end
                    | _ => VNull
                    end with
              | VDate None => true
              | _ => false
              end).
    + destruct (convertible v);
        (eexists; eexists; split; [reflexivity|]); apply Hlogs.
    + eexists; eexists; split; [reflexivity | apply only_logs_refl].
Qed.

Lemma castValue_untyped (v : value) (m : Model) : _castValue v None m = (m, Resolved v).
Proof. reflexivity. Qed.

Lemma kept_same_schema (m m' : Model) (k : string) :
  schema m' = schema m -> kept m' k = kept m k.
Proof. unfold kept. now intros ->. Qed.

Lemma lookup_assign (o : obj) (k k' : string) (v : value) :
  lookup k' (assign o k v) =
  if (k =? k')%string && negb (k =? "__proto__")%string then Some v else lookup k' o.
Proof.
  unfold assign. destruct (k =? "__proto__")%string; [now rewrite andb_false_r|].
  rewrite lookup_set, andb_true_r. reflexivity.
Qed.

Lemma kept_declared (m : Model) (k : string) (d : definition) :
  lookup_def k (sdefinition (schema m)) = Some d ->
  kept m k = negb (k =? "__proto__")%string.
Proof. intro H. unfold kept. rewrite H. apply andb_true_r. Qed.

Lemma kept_named (m : Model) (k : string) :
  lookup_def k (sdefinition (schema m)) <> None -> k <> "__proto__" -> kept m k = true.
Proof.
  intros Hd Hk. unfold kept.
  destruct (lookup_def k (sdefinition (schema m))); [|contradiction].
  rewrite andb_true_r. now apply negb_true_iff, String.eqb_neq.
Qed.

Lemma kept_undeclared (m : Model) (k : string) :
  lookup_def k (sdefinition (schema m)) = None ->
  kept m k = negb (k =? "__proto__")%string && inherited k.
Proof. intro H. unfold kept. now rewrite H. Qed.

Lemma prepare_entries_returns (entries : obj) :
  forall (acc : obj) (m : Model),
  exists m' prepared,
    _prepare_entries entries acc m = (m', Resolved prepared) /\
    only_logs m m' /\
    (forall k, has prepared k = true ->
               has acc k = true \/ (has entries k = true /\ kept m k = true)) /\
    (forall k, has acc k = true -> has prepared k = true) /\
    (forall k, has entries k = true -> kept m k = true -> has prepared k = true).
Proof.
  induction entries as [|[key v] entries IH]; intros acc m; simpl.
  - exists m, acc. repeat split; try apply only_logs_refl; auto.
    intros k Hk. discriminate.
  - assert (Hstep : forall ty,
               kept m key = negb (key =? "__proto__")%string ->
               exists m' prepared,
                 (c <- _castValue v ty ;; _prepare_entries entries (assign acc key c)) m =
                   (m', Resolved prepared) /\
                 only_logs m m' /\
                 (forall k, has prepared k = true ->
                            has acc k = true \/
                            (has ((key, v) :: entries) k = true /\ kept m k = true)) /\
                 (forall k, has acc k = true -> has prepared k = true) /\
                 (forall k, has ((key, v) :: entries) k = true -> kept m k = true ->
                            has prepared k = true)).
    { intros ty Hkept. unfold bind at 1.
      destruct (castValue_returns v ty m) as [m1 [c [Hc Hl1]]]. rewrite Hc.
      destruct (IH (assign acc key c) m1) as [m2 [p [Hp [Hl2 [Hsub [Hacc Hall]]]]]].
      exists m2, p.
      destruct (only_logs_fields _ _ Hl1) as [Hs _].
      split; [exact Hp|]. split; [eapply only_logs_trans; eassumption|].
      split; [|split].
      - intros k Hk. destruct (Hsub k Hk) as [Hin|[Hin Hdef]].
        + unfold has in Hin. rewrite lookup_assign in Hin.
          destruct (String.eqb_spec key k) as [->|Hne]; simpl in Hin; [|now left].
          destruct (negb (k =? "__proto__")%string) eqn:E; [|now left].
          right. unfold has. simpl. rewrite String.eqb_refl. now split.
        + right. rewrite (kept_same_schema _ _ _ Hs) in Hdef. split; [|exact Hdef].
          unfold has in *. simpl. destruct (key =? k)%string; [reflexivity | exact Hin].
      - intros k Hk. apply Hacc. unfold has in *. rewrite lookup_assign.
        destruct ((key =? k)%string && negb (key =? "__proto__")%string);
          [reflexivity | exact Hk].
      - intros k Hk Hdef. unfold has in Hk. simpl in Hk.
        destruct (String.eqb_spec key k) as [->|Hne].
        + apply Hacc. unfold has. rewrite lookup_assign, String.eqb_refl. simpl.
          rewrite <- Hkept, Hdef. reflexivity.
        + apply Hall; [exact Hk | now rewrite (kept_same_schema _ _ _ Hs)]. }
    unfold bind at 1. unfold gets at 1. simpl.
    destruct (lookup_def key (sdefinition (schema m))) as [d|] eqn:Hd.
    + unfold bind at 1. unfold gets at 1. simpl.
      apply Hstep. now apply (kept_declared m key d).
    + pose proof (kept_undeclared m key Hd) as Hkept.
      destruct (inherited key) eqn:Hi.
      * apply Hstep. now rewrite Hkept, andb_true_r.
      * rewrite andb_false_r in Hkept.
        destruct (IH acc m) as [m2 [p [Hp [Hl2 [Hsub [Hacc Hall]]]]]].
        exists m2, p. repeat split; try assumption.
        -- intros k Hk. destruct (Hsub k Hk) as [Hin|[Hin Hdef]]; [now left|].
           right. split; [|exact Hdef].
           unfold has in *. simpl. destruct (key =? k)%string; [reflexivity | exact Hin].
        -- intros k Hk Hdef. unfold has in Hk. simpl in Hk.
           destruct (String.eqb_spec key k) as [->|Hne]; [congruence|].
           now apply Hall.
Qed.


End WithRuntime.


End CastFacts.

(** ** The constructor *)

Module ConstructorFacts.
Import ModelOps.

Lemma lookup_def_set_def (l : list (string * definition)) (k k' : string)
    (d : definition) :
  lookup_def k' (set_def l k d) =
  if (k =? k')%string then Some d else lookup_def k' l.
Proof.
  induction l as [|[k0 d0] l IH]; simpl.
  - reflexivity.
  - destruct (String.eqb_spec k0 k) as [->|Hne]; simpl.
    + destruct (k =? k')%string; reflexivity.
    + destruct (String.eqb_spec k0 k') as [->|Hne'].
      * destruct (String.eqb_spec k k') as [->|_]; [congruence | reflexivity].
      * exact IH.
Qed.

(** After construction the primary is always declared, with type String. *)
Lemma new_Model_primary_String (nm : string) (s : Schema) (options : Options)
    (existing : option (Z * database)) :
  let m := new_Model nm s options existing in
  exists d, lookup_def (primary m) (sdefinition (schema m)) = Some d /\
            def_type m d = Some TString.
Proof.
  unfold new_Model, adjust_primary. simpl.
  set (prim := primary_of options).
  destruct (lookup_def prim (sdefinition s)) as [[fd|t]|] eqn:Hd; simpl.
  - destruct (is_String (fd_type fd)) eqn:Hs; simpl.
    + destruct (fd_unique fd) eqn:Hu; simpl.
      * exists (Def fd). split; [exact Hd|].
        simpl. destruct (fd_type fd) as [[| | | | | |c]|]; try discriminate. reflexivity.
      * eexists. rewrite lookup_def_set_def, String.eqb_refl. split; [reflexivity|].
        simpl. destruct (fd_type fd) as [[| | | | | |c]|]; try discriminate. reflexivity.
    + eexists. rewrite lookup_def_set_def, String.eqb_refl. split; reflexivity.
  - exists (Ctor t). split; [exact Hd|].
    simpl. unfold set_ctor.
    destruct t; simpl; try reflexivity. now rewrite String.eqb_refl.
  - eexists. rewrite lookup_def_set_def, String.eqb_refl. split; reflexivity.
Qed.

(** The primary is unique after construction when it was absent from the
    schema, or declared by a definition object with type String. *)
Lemma new_Model_primary_unique (nm : string) (s : Schema) (options : Options)
    (existing : option (Z * database)) :
  let m := new_Model nm s options existing in
  match lookup_def (primary m) (sdefinition s) with
  | None => True
  | Some (Def fd) => fd_type fd = Some TString
  | Some (Ctor _) => False
  end ->
  exists d, lookup_def (primary m) (sdefinition (schema m)) = Some d /\
            def_unique m d = true.
Proof.
  unfold new_Model, adjust_primary. simpl.
  set (prim := primary_of options).
  destruct (lookup_def prim (sdefinition s)) as [[fd|t]|] eqn:Hd; simpl.
  - intro Ht. rewrite Ht. simpl.
    destruct (fd_unique fd) eqn:Hu; simpl.
    + exists (Def fd). split; assumption.
    + eexists. rewrite lookup_def_set_def, String.eqb_refl. split; reflexivity.
  - intros [].
  - intros _. eexists. rewrite lookup_def_set_def, String.eqb_refl. split; reflexivity.
Qed.

(** C9.  The constructor on a schema that declares the primary [_id] with
    type Number and no [unique]: the type is rewritten to String and the
    warning is logged, but the second branch of the [if]/[else if] chain
    having been taken, the third is not: the primary's definition is left
    without a unique constraint. *)
Theorem constructor_leaves_primary_not_unique :
  let m := new_Model "users" numericIdSchema Scenario.no_options None in
  lookup_def (primary m) (sdefinition (schema m)) =
    Some (Def {| fd_type := Some TString; fd_required := false;
                 fd_unique := false; fd_default := None; fd_validate := None |}) /\
  console m = [WarnPrimaryConverted "_id"] /\
  (forall d, lookup_def (primary m) (sdefinition (schema m)) = Some d ->
             def_unique m d = false).
Proof.
  repeat split. intros d Hd. simpl in Hd. injection Hd as <-. reflexivity.
Qed.

End ConstructorFacts.

(** ** delete *)

Module DeleteFacts.
Import ModelOps.
Section WithRuntime.
Context {rt : Runtime}.

Lemma replace_store_same (n : string) (st : store) (d : database) :
  find_store n d = Some st -> replace_store n st d = d.
Proof.
  induction d as [|[n' st'] d IH]; simpl.
  - reflexivity.
  - destruct (n' =? n)%string.
    + intro H. injection H as ->. reflexivity.
    + intro H. now rewrite IH.
Qed.

Lemma find_store_replace (n : string) (st st' : store) (d : database) :
  find_store n d = Some st -> find_store n (replace_store n st' d) = Some st'.
Proof.
  induction d as [|[n' st0] d IH]; simpl.
  - discriminate.
  - destruct (n' =? n)%string eqn:E; simpl; rewrite E.
    + reflexivity.
    + exact IH.
Qed.

Lemma filter_absent_key (keyPath k : string) (st : store) :
  List.find (has_key keyPath k) st = None ->
  filter (fun r => negb (has_key keyPath k r)) st = st.
Proof.
  induction st as [|r st IH]; simpl.
  - reflexivity.
  - destruct (has_key keyPath k r); simpl.
    + discriminate.
    + intro H. now rewrite IH.
Qed.

(** C10.  On a connected engine whose active collection exists, [delete] of
    any id that is a valid key resolves with that id, whether or not the
    collection holds a record under it (no "not found" is raised); and when
    it holds none, the object stores are afterwards what they were. *)
Theorem delete_missing_resolves (m : Model) (st : store) (id : value) :
  db m = true ->
  active_store m = Some st ->
  valid_key id = true ->
  snd (delete id m) = Resolved id /\
  (store_get (primary m) st id = Resolved None ->
   stores_of (fst (delete id m)) = stores_of m /\
   active_store (fst (delete id m)) = Some st).
Proof.
  intros Hdb Hst Hvalid.
  unfold delete, _executeTransaction, bind, gets, lift, ret. simpl.
  rewrite Hdb, Hst. unfold store_delete. rewrite Hvalid.
  split.
  - destruct id; reflexivity.
  - intro Hget. unfold store_get in Hget. rewrite Hvalid in Hget.
    assert (Hsame : match id with
                    | VStr k =>
                        Resolved (filter (fun r => negb (has_key (primary m) k r)) st)
                    | _ => Resolved st
                    end = Resolved st).
    { destruct id; try reflexivity.
      injection Hget as Hget. now rewrite filter_absent_key. }
    rewrite Hsame. simpl.
    unfold active_store, stores_of in *. simpl.
    destruct (indexedDB m) as [[v d]|]; [|discriminate].
    rewrite (replace_store_same _ _ _ Hst). split; [reflexivity | exact Hst].
Qed.

End WithRuntime.

Lemma delete_missing_resolves_witness :
  db Scenario.users = true /\
  active_store Scenario.users = Some [Scenario.john] /\
  valid_key (VStr "000000000000000000000000") = true /\
  store_get (primary Scenario.users) [Scenario.john]
            (VStr "000000000000000000000000") = Resolved None /\
  snd (delete (VStr "000000000000000000000000") Scenario.users) =
    Resolved (VStr "000000000000000000000000") /\
  stores_of (fst (delete (VStr "000000000000000000000000") Scenario.users)) =
    stores_of Scenario.users.
Proof.
  assert (H1 : db Scenario.users = true) by reflexivity.
  assert (H2 : active_store Scenario.users = Some [Scenario.john]) by reflexivity.
  assert (H3 : valid_key (VStr "000000000000000000000000") = true) by reflexivity.
  assert (H4 : store_get (primary Scenario.users) [Scenario.john]
                 (VStr "000000000000000000000000") = Resolved None) by reflexivity.
  pose proof (delete_missing_resolves Scenario.users [Scenario.john]
                (VStr "000000000000000000000000") H1 H2 H3) as [Hres Hsame].
  exact (conj H1 (conj H2 (conj H3 (conj H4 (conj Hres (proj1 (Hsame H4))))))).
Defined.

End DeleteFacts.

(** ** Validation of an update, and update

    An update validates without touching the state: the uniqueness probe,
    the one check that reads the store, is skipped. *)

Module MonadFacts.
Import ModelOps.
Section WithRuntime.
Context {rt : Runtime}.

(** A computation that leaves the state as it is. *)
Lemma stateless_bind {A B : Type} (c : M A) (k : A -> M B) (m : Model) :
  fst (c m) = m -> (forall a, fst (k a m) = m) -> fst (bind c k m) = m.
Proof.
  intros Hc Hk. unfold bind. destruct (c m) as [m' [a|e|]] eqn:E; simpl in *; subst.
  - apply Hk.
  - reflexivity.
  - reflexivity.
Qed.

Lemma bind_resolved {A B : Type} (c : M A) (k : A -> M B) (m m' : Model) (b : B) :
  bind c k m = (m', Resolved b) ->
  exists m1 a, c m = (m1, Resolved a) /\ k a m1 = (m', Resolved b).
Proof.
  unfold bind. destruct (c m) as [m1 [a|e|]]; try discriminate.
  intro H. now exists m1, a.
Qed.

Lemma with_indexedDB_same (m : Model) : with_indexedDB m (indexedDB m) = m.
Proof. destruct m; reflexivity. Qed.

Lemma validate_field_update_stateless (data : value) (entry : string * definition)
    (m : Model) :
  fst (validate_field data OpUpdate entry m) = m.
Proof.
  destruct entry as [field d]. unfold validate_field.
  apply stateless_bind.
  { destruct (def_required d); [|reflexivity].
    apply stateless_bind; [reflexivity | intros h; reflexivity]. }
  intros e1. apply stateless_bind; [reflexivity|].
  intros unique. rewrite andb_false_r.
  apply stateless_bind; [reflexivity|].
  intros e2. apply stateless_bind; [reflexivity|].
  intros h. apply stateless_bind; [reflexivity|].
  intros v. apply stateless_bind; [|intros e3; reflexivity].
  destruct (h && negb (strict_equals v VNull)); [|reflexivity].
  apply stateless_bind; [reflexivity|].
  intros type. apply stateless_bind; [reflexivity | intros ok; reflexivity].
Qed.

Lemma validate_fields_update_stateless (data : value)
    (entries : list (string * definition)) :
  forall (errors : list verror) (m : Model),
    fst (validate_fields data OpUpdate entries errors m) = m.
Proof.
  induction entries as [|entry entries IH]; intros errors m; simpl.
  - reflexivity.
  - apply stateless_bind; [apply validate_field_update_stateless|].
    intros es. apply IH.
Qed.

Lemma validateData_update_stateless (data id : value) (m : Model) :
  fst (_validateData data OpUpdate id m) = m.
Proof.
  unfold _validateData.
  apply stateless_bind.
  - destruct (truthy id); reflexivity.
  - intros d. apply stateless_bind; [reflexivity|].
    intros entries. apply stateless_bind; [apply validate_fields_update_stateless|].
    intros [|e es]; reflexivity.
Qed.

End WithRuntime.
End MonadFacts.

Module UpdateFacts.
Import ModelOps MonadFacts CastFacts DeleteFacts.
Section WithRuntime.
Context {rt : Runtime}.

Lemma lookup_none_iff (k : string) (o : obj) :
  lookup k o = None <-> ~ In k (map fst o).
Proof.
  induction o as [|[k0 v0] o IH]; simpl.
  - tauto.
  - destruct (String.eqb_spec k0 k) as [->|Hne].
    + split; [discriminate | tauto].
    + rewrite IH. tauto.
Qed.



Lemma keys_set (o : obj) (k : string) (v : value) :
  map fst (set o k v) = if has o k then map fst o else map fst o ++ [k].
Proof.
  unfold has. induction o as [|[k0 v0] o IH]; simpl.
  - reflexivity.
  - destruct (String.eqb_spec k0 k) as [->|Hne]; simpl.
    + reflexivity.
    + rewrite IH. destruct (lookup k o); reflexivity.
Qed.

Lemma nodup_set (o : obj) (k : string) (v : value) :
  NoDup (map fst o) -> NoDup (map fst (set o k v)).
Proof.
  intro Hnd. rewrite keys_set. unfold has.
  destruct (lookup k o) eqn:Hk; [exact Hnd|].
  apply lookup_none_iff in Hk.
  apply NoDup_app; [exact Hnd | repeat constructor; intros [] | ].
  intros x Hx [<-|[]]. contradiction.
Qed.


(** What [_castValue] returns does not depend on the state. *)
Lemma castValue_result (v : value) (ty : option jstype) (m m' : Model) :
  snd (_castValue v ty m) = snd (_castValue v ty m').
Proof.
  unfold _castValue, try_catch.
  destruct ty as [[| | | | | |c]|]; try reflexivity.
  - destruct (convertible v); reflexivity.
  - destruct (convertible v); reflexivity.
  - match goal with |- context [if ?c then bind _ _ else _] => destruct c end;
      [destruct (convertible v) |]; reflexivity.
Qed.

Lemma nodup_assign (o : obj) (k : string) (v : value) :
  NoDup (map fst o) -> NoDup (map fst (assign o k v)).
Proof.
  intro H. unfold assign. destruct (k =? "__proto__")%string; [exact H|].
  now apply nodup_set.
Qed.

Lemma lookup_assign_other (o : obj) (k k' : string) (v : value) :
  k <> k' -> lookup k' (assign o k v) = lookup k' o.
Proof.
  intro Hne. rewrite lookup_assign.
  destruct (String.eqb_spec k k'); [contradiction | reflexivity].
Qed.

Lemma prepare_entries_values (entries : obj) :
  forall (acc : obj) (m m' : Model) (prepared : obj),
    NoDup (map fst entries) ->
    NoDup (map fst acc) ->
    _prepare_entries entries acc m = (m', Resolved prepared) ->
    NoDup (map fst prepared) /\
    (forall k, lookup k entries = None -> lookup k prepared = lookup k acc) /\
    (forall k v, lookup k entries = Some v ->
                 lookup_def k (sdefinition (schema m)) = None ->
                 lookup k prepared = if kept m k then Some v else lookup k acc) /\
    (forall k v d, lookup k entries = Some v ->
                   lookup_def k (sdefinition (schema m)) = Some d ->
                   exists c, snd (_castValue v (def_type m d) m) = Resolved c /\
                             lookup k prepared =
                             if kept m k then Some c else lookup k acc).
Proof.
  induction entries as [|[key v] entries IH]; intros acc m m' prepared Hnd Hacc Hrun;
    simpl in Hrun.
  - injection Hrun as <- <-. repeat split; try assumption; try reflexivity;
      intros; discriminate.
  - inversion Hnd as [|? ? Hnotin Hnd']; subst.
    apply lookup_none_iff in Hnotin.
    unfold bind at 1 in Hrun. unfold gets at 1 in Hrun. simpl in Hrun.
    destruct (lookup_def key (sdefinition (schema m))) as [d|] eqn:Hd.
    + unfold bind at 1 in Hrun. unfold gets at 1 in Hrun. simpl in Hrun.
      unfold bind at 1 in Hrun.
      destruct (castValue_returns v (def_type m d) m) as [m1 [c [Hc Hl1]]].
      rewrite Hc in Hrun.
      destruct (only_logs_fields _ _ Hl1) as [Hs [_ [Hct _]]].
      destruct (IH (assign acc key c) m1 m' prepared Hnd' (nodup_assign _ _ _ Hacc) Hrun)
        as [Hp [Hnone [Hundecl Hdecl]]].
      repeat split.
      * exact Hp.
      * intros k Hk. simpl in Hk.
        destruct (String.eqb_spec key k) as [->|Hne]; [discriminate|].
        now rewrite (Hnone k Hk), lookup_assign_other.
      * intros k w Hk Hund. simpl in Hk.
        destruct (String.eqb_spec key k) as [->|Hne]; [congruence|].
        rewrite Hs in Hundecl. rewrite (Hundecl k w Hk Hund), lookup_assign_other by exact Hne.
        now rewrite (kept_same_schema m m1 k Hs).
      * intros k w d' Hk Hd'. simpl in Hk.
        destruct (String.eqb_spec key k) as [->|Hne].
        -- injection Hk as <-. rewrite Hd in Hd'. injection Hd' as <-.
           exists c. split; [now rewrite Hc|].
           rewrite (Hnone k Hnotin), lookup_assign, String.eqb_refl.
           now rewrite (kept_declared m k d Hd).
        -- rewrite Hs in Hdecl.
           destruct (Hdecl k w d' Hk Hd') as [c' [Hc' Hl]].
           exists c'. split.
           ++ rewrite <- Hc'. unfold def_type. destruct d'; [apply castValue_result|].
              rewrite Hct. apply castValue_result.
           ++ rewrite Hl, lookup_assign_other by exact Hne.
              now rewrite (kept_same_schema m m1 k Hs).
    + pose proof (kept_undeclared m key Hd) as Hkept.
      destruct (inherited key) eqn:Hi.
      * rewrite andb_true_r in Hkept.
        unfold bind at 1 in Hrun. rewrite castValue_untyped in Hrun.
        destruct (IH _ m m' prepared Hnd' (nodup_assign _ key v Hacc) Hrun)
          as [Hp [Hnone [Hundecl Hdecl]]].
        repeat split.
        -- exact Hp.
        -- intros k Hk. simpl in Hk.
           destruct (String.eqb_spec key k) as [->|Hne]; [discriminate|].
           now rewrite (Hnone k Hk), lookup_assign_other.
        -- intros k w Hk Hund. simpl in Hk.
           destruct (String.eqb_spec key k) as [->|Hne].
           ++ injection Hk as <-.
              now rewrite (Hnone k Hnotin), lookup_assign, String.eqb_refl, Hkept.
           ++ now rewrite (Hundecl k w Hk Hund), lookup_assign_other.
        -- intros k w d' Hk Hd'. simpl in Hk.
           destruct (String.eqb_spec key k) as [->|Hne]; [congruence|].
           destruct (Hdecl k w d' Hk Hd') as [c' [Hc' Hl]].
           exists c'. split; [exact Hc'|].
           now rewrite Hl, lookup_assign_other.
      * rewrite andb_false_r in Hkept.
        destruct (IH acc m m' prepared Hnd' Hacc Hrun) as [Hp [Hnone [Hundecl Hdecl]]].
        repeat split.
        -- exact Hp.
        -- intros k Hk. simpl in Hk.
           destruct (String.eqb_spec key k) as [->|Hne]; [discriminate|].
           now apply Hnone.
        -- intros k w Hk Hund. simpl in Hk.
           destruct (String.eqb_spec key k) as [->|Hne].
           ++ rewrite Hkept. now apply Hnone.
           ++ now apply (Hundecl k w).
        -- intros k w d' Hk Hd'. simpl in Hk.
           destruct (String.eqb_spec key k) as [->|Hne]; [congruence|].
           now apply (Hdecl k w d').
Qed.

(** A value that is valid for the type of its field is cast to itself. *)
Lemma cast_valid_identity (v : value) (d : definition) (m : Model) :
  _isValidType v (validation_type m d) = Resolved true ->
  snd (_castValue v (def_type m d) m) = Resolved v.
Proof.
  unfold _castValue, try_catch.
  destruct d as [fd|t]; simpl.
  - destruct (fd_type fd) as [[| | | | | |c]|]; simpl; try discriminate;
      destruct v as [| |b|n|s|[t|]|l|l]; try destruct n; simpl;
      intro H; try discriminate; try reflexivity.
  - destruct (cp_type (ctors m t)) as [[| | | | | |c]|]; simpl; try reflexivity;
      destruct v as [| |b|n|s|[t'|]|l|l]; try destruct n; simpl;
      intro H; try discriminate; try reflexivity.
Qed.

Lemma app_nil_both {A : Type} (l1 l2 : list A) : l1 ++ l2 = [] -> l1 = [] /\ l2 = [].
Proof. destruct l1; [tauto | discriminate]. Qed.



Lemma executeTransaction_connected {A : Type} (callback : store -> M (store * A))
    (m : Model) (st : store) :
  db m = true ->
  active_store m = Some st ->
  _executeTransaction callback m =
  match callback st m with
  | (m', Resolved (st', a)) =>
      (with_indexedDB m'
         (match indexedDB m' with
          | Some (v, d) => Some (v, replace_store (activeCollection m') st' d)
          | None => None
          end),
       Resolved a)
  | (m', Rejected e) => (m', Rejected e)
  | (m', Pending) => (m', Pending)
  end.
Proof.
  intros Hdb Hst. unfold _executeTransaction, bind. rewrite Hdb, Hst. reflexivity.
Qed.

Lemma has_key_of (keyPath k : string) (r : obj) :
  has_key keyPath k r = true <-> key_of keyPath r = Some k.
Proof.
  unfold has_key. destruct (key_of keyPath r) as [k'|].
  - rewrite String.eqb_eq. split; congruence.
  - split; discriminate.
Qed.

Lemma find_insert_same (keyPath k : string) (r : obj) (st : store) :
  key_of keyPath r = Some k ->
  List.find (has_key keyPath k) (store_insert keyPath k r st) = Some r.
Proof.
  intro Hk. pose proof (proj2 (has_key_of keyPath k r) Hk) as Hr.
  induction st as [|r' st IH]; simpl.
  - now rewrite Hr.
  - destruct (key_of keyPath r') as [k'|] eqn:Hk'.
    + destruct (String.eqb_spec k' k) as [->|Hne]; simpl.
      * now rewrite Hr.
      * destruct (String.ltb k k'); simpl.
        -- now rewrite Hr.
        -- unfold has_key at 1. rewrite Hk'.
           destruct (String.eqb_spec k' k); [contradiction | exact IH].
    + simpl. unfold has_key at 1. rewrite Hk'. exact IH.
Qed.

Lemma find_insert_other (keyPath k k' : string) (r : obj) (st : store) :
  key_of keyPath r = Some k ->
  k' <> k ->
  List.find (has_key keyPath k') (store_insert keyPath k r st) =
  List.find (has_key keyPath k') st.
Proof.
  intros Hk Hne.
  assert (Hr : has_key keyPath k' r = false).
  { unfold has_key. rewrite Hk. apply String.eqb_neq. congruence. }
  induction st as [|r' st IH]; simpl.
  - now rewrite Hr.
  - destruct (key_of keyPath r') as [k0|] eqn:Hk0.
    + destruct (String.eqb_spec k0 k) as [->|Hne0]; simpl.
      * rewrite Hr. unfold has_key at 2. rewrite Hk0.
        destruct (String.eqb_spec k k'); [congruence | reflexivity].
      * destruct (String.ltb k k0); simpl.
        -- now rewrite Hr.
        -- now rewrite IH.
    + simpl. now rewrite IH.
Qed.


End WithRuntime.



(** A field of the patch that is named like a property every object
    inherits meets the test of [_prepare], although the schema does not
    declare it, and is merged. *)
Lemma update_merges_inherited_name :
  exists merged,
    snd (update (rt := Scenario.runtime)
           (VObj [("name", VStr "X"); ("age", VNum (Fin 31));
                  ("constructor", VStr "c"); ("__proto__", VStr "p")])
           (VStr "674fa6419b342e316cbe59da") Scenario.users) = Resolved merged /\
    get merged "constructor" = VStr "c" /\
    has merged "__proto__" = false.
Proof. eexists. repeat split. Qed.

(** On an engine whose store has a unique index, an update that would give
    a record the indexed value of another record is rejected by the store,
    and nothing is written; an update that keeps the values apart resolves. *)
Lemma update_rejected_by_unique_index :
  let taken := update (rt := Scenario.runtime)
                 (VObj [("email", VStr "ann@example.com")]) (VStr "b")
                 Scenario.members in
  let free := update (rt := Scenario.runtime)
                (VObj [("email", VStr "bobby@example.com")]) (VStr "b")
                Scenario.members in
  active_indexes Scenario.members = [{| ix_keyPath := "email"; ix_unique := true |}] /\
  snd taken = Rejected ConstraintError /\
  stores_of (fst taken) = stores_of Scenario.members /\
  snd free = Resolved [("_id", VStr "b"); ("email", VStr "bobby@example.com")].
Proof. repeat split. Qed.

End UpdateFacts.

(** ** Synchronisation *)

Module SyncFacts.
Import ModelOps SyncOps MonadFacts CastFacts DeleteFacts UpdateFacts.
Section WithRuntime.
Context {rt : Runtime}.

Lemma keeps_ret {A : Type} (a : A) : keeps_records (ret a).
Proof. intros m c. reflexivity. Qed.

Lemma keeps_lift {A : Type} (o : outcome A) : keeps_records (lift o).
Proof. intros m c. reflexivity. Qed.

Lemma keeps_throw {A : Type} (e : error) : keeps_records (@throw A e).
Proof. intros m c. reflexivity. Qed.

Lemma keeps_gets {A : Type} (f : Model -> A) : keeps_records (gets f).
Proof. intros m c. reflexivity. Qed.

Lemma keeps_log (msg : logmsg) : keeps_records (log msg).
Proof. intros m c. reflexivity. Qed.

Lemma keeps_now : keeps_records now.
Proof. intros m c. reflexivity. Qed.

Lemma keeps_generateId : keeps_records generateId.
Proof. intros m c. reflexivity. Qed.

Lemma keeps_bind {A B : Type} (c : M A) (k : A -> M B) :
  keeps_records c -> (forall a, keeps_records (k a)) -> keeps_records (bind c k).
Proof.
  intros Hc Hk m coll. unfold bind.
  specialize (Hc m coll).
  destruct (c m) as [m' [a|e|]]; simpl in *; try exact Hc.
  rewrite (Hk a m' coll). exact Hc.
Qed.

Lemma keeps_try_catch {A : Type} (c : M A) (h : error -> M A) :
  keeps_records c -> (forall e, keeps_records (h e)) -> keeps_records (try_catch c h).
Proof.
  intros Hc Hh m coll. unfold try_catch.
  specialize (Hc m coll).
  destruct (c m) as [m' [a|e|]]; simpl in *; try exact Hc.
  rewrite (Hh e m' coll). exact Hc.
Qed.

Lemma keeps_in_handler {A : Type} (c : M A) :
  keeps_records c -> keeps_records (in_handler c).
Proof.
  intros Hc m coll. unfold in_handler.
  specialize (Hc m coll).
  destruct (c m) as [m' [a|e|]]; simpl in *; exact Hc.
Qed.

Lemma never_bind_left {A B : Type} (c : M A) (k : A -> M B) :
  never_resolves c -> never_resolves (bind c k).
Proof.
  intros Hc m b. unfold bind. specialize (Hc m).
  destruct (c m) as [m' [a|e|]]; simpl in *; try discriminate.
  exfalso. now apply (Hc a).
Qed.

Lemma never_bind_right {A B : Type} (c : M A) (k : A -> M B) :
  (forall a, never_resolves (k a)) -> never_resolves (bind c k).
Proof.
  intros Hk m b. unfold bind.
  destruct (c m) as [m' [a|e|]]; simpl; try discriminate.
  apply Hk.
Qed.

(** *** connect creates stores and touches no record *)

Lemma find_store_absent (n : string) (d : database) :
  contains_store n d = false -> find_store n d = None.
Proof.
  unfold contains_store. induction d as [|[n' st] d IH]; simpl.
  - reflexivity.
  - destruct (n' =? n)%string; simpl; [discriminate | exact IH].
Qed.

Lemma records_createObjectStore (n : string) (d : database) (c : string) :
  contains_store n d = false ->
  match find_store c (createObjectStore n d) with Some st => st | None => [] end =
  match find_store c d with Some st => st | None => [] end.
Proof.
  induction d as [|[n' st] d IH]; simpl; intro Hc.
  - destruct (n =? c)%string; reflexivity.
  - apply orb_false_iff in Hc. destruct Hc as [Hn' Hd].
    destruct (String.ltb n n'); simpl.
    + destruct (String.eqb_spec n c) as [->|Hne]; [|reflexivity].
      rewrite Hn'. now rewrite (find_store_absent _ _ Hd).
    + destruct (n' =? c)%string; [reflexivity | now apply IH].
Qed.

Lemma records_ensure_store (n : string) (d : database) (c : string) :
  match find_store c (ensure_store n d) with Some st => st | None => [] end =
  match find_store c d with Some st => st | None => [] end.
Proof.
  unfold ensure_store. destruct (contains_store n d) eqn:Hc; [reflexivity|].
  now apply records_createObjectStore.
Qed.

Lemma records_upgrade (m : Model) (d : database) (c : string) :
  match find_store c (upgrade m d) with Some st => st | None => [] end =
  match find_store c d with Some st => st | None => [] end.
Proof.
  unfold upgrade. destruct (collections m) as [|c0 cs]; [apply records_ensure_store|].
  generalize (c0 :: cs). intro l. revert d.
  induction l as [|n l IH]; intro d; simpl; [reflexivity|].
  rewrite IH. apply records_ensure_store.
Qed.

Lemma keeps_connect : keeps_records connect.
Proof.
  intros m c. unfold connect, records, stores_of.
  destruct (indexedDB m) as [[ev d]|] eqn:Hi.
  - destruct (syncVersion m (version m) <=? 0); simpl; [now rewrite Hi|].
    destruct (ev <? syncVersion m (version m)); [apply records_upgrade | reflexivity].
  - destruct (syncVersion m (version m) <=? 0); simpl; [now rewrite Hi|].
    destruct (0 <? syncVersion m (version m)); [apply records_upgrade | reflexivity].
Qed.

(** A transaction whose callback leaves the state alone and either fails or
    hands back the store it was given leaves all records as they are. *)
Lemma keeps_executeTransaction {A : Type} (callback : store -> M (store * A)) :
  (forall st m, fst (callback st m) = m) ->
  (forall st m st' a, snd (callback st m) = Resolved (st', a) -> st' = st) ->
  keeps_records (_executeTransaction callback).
Proof.
  intros Hk Hsame. unfold _executeTransaction.
  apply keeps_bind.
  - intros m c. destruct (db m); [reflexivity | apply keeps_connect].
  - intros _ m c.
    destruct (active_store m) as [st|] eqn:Hst; [|reflexivity].
    specialize (Hk st m). specialize (Hsame st m).
    destruct (callback st m) as [m' [[st' a]|e|]]; simpl in *; subst;
      try reflexivity.
    rewrite (Hsame st' a eq_refl).
    unfold records, active_store, stores_of in *. simpl.
    destruct (indexedDB m) as [[v d]|]; [|reflexivity].
    now rewrite (replace_store_same _ _ _ Hst).
Qed.

Lemma never_executeTransaction {A : Type} (callback : store -> M (store * A)) :
  (forall st, never_resolves (callback st)) ->
  never_resolves (_executeTransaction callback).
Proof.
  intros Hk. unfold _executeTransaction.
  apply never_bind_right. intros _ m a.
  destruct (active_store m) as [st|]; [|discriminate].
  specialize (Hk st m).
  destruct (callback st m) as [m' [[st' b]|e|]]; simpl in *; try discriminate.
  exfalso. now apply (Hk (st', b)).
Qed.

Lemma keeps_find (arg : value) : keeps_records (find arg).
Proof.
  unfold find.
  apply keeps_bind; [apply keeps_lift | intros q].
  apply keeps_bind; [apply keeps_lift | intros f].
  apply keeps_executeTransaction.
  - reflexivity.
  - intros st m st' a. unfold lift. simpl.
    destruct (scan _ _ st); try discriminate.
    intro H. now injection H as <- _.
Qed.

Lemma keeps_validateData_update (data id : value) :
  keeps_records (_validateData data OpUpdate id).
Proof.
  intros m c. now rewrite validateData_update_stateless.
Qed.

(** *** update with an object in the place of the id

    Every call of [update] made by the SyncManager, directly or through the
    wrapper of [watchChanges], passes the identifier first and an object of
    fields second, while [update(data, id)] takes them the other way round.
    The object then stands for the id: [store.get] refuses it as a key, or
    the call has failed before; no record is written and the call never
    resolves. *)

Lemma keeps_bind_ret {A B : Type} (a : A) (k : A -> M B) :
  keeps_records (k a) -> keeps_records (bind (ret a) k).
Proof. intros H m c. exact (H m c). Qed.

Lemma never_bind_ret {A B : Type} (a : A) (k : A -> M B) :
  never_resolves (k a) -> never_resolves (bind (ret a) k).
Proof. intros H m b. exact (H m b). Qed.

Lemma update_object_id (data : value) (o : obj) :
  keeps_records (update data (VObj o)) /\ never_resolves (update data (VObj o)).
Proof.
  unfold update. simpl truthy. cbv iota. split.
  - apply keeps_bind; [apply keeps_gets | intros prim].
    apply keeps_bind_ret.
    apply keeps_bind; [apply keeps_lift | intros data1].
    apply keeps_bind; [apply keeps_validateData_update | intros _].
    apply keeps_executeTransaction.
    + intros st m. reflexivity.
    + intros st m st' a. discriminate.
  - apply never_bind_right. intros prim.
    apply never_bind_ret.
    apply never_bind_right. intros data1.
    apply never_bind_right. intros _.
    apply never_executeTransaction. intros st m a. discriminate.
Qed.

Lemma wrapped_update_object (ws : list string) :
  forall (a : value) (o : obj),
    keeps_records (wrapped_update ws a (VObj o)) /\
    never_resolves (wrapped_update ws a (VObj o)).
Proof.
  induction ws as [|w ws IH]; intros a o; simpl.
  - apply update_object_id.
  - split.
    + apply keeps_bind; [apply keeps_now | intros t]. apply IH.
    + apply never_bind_right. intros t. apply IH.
Qed.

Lemma call_update_object (a : value) (o : obj) :
  keeps_records (call_update a (VObj o)) /\ never_resolves (call_update a (VObj o)).
Proof.
  unfold call_update. split.
  - apply keeps_bind; [apply keeps_gets | intros ws]. apply wrapped_update_object.
  - apply never_bind_right. intros ws. apply wrapped_update_object.
Qed.

(** *** handleConflict *)

Lemma keeps_resolve_conflict (sm : SyncManager) (localItem serverItem item : value) :
  keeps_records (resolve_conflict sm localItem serverItem item).
Proof.
  unfold resolve_conflict.
  destruct (conflictResolution sm =? "server-wins")%string.
  { apply keeps_bind; [apply keeps_lift | intros id].
    apply keeps_bind; [apply keeps_lift | intros sid].
    apply keeps_bind; [apply keeps_now | intros t].
    apply keeps_bind; [apply call_update_object | intros r]. apply keeps_ret. }
  destruct (conflictResolution sm =? "client-wins")%string.
  { apply keeps_bind; [apply keeps_lift | intros status].
    destruct (negb (strict_equals status (VStr "modified"))); [|apply keeps_ret].
    apply keeps_bind; [apply keeps_lift | intros id].
    apply keeps_bind; [apply keeps_lift | intros sid].
    apply keeps_bind; [apply keeps_now | intros t].
    apply keeps_bind; [apply call_update_object | intros r]. apply keeps_ret. }
  destruct (conflictResolution sm =? "manual")%string; [|apply keeps_ret].
  apply keeps_bind; [apply keeps_lift | intros id].
  apply keeps_bind; [apply call_update_object | intros r]. apply keeps_ret.
Qed.

Lemma keeps_map_conflicts (sm : SyncManager) (localItem serverItem : value)
    (items : list value) :
  keeps_records (map_conflicts sm localItem serverItem items).
Proof.
  induction items as [|item items IH]; simpl; [apply keeps_ret|].
  intros m c.
  pose proof (keeps_resolve_conflict sm localItem serverItem item m c) as H1.
  destruct (resolve_conflict sm localItem serverItem item m) as [m1 r]; simpl in H1.
  pose proof (IH m1 c) as H2.
  destruct (map_conflicts sm localItem serverItem items m1) as [m2 [rs|e|]];
    simpl in *; congruence.
Qed.

Lemma keeps_handleConflict (sm : SyncManager) (localItem serverItem : value) :
  keeps_records (handleConflict sm localItem serverItem).
Proof.
  unfold handleConflict. destruct localItem; try apply keeps_throw.
  apply keeps_map_conflicts.
Qed.

(** C6.  Under the client-wins policy [handleConflict] leaves the records of
    every collection as they are; so it overwrites a local record with the
    remote values only if that record's sync status is not "modified", and
    for every local record whose sync status is "modified" the local edit
    is preserved: the record is stored afterwards as it was before. *)
Theorem client_wins_preserves_local_edits (sm : SyncManager) (m : Model)
    (localItem : list obj) (serverItem : value) :
  conflictResolution sm = "client-wins" ->
  let m' := fst (handleConflict sm (VArr (map VObj localItem)) serverItem m) in
  (forall item coll,
      In item localItem ->
      get item (syncStatusField sm) = VStr "modified" ->
      In item (records m coll) ->
      In item (records m' coll) /\ records m' coll = records m coll) /\
  (forall item coll,
      In item localItem ->
      In item (records m coll) ->
      ~ In item (records m' coll) ->
      get item (syncStatusField sm) <> VStr "modified").
Proof.
  intros Hpolicy m'.
  assert (Hsame : forall coll, records m' coll = records m coll)
    by (intro coll; apply keeps_handleConflict).
  split.
  - intros item coll _ _ Hin. rewrite Hsame. split; [exact Hin | reflexivity].
  - intros item coll _ Hin Hout. rewrite Hsame in Hout. contradiction.
Qed.

(** *** pushToServer and getLastSyncTimestamp *)

Lemma keeps_confirm_all (sm : SyncManager) (acks : list value) :
  keeps_records (confirm_all sm acks).
Proof.
  induction acks as [|synced acks IH]; simpl; [apply keeps_ret|].
  apply keeps_bind; [apply keeps_lift | intros localId].
  apply keeps_bind; [apply keeps_lift | intros serverId].
  apply keeps_bind; [apply keeps_now | intros t].
  apply keeps_bind; [apply call_update_object | intros _]. exact IH.
Qed.

(** No call of [pushToServer] changes a record, whatever the remote
    authority acknowledges. *)
Lemma keeps_pushToServer (sm : SyncManager) (fetch : value -> outcome value) :
  keeps_records (pushToServer sm fetch).
Proof.
  unfold pushToServer. apply keeps_try_catch; [|intros e; apply keeps_ret].
  apply keeps_bind; [apply keeps_find | intros modifiedItems].
  apply keeps_bind; [apply keeps_lift | intros result].
  apply keeps_bind; [apply keeps_lift | intros synchronized].
  apply keeps_bind; [apply keeps_lift | intros acks].
  apply keeps_bind; [apply keeps_confirm_all | intros _].
  apply keeps_bind; [apply keeps_lift | intros n]. apply keeps_ret.
Qed.

(** An object passed to [find] that is not of the form [{ query, fields }]
    selects nothing: [find] returns what it returns without an argument. *)
Lemma find_ignores_bare_query (f : string) (v : value) (m : Model) :
  f <> "query" -> f <> "fields" ->
  find (VObj [(f, v)]) m = find VUndefined m.
Proof.
  intros Hq Hf. unfold find. simpl.
  apply String.eqb_neq in Hq, Hf. unfold get. simpl. rewrite Hq, Hf. reflexivity.
Qed.

End WithRuntime.

Lemma client_wins_preserves_local_edits_witness :
  conflictResolution Scenario.client_wins = "client-wins" /\
  In Scenario.modified_record
     (records
        (fst (handleConflict (rt := Scenario.runtime) Scenario.client_wins
                (VArr (map VObj [Scenario.modified_record]))
                (VObj [("_id", VStr "b"); ("name", VStr "Robert")])
                Scenario.testdb_two))
        "testdb").
Proof.
  exact (conj eq_refl
           (proj1 (proj1 (client_wins_preserves_local_edits (rt := Scenario.runtime)
                            Scenario.client_wins Scenario.testdb_two
                            [Scenario.modified_record]
                            (VObj [("_id", VStr "b"); ("name", VStr "Robert")])
                            eq_refl)
                         Scenario.modified_record "testdb"
                         (or_introl eq_refl) eq_refl
                         (or_intror (or_introl eq_refl))))).
Defined.

(** C5.  With the sync fields in the schema and the wrappers of
    [watchChanges] installed, a record created through the wrapped [create]
    is stored with sync status "modified" and a local-update timestamp.
    But [pushToServer], on a response that acknowledges that record, fails
    and leaves it "modified" with no server id: it calls
    [update(localId, fields)], and [update] takes the fields first and the
    id second.  The wrapped [update] fails in the same way, whichever way
    round it is called. *)
Theorem push_acknowledged_record_stays_modified :
  records Scenario.testdb_alice "testdb" =
    [[("name", VStr "Alice"); ("age", VNum (Fin 28));
      ("_syncStatus", VStr "modified");
      ("_localUpdatedAt", VDate (Some 1733337327000));
      ("_id", VStr Scenario.alice_id)]] /\
  snd (pushToServer (rt := Scenario.runtime) Scenario.manager Scenario.acknowledge
         Scenario.testdb_alice) =
    Resolved (Failure (ValidationFailed [FieldRequired "name"])) /\
  records (fst (pushToServer (rt := Scenario.runtime) Scenario.manager
                  Scenario.acknowledge Scenario.testdb_alice)) "testdb" =
    records Scenario.testdb_alice "testdb" /\
  snd (call_update (rt := Scenario.runtime) (VStr Scenario.alice_id)
         (VObj [("name", VStr "Alice"); ("age", VNum (Fin 29))])
         Scenario.testdb_alice) =
    Rejected (ValidationFailed [FieldRequired "name"]) /\
  snd (call_update (rt := Scenario.runtime)
         (VObj [("name", VStr "Alice"); ("age", VNum (Fin 29))])
         (VStr Scenario.alice_id) Scenario.testdb_alice) =
    Rejected DataError.
Proof.
  split; [vm_compute; reflexivity|].
  split; [vm_compute; reflexivity|].
  split; [apply keeps_pushToServer|].
  split; vm_compute; reflexivity.
Qed.

(** C7.  On a store that holds a record synced at instant 100 and another
    one, modified, whose [_lastSync] is the instant 200,
    [getLastSyncTimestamp] returns the instant 200: the object it passes to
    [find] is not of the form [{ query }], so [find] returns every record
    and the maximum is taken over all of them, not over the synced ones. *)
Theorem lastSync_taken_over_all_records :
  filter (fun r => strict_equals (get r "_syncStatus") (VStr "synced"))
         (records Scenario.testdb_two "testdb") = [Scenario.synced_record] /\
  get Scenario.synced_record "_lastSync" = VDate (Some 100) /\
  snd (find (rt := Scenario.runtime) (VObj [("_syncStatus", VStr "synced")])
         Scenario.testdb_two) =
    Resolved [Scenario.synced_record; Scenario.modified_record] /\
  snd (getLastSyncTimestamp (rt := Scenario.runtime) Scenario.manager
         Scenario.testdb_two) = Resolved (VDate (Some 200)).
Proof.
  repeat split.
Qed.

End SyncFacts.

(** ** Uniqueness *)

Module UniqueFacts.
Import ModelOps QuerySpec MonadFacts CastFacts DeleteFacts UpdateFacts.
Section WithRuntime.
Context {rt : Runtime}.

(** The probe: on a literal, [find] returns the records whose field is
    strictly equal to it. *)
Lemma scan_literal (f : string) (v : value) (st : store) :
  is_object v = false ->
  scan (VObj [(f, v)]) VNull st =
  Resolved (filter (fun r => strict_equals (get r f) v) st).
Proof.
  intro Hlit. induction st as [|r st IH]; simpl; [reflexivity|].
  unfold _matchesQuery. simpl. rewrite QueryFacts.is_object_test, Hlit.
  rewrite IH. destruct (strict_equals (get r f) v); reflexivity.
Qed.

Lemma find_connected (q : value) (m : Model) (st : store) :
  db m = true ->
  active_store m = Some st ->
  q <> VUndefined ->
  find (VObj [("query", q)]) m =
  (m, match scan q VNull st with
      | Resolved results => Resolved results
      | Rejected e => Rejected e
      | Pending => Pending
      end).
Proof.
  intros Hdb Hst Hq. unfold find. simpl.
  unfold bind at 1. unfold lift at 1. cbv iota beta.
  unfold bind at 1. unfold lift at 1. cbv iota beta.
  replace (get [("query", q)] "query") with q by reflexivity.
  replace (get [("query", q)] "fields") with VUndefined by reflexivity.
  rewrite (executeTransaction_connected _ m st Hdb Hst).
  unfold lift.
  assert (Hquery : match q with VUndefined => VNull | _ => q end = q)
    by (destruct q; congruence).
  rewrite Hquery.
  destruct (scan q VNull st) as [results|e|]; try reflexivity.
  unfold active_store, stores_of in Hst.
  destruct (indexedDB m) as [[v d]|] eqn:Hi; [|discriminate].
  rewrite (replace_store_same _ _ _ Hst), <- Hi, with_indexedDB_same. reflexivity.
Qed.

Lemma validate_field_connected (m : Model) (st : store) (o : obj) (op : operation)
    (f : string) (d : definition) :
  db m = true ->
  active_store m = Some st ->
  validation_type m d <> None ->
  (def_unique m d = true -> is_object (get o f) = false) ->
  has o "hasOwnProperty" = false ->
  exists es,
    validate_field (VObj o) op (f, d) m = (m, Resolved es) /\
    (op = OpCreate -> def_unique m d = true ->
     (exists r, In r st /\ strict_equals (get r f) (get o f) = true) ->
     In (FieldMustBeUnique f) es) /\
    (op = OpUpdate -> ~ In (FieldMustBeUnique f) es) /\
    (es = [] -> has o f = true -> get o f <> VNull ->
     _isValidType (get o f) (validation_type m d) = Resolved true).
Proof.
  intros Hdb Hst Htyped Hprim Hown.
  unfold validate_field.
  set (e1 := if def_required d
             then if has o f then [] else [FieldRequired f]
             else @nil verror).
  set (e2 := if def_unique m d && match op with OpUpdate => false | OpCreate => true end
             then match filter (fun r => strict_equals (get r f) (get o f)) st with
                  | [] => []
                  | _ :: _ => [FieldMustBeUnique f]
                  end
             else @nil verror).
  destruct (_isValidType (get o f) (validation_type m d)) as [ok|e|] eqn:Hty;
    [|destruct (validation_type m d) as [[| | | | | |c]|]; simpl in Hty;
      try discriminate; congruence ..].
  set (e3 := if has o f && negb (strict_equals (get o f) VNull)
             then if ok then [] else [FieldMustBeOfType f]
             else @nil verror).
  set (e4 := match def_validate d with
             | Some validate =>
                 if has o f then
                   match validate (get o f) with
                   | VTruthy => []
                   | VFalsy => [FieldValidationFailed f]
                   | VThrows msg => [FieldValidationError f msg]
                   end
                 else []
             | None => @nil verror
             end).
  exists (e1 ++ e2 ++ e3 ++ e4).
  split; [|split; [|split]].
  - unfold bind at 1.
    assert (H1 : (if def_required d
                  then h <- lift (hasOwnProperty (VObj o) f) ;;
                       ret (if h then [] else [FieldRequired f])
                  else ret []) m = (m, Resolved e1)).
    { unfold e1. destruct (def_required d); [|reflexivity].
      unfold bind, lift. now rewrite (hasOwnProperty_own o f Hown). }
    rewrite H1. cbv iota beta.
    unfold bind at 1. unfold gets at 1. cbv iota beta.
    unfold bind at 1.
    assert (H2 : (if def_unique m d &&
                     match op with OpUpdate => false | OpCreate => true end
                  then v <- lift (get_prop (VObj o) f) ;;
                       existing <- find (VObj [("query", VObj [(f, v)])]) ;;
                       ret match existing with
                           | [] => []
                           | _ :: _ => [FieldMustBeUnique f]
                           end
                  else ret []) m = (m, Resolved e2)).
    { unfold e2.
      destruct (def_unique m d) eqn:Hu; simpl; [|reflexivity].
      destruct op; [|reflexivity].
      unfold bind at 1. unfold lift at 1. simpl get_prop. cbv iota beta.
      unfold bind at 1.
      rewrite (find_connected _ m st Hdb Hst) by discriminate.
      rewrite (scan_literal f (get o f) st (Hprim eq_refl)). reflexivity. }
    rewrite H2. cbv iota beta.
    unfold bind at 1. unfold lift at 1. rewrite (hasOwnProperty_own o f Hown).
    cbv iota beta.
    unfold bind at 1. unfold lift at 1. simpl get_prop. cbv iota beta.
    unfold bind at 1.
    assert (H3 : (if has o f && negb (strict_equals (get o f) VNull)
                  then type <- gets (fun m0 => validation_type m0 d) ;;
                       ok0 <- lift (_isValidType (get o f) type) ;;
                       ret (if ok0 then [] else [FieldMustBeOfType f])
                  else ret []) m = (m, Resolved e3)).
    { unfold e3. destruct (has o f && negb (strict_equals (get o f) VNull));
        [|reflexivity].
      unfold bind, gets, lift, ret. rewrite Hty. reflexivity. }
    rewrite H3. reflexivity.
  - intros -> Hu [r [Hin Heq]].
    apply in_or_app. right. apply in_or_app. left.
    unfold e2. rewrite Hu. simpl.
    assert (Hf : In r (filter (fun r0 => strict_equals (get r0 f) (get o f)) st))
      by (apply filter_In; split; assumption).
    destruct (filter (fun r0 => strict_equals (get r0 f) (get o f)) st);
      [destruct Hf | now left].
  - intros -> Hin.
    apply in_app_or in Hin. destruct Hin as [Hin|Hin].
    { unfold e1 in Hin. destruct (def_required d); [|destruct Hin].
      destruct (has o f); [destruct Hin | destruct Hin as [Hd|[]]; discriminate]. }
    apply in_app_or in Hin. destruct Hin as [Hin|Hin].
    { unfold e2 in Hin. rewrite andb_false_r in Hin. destruct Hin. }
    apply in_app_or in Hin. destruct Hin as [Hin|Hin].
    { unfold e3 in Hin.
      destruct (has o f && negb (strict_equals (get o f) VNull)); [|destruct Hin].
      destruct ok; [destruct Hin | destruct Hin as [Hd|[]]; discriminate]. }
    unfold e4 in Hin. destruct (def_validate d) as [validate|]; [|destruct Hin].
    destruct (has o f); [|destruct Hin].
    destruct (validate (get o f)); [destruct Hin | |];
      destruct Hin as [Hd|[]]; discriminate.
  - intros Hnil Hhas Hnn.
    apply app_nil_both in Hnil. destruct Hnil as [_ Hnil].
    apply app_nil_both in Hnil. destruct Hnil as [_ Hnil].
    apply app_nil_both in Hnil. destruct Hnil as [Hnil _].
    unfold e3 in Hnil. rewrite Hhas in Hnil.
    destruct (strict_equals (get o f) VNull) eqn:Hn;
      [apply strict_equals_null in Hn; contradiction|].
    simpl in Hnil. destruct ok; [reflexivity | discriminate].
Qed.

Lemma validate_fields_connected (m : Model) (st : store) (o : obj) (op : operation)
    (entries : list (string * definition)) :
  db m = true ->
  active_store m = Some st ->
  (forall f d, In (f, d) entries -> validation_type m d <> None) ->
  (forall f d, In (f, d) entries -> def_unique m d = true ->
               is_object (get o f) = false) ->
  has o "hasOwnProperty" = false ->
  forall errors,
  exists es,
    validate_fields (VObj o) op entries errors m = (m, Resolved (errors ++ es)) /\
    (op = OpCreate ->
     forall f d, In (f, d) entries -> def_unique m d = true ->
                 (exists r, In r st /\ strict_equals (get r f) (get o f) = true) ->
                 In (FieldMustBeUnique f) es) /\
    (es = [] ->
     forall f d, In (f, d) entries -> has o f = true -> get o f <> VNull ->
                 _isValidType (get o f) (validation_type m d) = Resolved true).
Proof.
  intros Hdb Hst.
  induction entries as [|[f d] entries IH]; intros Htyped Hprim Hown errors.
  - exists []. simpl. rewrite app_nil_r. repeat split; intros; contradiction.
  - destruct (validate_field_connected m st o op f d Hdb Hst
                (Htyped f d (or_introl eq_refl))
                (Hprim f d (or_introl eq_refl)) Hown)
      as [es1 [Hrun [Huniq [_ Htype]]]].
    destruct (IH (fun f' d' Hin => Htyped f' d' (or_intror Hin))
                 (fun f' d' Hin => Hprim f' d' (or_intror Hin)) Hown
                 (errors ++ es1))
      as [es2 [Hrun2 [Huniq2 Htype2]]].
    exists (es1 ++ es2). split; [|split].
    + change (validate_fields (VObj o) op ((f, d) :: entries) errors)
        with (es <- validate_field (VObj o) op (f, d) ;;
              validate_fields (VObj o) op entries (errors ++ es)).
      unfold bind at 1. rewrite Hrun. cbv iota beta.
      rewrite Hrun2. now rewrite app_assoc.
    + intros Hop f' d' [Heq|Hin] Hu Hex.
      * injection Heq as <- <-. apply in_or_app. left. now apply Huniq.
      * apply in_or_app. right. now apply (Huniq2 Hop f' d').
    + intros Hnil f' d' [Heq|Hin] Hhas Hnn.
      * injection Heq as <- <-. apply app_nil_both in Hnil. now apply Htype.
      * apply app_nil_both in Hnil. now apply (Htype2 (proj2 Hnil) f' d').
Qed.

Lemma same_engine_refl (m : Model) : same_engine m m.
Proof. repeat split. Qed.

Lemma same_engine_trans (m1 m2 m3 : Model) :
  same_engine m1 m2 -> same_engine m2 m3 -> same_engine m1 m3.
Proof.
  unfold same_engine. intros H1 H2.
  destruct H1 as (? & ? & ? & ? & ? & ? & ? & ?), H2 as (? & ? & ? & ? & ? & ? & ? & ?).
  repeat split; congruence.
Qed.

Lemma only_logs_same_engine (m m' : Model) : only_logs m m' -> same_engine m m'.
Proof. intros [l ->]. repeat split. Qed.

Lemma same_engine_active (m m' : Model) :
  same_engine m m' -> active_store m' = active_store m.
Proof.
  intros (_ & _ & _ & Hi & Ha & _). unfold active_store, stores_of.
  now rewrite Hi, Ha.
Qed.

(** The data [_validateData] checks on create: the data given, with a
    generated primary when it has none. *)
Lemma validate_prelude_create (o : obj) (m : Model) :
  exists m1,
    (status <- validatePrimaryKey (VObj o) ;;
     match status with
     | PkE =>
         prim <- gets primary ;;
         g <- generateId ;;
         lift (assign_prop (VObj o) prim (VStr g))
     | _ => ret (VObj o)
     end) m =
    (m1, Resolved (VObj (with_primary m o))) /\
    same_engine m m1.
Proof.
  unfold validatePrimaryKey, with_primary.
  unfold bind at 1. unfold bind at 1. unfold gets at 1. cbv iota beta.
  unfold bind at 1. unfold lift at 1. simpl get_prop. cbv iota beta.
  destruct (truthy (get o (primary m))) eqn:Ht; simpl negb; cbv iota.
  - unfold bind at 1.
    assert (Hlen : exists len, get_prop (get o (primary m)) "length" = Resolved len).
    { destruct (get o (primary m)); simpl in Ht; try discriminate; simpl;
        eexists; reflexivity. }
    destruct Hlen as [len Hlen]. unfold lift at 1. rewrite Hlen. cbv iota beta.
    destruct (negb (strict_equals len (VNum (Fin 24)))).
    + eexists. split; [reflexivity|]. repeat split.
    + eexists. split; [reflexivity|]. repeat split.
  - eexists. split; [reflexivity|]. repeat split.
Qed.

Lemma lookup_def_In (f : string) (d : definition) (l : list (string * definition)) :
  lookup_def f l = Some d -> In (f, d) l.
Proof.
  induction l as [|[k0 d0] l IH]; simpl; [discriminate|].
  destruct (String.eqb_spec k0 f) as [->|Hne].
  - intro H. injection H as ->. now left.
  - intro H. right. now apply IH.
Qed.

Lemma with_primary_get (m : Model) (o : obj) (f : string) :
  (f = primary m -> truthy (get o f) = true) ->
  get (with_primary m o) f = get o f.
Proof.
  intro H. unfold with_primary.
  destruct (truthy (get o (primary m))) eqn:Ht; [reflexivity|].
  rewrite get_set. destruct (String.eqb_spec (primary m) f) as [<-|Hne]; [|reflexivity].
  rewrite H in Ht by reflexivity. discriminate.
Qed.

Lemma with_primary_primitive (m : Model) (o : obj) :
  primitive_in_unique_fields m o -> primitive_in_unique_fields m (with_primary m o).
Proof.
  intros H f d Hin Hu. unfold with_primary.
  destruct (truthy (get o (primary m))); [now apply (H f d)|].
  rewrite get_set. destruct (primary m =? f)%string; [reflexivity | now apply (H f d)].
Qed.

(** Validation on create, on a connected engine: it ends, and it reports
    every unique field whose value some stored record holds. *)
Lemma validateData_create (m : Model) (st : store) (o : obj) :
  db m = true ->
  active_store m = Some st ->
  schema_typed m ->
  primitive_in_unique_fields m o ->
  has (with_primary m o) "hasOwnProperty" = false ->
  exists m1 es,
    same_engine m m1 /\
    _validateData (VObj o) OpCreate VUndefined m =
      (m1, match es with
           | [] => Resolved (VObj (with_primary m o))
           | _ :: _ => Rejected (ValidationFailed es)
           end) /\
    (forall f d, lookup_def f (sdefinition (schema m)) = Some d ->
                 def_unique m d = true ->
                 (exists r, In r st /\
                            strict_equals (get r f) (get (with_primary m o) f) = true) ->
                 In (FieldMustBeUnique f) es) /\
    (es = [] ->
     forall f d, lookup_def f (sdefinition (schema m)) = Some d ->
                 has (with_primary m o) f = true ->
                 get (with_primary m o) f <> VNull ->
                 _isValidType (get (with_primary m o) f) (validation_type m d)
                 = Resolved true).
Proof.
  intros Hdb Hst Htyped Hprim Hown.
  destruct (validate_prelude_create o m) as [m1 [Hpre Hsame]].
  pose proof Hsame as (Hs & Hp & Hc & Hi & Ha & Hd & _).
  assert (Hdb1 : db m1 = true) by congruence.
  assert (Hst1 : active_store m1 = Some st)
    by (rewrite (same_engine_active _ _ Hsame); exact Hst).
  assert (Hvt : forall d, validation_type m1 d = validation_type m d)
    by (intro d; unfold validation_type; now rewrite Hc).
  assert (Hdu : forall d, def_unique m1 d = def_unique m d)
    by (intro d; unfold def_unique; now rewrite Hc).
  destruct (validate_fields_connected m1 st (with_primary m o) OpCreate
              (sdefinition (schema m1)) Hdb1 Hst1) with (errors := @nil verror)
    as [es [Hrun [Huniq Htype]]].
  { intros f d Hin. rewrite Hvt. rewrite Hs in Hin.
    destruct d as [fd|t]; simpl.
    - now apply (Htyped f).
    - destruct (cp_type (ctors m t)); discriminate. }
  { intros f d Hin Hu. rewrite Hs in Hin. rewrite Hdu in Hu.
    now apply (with_primary_primitive m o Hprim f d). }
  { exact Hown. }
  exists m1, es. split; [exact Hsame|]. split; [|split].
  - unfold _validateData. unfold bind at 1. rewrite Hpre. cbv iota beta.
    unfold bind at 1. unfold gets at 1. cbv iota beta.
    unfold bind at 1. rewrite Hrun. simpl app. cbv iota beta.
    destruct es; reflexivity.
  - intros f d Hl Hu Hex. apply (Huniq eq_refl f d).
    + rewrite Hs. now apply lookup_def_In.
    + now rewrite Hdu.
    + exact Hex.
  - intros Hnil f d Hl Hhas Hnn. rewrite <- Hvt. apply (Htype Hnil f d).
    + rewrite Hs. now apply lookup_def_In.
    + exact Hhas.
    + exact Hnn.
Qed.



Lemma with_primary_own (m : Model) (o : obj) :
  primary m <> "hasOwnProperty" ->
  has o "hasOwnProperty" = false ->
  has (with_primary m o) "hasOwnProperty" = false.
Proof.
  intros Hp Ho. unfold with_primary.
  destruct (truthy (get o (primary m))); [exact Ho|].
  unfold has in *. rewrite lookup_set.
  destruct (String.eqb_spec (primary m) "hasOwnProperty"); [contradiction | exact Ho].
Qed.

Lemma hasOwnProperty_throws (v : value) (k : string) (e : error) :
  hasOwnProperty v k = Rejected e -> exists msg, e = TypeError msg.
Proof.
  destruct v; simpl; try discriminate;
    try (destruct (has _ _); try discriminate);
    intro H; injection H as <-; eexists; reflexivity.
Qed.

Lemma get_prop_throws (v : value) (k : string) (e : error) :
  get_prop v k = Rejected e -> exists msg, e = TypeError msg.
Proof.
  destruct v; simpl; try discriminate;
    try (intro H; injection H as <-; eexists; reflexivity).
  - destruct (k =? "length")%string; [discriminate|].
    destruct (index_of_key k (String.length s)); discriminate.
  - destruct (k =? "length")%string; [discriminate|].
    destruct (index_of_key k (Datatypes.length l)); discriminate.
Qed.

Lemma isValidType_throws (v : value) (ty : option jstype) (e : error) :
  _isValidType v ty = Rejected e -> exists msg, e = TypeError msg.
Proof.
  destruct ty as [[| | | | | |c]|]; simpl; try discriminate.
  intro H; injection H as <-; eexists; reflexivity.
Qed.

Lemma validate_field_update_outcome (data : value) (entry : string * definition)
    (m : Model) :
  update_outcome (snd (validate_field data OpUpdate entry m)).
Proof.
  destruct entry as [f d]. unfold validate_field.
  assert (He1 : forall m0,
             match snd ((if def_required d
                         then h <- lift (hasOwnProperty data f) ;;
                              ret (if h then [] else [FieldRequired f])
                         else ret []) m0) with
             | Resolved es => es = [] \/ es = [FieldRequired f]
             | Rejected (ValidationFailed _) => False
             | _ => True
             end).
  { intro m0. destruct (def_required d); [|now left].
    unfold bind, lift, ret.
    destruct (hasOwnProperty data f) as [[|]|e|] eqn:Hh; simpl; auto.
    destruct (hasOwnProperty_throws _ _ _ Hh) as [msg ->]. exact I. }
  unfold bind at 1. specialize (He1 m).
  destruct ((if def_required d
             then h <- lift (hasOwnProperty data f) ;;
                  ret (if h then [] else [FieldRequired f])
             else ret []) m) as [m1 [e1|e|]]; simpl in He1 |- *;
    [|destruct e; try exact I; contradiction | exact I].
  unfold bind at 1. unfold gets at 1. cbv iota beta.
  rewrite andb_false_r.
  unfold bind at 1. unfold ret at 1. cbv iota beta.
  unfold bind at 1. unfold lift at 1.
  destruct (hasOwnProperty data f) as [h|e|] eqn:Hh; simpl;
    [|destruct (hasOwnProperty_throws _ _ _ Hh) as [msg ->]; exact I | exact I].
  unfold bind at 1. unfold lift at 1.
  destruct (get_prop data f) as [v|e|] eqn:Hg; simpl;
    [|destruct (get_prop_throws _ _ _ Hg) as [msg ->]; exact I | exact I].
  unfold bind at 1.
  assert (He3 : match snd ((if h && negb (strict_equals v VNull)
                            then type <- gets (fun m0 => validation_type m0 d) ;;
                                 ok <- lift (_isValidType v type) ;;
                                 ret (if ok then [] else [FieldMustBeOfType f])
                            else ret []) m1) with
                | Resolved es => es = [] \/ es = [FieldMustBeOfType f]
                | Rejected (ValidationFailed _) => False
                | _ => True
                end).
  { destruct (h && negb (strict_equals v VNull)); [|now left].
    unfold bind, gets, lift, ret.
    destruct (_isValidType v (validation_type m1 d)) as [[|]|e|] eqn:Ht; simpl; auto.
    destruct (isValidType_throws _ _ _ Ht) as [msg ->]. exact I. }
  destruct ((if h && negb (strict_equals v VNull)
             then type <- gets (fun m0 => validation_type m0 d) ;;
                  ok <- lift (_isValidType v type) ;;
                  ret (if ok then [] else [FieldMustBeOfType f])
             else ret []) m1) as [m2 [e3|e|]]; simpl in He3 |- *;
    [|destruct e; try exact I; contradiction | exact I].
  intros f' Hin.
  apply in_app_or in Hin. destruct Hin as [Hin|Hin].
  { destruct He1 as [->| ->]; [destruct Hin | destruct Hin as [Hd|[]]; discriminate]. }
  simpl in Hin.
  apply in_app_or in Hin. destruct Hin as [Hin|Hin].
  { destruct He3 as [->| ->]; [destruct Hin | destruct Hin as [Hd|[]]; discriminate]. }
  destruct (def_validate d) as [validate|]; [|destruct Hin].
  destruct h; [|destruct Hin].
  destruct (validate v); [destruct Hin | |]; destruct Hin as [Hd|[]]; discriminate.
Qed.

Lemma validate_fields_update_outcome (data : value)
    (entries : list (string * definition)) :
  forall (errors : list verror) (m : Model),
    (forall f, ~ In (FieldMustBeUnique f) errors) ->
    update_outcome (snd (validate_fields data OpUpdate entries errors m)).
Proof.
  induction entries as [|entry entries IH]; intros errors m Herr; simpl.
  - exact Herr.
  - unfold bind.
    pose proof (validate_field_update_outcome data entry m) as H1.
    destruct (validate_field data OpUpdate entry m) as [m1 [es|e|]]; simpl in *.
    + apply IH. intros f Hin. apply in_app_or in Hin.
      destruct Hin as [Hin|Hin]; [now apply (Herr f) | now apply (H1 f)].
    + exact H1.
    + exact I.
Qed.

(** An update is never rejected for a uniqueness violation. *)
Lemma validateData_update_no_unique (data id : value) (m : Model)
    (errs : list verror) (f : string) :
  snd (_validateData data OpUpdate id m) = Rejected (ValidationFailed errs) ->
  ~ In (FieldMustBeUnique f) errs.
Proof.
  unfold _validateData. unfold bind at 1.
  destruct (truthy id); simpl; [|discriminate].
  unfold bind at 1. unfold gets at 1. cbv iota beta.
  unfold bind at 1.
  pose proof (validate_fields_update_outcome data (sdefinition (schema m)) [] m
                (fun _ H => H)) as Hout.
  destruct (validate_fields data OpUpdate (sdefinition (schema m)) [] m)
    as [m1 [es|e|]]; simpl in *.
  - destruct es as [|e0 es]; simpl; [discriminate|].
    intro H. injection H as <-. apply Hout.
  - intro H. injection H as ->. contradiction.
  - discriminate.
Qed.

(** A successful [create] on a connected engine: the record it stores holds,
    in every declared field that the data gives a value other than [null],
    that very value. *)
Lemma create_stores_record (m m1 : Model) (st : store) (o : obj) (created : value) :
  db m = true ->
  active_store m = Some st ->
  schema_typed m ->
  primitive_in_unique_fields m o ->
  NoDup (map fst o) ->
  has (with_primary m o) "hasOwnProperty" = false ->
  create (VObj o) false m = (m1, Resolved created) ->
  created = VObj (with_primary m o) /\
  db m1 = true /\ schema m1 = schema m /\ ctors m1 = ctors m /\
  primary m1 = primary m /\
  exists prepared st1,
    active_store m1 = Some st1 /\
    In prepared st1 /\
    (forall f d, lookup_def f (sdefinition (schema m)) = Some d ->
                 f <> "__proto__" ->
                 has (with_primary m o) f = true ->
                 get (with_primary m o) f <> VNull ->
                 get prepared f = get (with_primary m o) f).
Proof.
  intros Hdb Hst Htyped Hprim Hnd Hown Hrun.
  destruct (validateData_create m st o Hdb Hst Htyped Hprim Hown)
    as [ma [es [Hsame [Hval [_ Htype]]]]].
  pose proof Hsame as (Hs & Hp & Hc & Hi & Ha & Hd & _).
  assert (Hdba : db ma = true) by congruence.
  assert (Hsta : active_store ma = Some st)
    by (rewrite (same_engine_active _ _ Hsame); exact Hst).
  unfold create in Hrun. unfold bind at 1 in Hrun. unfold ret at 1 in Hrun.
  cbv iota beta in Hrun. unfold bind at 1 in Hrun. rewrite Hval in Hrun.
  destruct es as [|e0 es]; [|discriminate].
  cbv iota beta in Hrun.
  rewrite (executeTransaction_connected _ ma st Hdba Hsta) in Hrun.
  simpl negb in Hrun. cbv iota in Hrun.
  unfold bind at 1 in Hrun. unfold bind at 1 in Hrun.
  unfold _prepare in Hrun. unfold bind at 1 in Hrun. unfold lift at 1 in Hrun.
  simpl Object_entries in Hrun. cbv iota beta in Hrun.
  destruct (prepare_entries_returns (with_primary m o) [] ma)
    as [mb [prepared [Hp' [Hlogs _]]]].
  rewrite Hp' in Hrun. cbv iota beta in Hrun.
  unfold ret at 1 in Hrun. cbv iota beta in Hrun.
  unfold bind at 1 in Hrun. unfold gets at 1 in Hrun. cbv iota beta in Hrun.
  unfold bind at 1 in Hrun. unfold lift at 1 in Hrun.
  unfold store_add in Hrun.
  destruct (key_of (primary mb) prepared) as [k|] eqn:Hk; [|discriminate].
  destruct (existsb (has_key (primary mb) k) st); [discriminate|].
  cbv iota beta in Hrun.
  unfold bind at 1 in Hrun. unfold gets at 1 in Hrun. cbv iota beta in Hrun.
  destruct (violates_unique (active_indexes mb) (primary mb) st
              (spread_value (VObj prepared))); [discriminate|].
  unfold ret in Hrun.
  injection Hrun as <- <-.
  pose proof (only_logs_same_engine _ _ Hlogs) as Hsame2.
  pose proof Hsame2 as (Hs2 & Hp2 & Hc2 & Hi2 & Ha2 & Hd2 & _).
  split; [reflexivity|].
  split; [simpl; congruence|].
  split; [simpl; congruence|].
  split; [simpl; congruence|].
  split; [simpl; congruence|].
  exists prepared, (store_insert (primary mb) k prepared st).
  split.
  { pose proof Hsta as Hstb. rewrite <- (same_engine_active _ _ Hsame2) in Hstb.
    unfold active_store, stores_of in *. simpl.
    destruct (indexedDB mb) as [[v dd]|]; [|discriminate].
    simpl. now apply find_store_replace with (st := st). }
  split.
  { pose proof (find_insert_same (primary mb) k prepared st Hk) as Hf.
    apply find_some in Hf. exact (proj1 Hf). }
  intros f d Hl Hf Hhas Hnn.
  assert (Hnd' : NoDup (map fst (with_primary m o))).
  { unfold with_primary. destruct (truthy (get o (primary m))); [exact Hnd|].
    now apply nodup_set. }
  destruct (prepare_entries_values (with_primary m o) [] ma mb prepared
              Hnd' (NoDup_nil _) Hp') as [_ [_ [_ Hdecl]]].
  assert (Hlk : lookup f (with_primary m o) = Some (get (with_primary m o) f)).
  { unfold has, get in *. destruct (lookup f (with_primary m o));
      [reflexivity | discriminate]. }
  rewrite <- Hs in Hl.
  destruct (Hdecl f _ d Hlk Hl) as [c [Hc' Hlc]].
  rewrite (kept_named ma f) in Hlc by (try exact Hf; congruence).
  rewrite Hs in Hl.
  pose proof (Htype eq_refl f d Hl Hhas Hnn) as Hty.
  assert (Hty' : _isValidType (get (with_primary m o) f) (validation_type ma d)
                 = Resolved true).
  { unfold validation_type in *. now rewrite Hc. }
  apply cast_valid_identity in Hty'. rewrite Hty' in Hc'.
  injection Hc' as <-. unfold get at 1. now rewrite Hlc.
Qed.

Lemma explicit_value_equal (v : value) :
  explicit_value v = true -> strict_equals v v = true.
Proof.
  destruct v as [| |b|[|z]|s|t|l|l]; simpl; try discriminate; intros _.
  - now destruct b.
  - apply Z.eqb_refl.
  - apply String.eqb_refl.
Qed.

(** On a connected engine whose schema gives every definition a type, for
    data that holds primitive values in its unique fields and has no
    property [hasOwnProperty] of its own:
    - validation on create reports a uniqueness violation for every field
      declared unique for which some record of the active collection holds
      the value the data holds;
    - validation on update never reports a uniqueness violation;
    - after a record has been created with a boolean, a number or a string
      in a unique field (one that [_prepare] keeps), creating a second
      record with the identical value in that field fails with a uniqueness
      violation. *)
Lemma unique_probe_on_primitive_values (m : Model) (st : store) :
  db m = true ->
  active_store m = Some st ->
  schema_typed m ->
  (forall data f d,
      primitive_in_unique_fields m data ->
      has (with_primary m data) "hasOwnProperty" = false ->
      lookup_def f (sdefinition (schema m)) = Some d ->
      def_unique m d = true ->
      (exists r, In r st /\
                 strict_equals (get r f) (get (with_primary m data) f) = true) ->
      exists errs,
        snd (_validateData (VObj data) OpCreate VUndefined m) =
          Rejected (ValidationFailed errs) /\
        In (FieldMustBeUnique f) errs) /\
  (forall data id errs f,
      snd (_validateData data OpUpdate id m) = Rejected (ValidationFailed errs) ->
      ~ In (FieldMustBeUnique f) errs) /\
  (forall first second f d v m1 created,
      NoDup (map fst first) ->
      primitive_in_unique_fields m first ->
      primitive_in_unique_fields m second ->
      primary m <> "hasOwnProperty" ->
      has first "hasOwnProperty" = false ->
      has second "hasOwnProperty" = false ->
      lookup_def f (sdefinition (schema m)) = Some d ->
      f <> "__proto__" ->
      def_unique m d = true ->
      explicit_value v = true ->
      (f = primary m -> truthy v = true) ->
      get first f = v ->
      get second f = v ->
      create (VObj first) false m = (m1, Resolved created) ->
      exists errs,
        snd (create (VObj second) false m1) = Rejected (ValidationFailed errs) /\
        In (FieldMustBeUnique f) errs).
Proof.
  intros Hdb Hst Htyped. split; [|split].
  - intros data f d Hprim Hown Hl Hu Hex.
    destruct (validateData_create m st data Hdb Hst Htyped Hprim Hown)
      as [ma [es [_ [Hval [Huniq _]]]]].
    specialize (Huniq f d Hl Hu Hex).
    exists es. rewrite Hval. destruct es; [destruct Huniq|]. split; [reflexivity|exact Huniq].
  - intros data id errs f. apply validateData_update_no_unique.
  - intros first second f d v m1 created Hnd Hp1 Hp2 Hpo Ho1 Ho2 Hl Hf Hu Hv Hprimary
           Hf1 Hf2 Hrun.
    destruct (create_stores_record m m1 st first created Hdb Hst Htyped Hp1 Hnd
                (with_primary_own m first Hpo Ho1) Hrun)
      as (_ & Hdb1 & Hs1 & Hc1 & Hpr1 & prepared & st1 & Hst1 & Hin & Hvals).
    assert (Hget1 : get (with_primary m first) f = v).
    { rewrite with_primary_get; [exact Hf1|]. intros ->. rewrite Hf1. now apply Hprimary. }
    assert (Hstored : get prepared f = v).
    { rewrite (Hvals f d Hl Hf); [exact Hget1 | |].
      - unfold has. unfold get in Hget1.
        destruct (lookup f (with_primary m first)); [reflexivity|].
        rewrite <- Hget1 in Hv. simpl in Hv. discriminate.
      - rewrite Hget1. intros Hnull. rewrite Hnull in Hv. simpl in Hv. discriminate. }
    assert (Htyped1 : schema_typed m1).
    { intros f' fd Hin'. rewrite Hs1 in Hin'. now apply (Htyped f'). }
    assert (Hp2' : primitive_in_unique_fields m1 second).
    { intros f' d' Hin' Hu'. rewrite Hs1 in Hin'.
      apply (Hp2 f' d' Hin'). unfold def_unique in *. now rewrite <- Hc1. }
    assert (Hpo1 : primary m1 <> "hasOwnProperty") by now rewrite Hpr1.
    destruct (validateData_create m1 st1 second Hdb1 Hst1 Htyped1 Hp2'
                (with_primary_own m1 second Hpo1 Ho2))
      as [mb [es [_ [Hval [Huniq _]]]]].
    assert (Hin_es : In (FieldMustBeUnique f) es).
    { apply (Huniq f d).
      - now rewrite Hs1.
      - unfold def_unique in *. now rewrite Hc1.
      - exists prepared. split; [exact Hin|].
        rewrite with_primary_get.
        + rewrite Hstored, Hf2. now apply explicit_value_equal.
        + intros ->. rewrite Hf2. apply Hprimary. now rewrite Hpr1. }
    exists es. split; [|exact Hin_es].
    unfold create. unfold bind at 1. unfold ret at 1. cbv iota beta.
    unfold bind at 1. rewrite Hval.
    destruct es; [destruct Hin_es | reflexivity].
Qed.

End WithRuntime.

(** Two accounts with the same email: the second is refused. *)
Lemma unique_email_refused :
  exists errs,
    snd (create (rt := Scenario.runtime) (VObj Scenario.anna) false
           (fst (create (rt := Scenario.runtime) (VObj Scenario.ann) false
                   Scenario.accounts))) =
      Rejected (ValidationFailed errs) /\
    In (FieldMustBeUnique "email") errs.
Proof.
  assert (H1 : db Scenario.accounts = true) by reflexivity.
  assert (H2 : active_store Scenario.accounts = Some []) by reflexivity.
  assert (H3 : schema_typed Scenario.accounts).
  { intros f fd Hin. simpl in Hin.
    destruct Hin as [Hin|[Hin|[Hin|[]]]]; injection Hin as _ <-; discriminate. }
  assert (Hprim : forall o, primitive_in_unique_fields
                              Scenario.accounts
                              [("email", VStr "ann@example.com"); ("name", VStr o)]).
  { intros o f d Hin _. simpl in Hin.
    destruct Hin as [Hin|[Hin|[Hin|[]]]]; injection Hin as <- _; reflexivity. }
  refine (proj2 (proj2 (unique_probe_on_primitive_values (rt := Scenario.runtime)
                          Scenario.accounts [] H1 H2 H3))
            Scenario.ann Scenario.anna "email"
            (Scenario.field TString true true) (VStr "ann@example.com")
            (fst (create (rt := Scenario.runtime) (VObj Scenario.ann) false
                    Scenario.accounts))
            (VObj (with_primary (rt := Scenario.runtime) Scenario.accounts Scenario.ann))
            _ (Hprim "Ann") (Hprim "Anna") _ eq_refl eq_refl eq_refl _ eq_refl eq_refl _
            eq_refl eq_refl eq_refl).
  - repeat constructor; simpl; intuition discriminate.
  - discriminate.
  - discriminate.
  - discriminate.
Qed.

(** C3.  A field declared unique is not kept unique when the value is an
    array.  On the engine [Scenario.posts], whose schema declares
    [tags: { type: Array, unique: true }], creating [{ tags: ['a'] }] twice
    resolves both times, and the collection then holds two records with the
    identical value in [tags]: the probe that validation makes,
    [find({ query: { tags: ['a'] } })], reads the array as an operator object
    and matches no record, although the first record is stored. *)
Theorem unique_array_value_created_twice :
  let create_post := create (rt := Scenario.runtime) (VObj Scenario.post) false in
  let first := [("tags", VArr [VStr "a"]); ("_id", VStr "674fa68cb742d1ff3e000000")] in
  let second := [("tags", VArr [VStr "a"]); ("_id", VStr "674fa68cb742d1ff3e000001")] in
  let m1 := fst (create_post Scenario.posts) in
  let m2 := fst (create_post m1) in
  lookup_def "tags" (sdefinition (schema Scenario.posts)) =
    Some (Scenario.field TArray false true) /\
  def_unique Scenario.posts (Scenario.field TArray false true) = true /\
  snd (create_post Scenario.posts) = Resolved (VObj first) /\
  active_store m1 = Some [first] /\
  snd (find (rt := Scenario.runtime)
         (VObj [("query", VObj [("tags", VArr [VStr "a"])])]) m1) = Resolved [] /\
  snd (create_post m1) = Resolved (VObj second) /\
  active_store m2 = Some [first; second] /\
  get first "tags" = get second "tags".
Proof. vm_compute. repeat split. Qed.

End UniqueFacts.

(** * Further properties *)

(** ** find *)

Module FindFacts.
Import ModelOps SyncOps QuerySpec MonadFacts CastFacts ConstructorFacts DeleteFacts UpdateFacts SyncFacts UniqueFacts.
Section WithRuntime.
Context {rt : Runtime}.



Lemma scan_everything (q f : value) (st : store) :
  truthy q = false -> truthy f = false -> scan q f st = Resolved st.
Proof.
  intros Hq Hf. induction st as [|r st IH]; [reflexivity|].
  simpl. rewrite Hq, Hf. simpl. now rewrite IH.
Qed.

Lemma transaction_reads {A : Type} (f : store -> outcome A) (m : Model) (st : store) :
  db m = true ->
  active_store m = Some st ->
  _executeTransaction (fun st0 => lift (match f st0 with
                                        | Resolved a => Resolved (st0, a)
                                        | Rejected e => Rejected e
                                        | Pending => Pending
                                        end)) m = (m, f st).
Proof.
  intros Hdb Hst. rewrite (executeTransaction_connected _ m st Hdb Hst).
  unfold lift. destruct (f st) as [a|e|]; try reflexivity.
  unfold active_store, stores_of in Hst.
  destruct (indexedDB m) as [[v d]|] eqn:Hi; [|discriminate].
  rewrite (replace_store_same _ _ _ Hst), <- Hi, with_indexedDB_same. reflexivity.
Qed.


Lemma find_everything_connected (m : Model) (st : store) (arg : obj) :
  db m = true ->
  active_store m = Some st ->
  truthy (get arg "query") = false ->
  truthy (get arg "fields") = false ->
  find (VObj arg) m = (m, Resolved st).
Proof.
  intros Hdb Hst Hq Hf.
  assert (Hnorm : forall v, truthy v = false ->
                            truthy (match v with VUndefined => VNull | _ => v end) = false)
    by (intros v; destruct v; auto).
  unfold find. unfold bind at 1. unfold lift at 1. simpl get_prop. cbv iota beta.
  unfold bind at 1. unfold lift at 1. cbv iota beta.
  rewrite (transaction_reads (fun st0 => scan _ _ st0) m st Hdb Hst).
  now rewrite scan_everything by now apply Hnorm.
Qed.

Lemma find_undefined_connected (m : Model) (st : store) :
  db m = true ->
  active_store m = Some st ->
  find VUndefined m = (m, Resolved st).
Proof.
  intros Hdb Hst.
  unfold find. unfold bind at 1. unfold lift at 1. simpl get_prop. cbv iota beta.
  unfold bind at 1. unfold lift at 1. cbv iota beta.
  rewrite (transaction_reads (fun st0 => scan _ _ st0) m st Hdb Hst).
  now rewrite scan_everything.
Qed.

Lemma find_bare_connected (f : string) (v : value) (m : Model) (st : store) :
  db m = true ->
  active_store m = Some st ->
  f <> "query" -> f <> "fields" ->
  find (VObj [(f, v)]) m = (m, Resolved st).
Proof.
  intros Hdb Hst Hq Hf.
  apply (find_everything_connected m st); try assumption.
  - unfold get. simpl. apply String.eqb_neq in Hq. now rewrite Hq.
  - unfold get. simpl. apply String.eqb_neq in Hf. now rewrite Hf.
Qed.


(** X2.  On a connected engine, [find] called with an object whose [query]
    and [fields] are both falsy (absent, undefined, null, ...), and [find]
    called with no argument, resolve with every record of the active
    collection, in the order of the store, and leave the engine as it was. *)
Theorem find_without_query_returns_every_record (m : Model) (st : store) (arg : obj) :
  db m = true ->
  active_store m = Some st ->
  truthy (get arg "query") = false ->
  truthy (get arg "fields") = false ->
  find (VObj arg) m = (m, Resolved st) /\ find VUndefined m = (m, Resolved st).
Proof.
  intros Hdb Hst Hq Hf. split.
  - now apply find_everything_connected.
  - now apply find_undefined_connected.
Qed.

End WithRuntime.


Lemma find_without_query_returns_every_record_witness :
  db Scenario.users = true /\
  active_store Scenario.users = Some [Scenario.john] /\
  find (rt := Scenario.runtime) (VObj [("age", VNum (Fin 31))]) Scenario.users =
    (Scenario.users, Resolved [Scenario.john]).
Proof.
  assert (H1 : db Scenario.users = true) by reflexivity.
  assert (H2 : active_store Scenario.users = Some [Scenario.john]) by reflexivity.
  exact (conj H1 (conj H2
           (proj1 (find_without_query_returns_every_record (rt := Scenario.runtime)
                     Scenario.users [Scenario.john] [("age", VNum (Fin 31))]
                     H1 H2 eq_refl eq_refl)))).
Defined.

End FindFacts.

(** ** What the operations leave as it is *)

Module Frame.
Import ModelOps SyncOps QuerySpec MonadFacts CastFacts ConstructorFacts DeleteFacts UpdateFacts SyncFacts UniqueFacts FindFacts.
Section WithRuntime.
Context {rt : Runtime}.

Lemma steady_refl (m : Model) : steady m m.
Proof. repeat split; auto. Qed.

Lemma steady_trans (m1 m2 m3 : Model) : steady m1 m2 -> steady m2 m3 -> steady m1 m3.
Proof.
  intros (Ha & Hp & Hs & Hc & Hw & Hr & Hd) (Ha' & Hp' & Hs' & Hc' & Hw' & Hr' & Hd').
  split; [congruence|]. split; [congruence|]. split; [congruence|].
  split; [congruence|]. split; [congruence|]. split.
  - intro coll. now rewrite Hr'.
  - intro H. destruct (Hd H) as (H1 & H2 & H2'). destruct (Hd' H1) as (H3 & H4 & H4').
    repeat split; congruence.
Qed.

Lemma apart_trans (m1 m2 m3 : Model) : apart m1 m2 -> apart m2 m3 -> apart m1 m3.
Proof.
  intros (Ha & Hp & Hr) (Ha' & Hp' & Hr').
  repeat split; try congruence.
  intros coll Hne. rewrite Hr' by congruence. now apply Hr.
Qed.

Lemma steady_apart (m m' : Model) : steady m m' -> apart m m'.
Proof. intros (Ha & Hp & _ & _ & _ & Hr & _). repeat split; auto. Qed.

Lemma same_engine_steady (m m' : Model) : same_engine m m' -> steady m m'.
Proof.
  intros (Hs & Hp & Hc & Hi & Ha & Hd & Hw & Hx). repeat split; try assumption.
  - intro coll. unfold records, stores_of. now rewrite Hi.
  - congruence.
Qed.

Lemma only_logs_steady (m m' : Model) : only_logs m m' -> steady m m'.
Proof. intro H. now apply same_engine_steady, only_logs_same_engine. Qed.

Section Relation.
Variable R : Model -> Model -> Prop.
Hypothesis R_refl : forall m, R m m.
Hypothesis R_trans : forall m1 m2 m3, R m1 m2 -> R m2 m3 -> R m1 m3.

Lemma preserves_ret {A : Type} (a : A) : preserves R (ret a).
Proof. intro m. apply R_refl. Qed.

Lemma preserves_lift {A : Type} (o : outcome A) : preserves R (lift o).
Proof. intro m. apply R_refl. Qed.

Lemma preserves_throw {A : Type} (e : error) : preserves R (@throw A e).
Proof. intro m. apply R_refl. Qed.

Lemma preserves_gets {A : Type} (f : Model -> A) : preserves R (gets f).
Proof. intro m. apply R_refl. Qed.

Lemma preserves_bind {A B : Type} (c : M A) (k : A -> M B) :
  preserves R c -> (forall a, preserves R (k a)) -> preserves R (bind c k).
Proof.
  intros Hc Hk m. unfold bind. specialize (Hc m).
  destruct (c m) as [m' [a|e|]]; simpl in *; try exact Hc.
  eapply R_trans; [exact Hc | apply Hk].
Qed.

Lemma preserves_try_catch {A : Type} (c : M A) (h : error -> M A) :
  preserves R c -> (forall e, preserves R (h e)) -> preserves R (try_catch c h).
Proof.
  intros Hc Hh m. unfold try_catch. specialize (Hc m).
  destruct (c m) as [m' [a|e|]]; simpl in *; try exact Hc.
  eapply R_trans; [exact Hc | apply Hh].
Qed.

Lemma preserves_in_handler {A : Type} (c : M A) :
  preserves R c -> preserves R (in_handler c).
Proof.
  intros Hc m. unfold in_handler. specialize (Hc m).
  destruct (c m) as [m' [a|e|]]; simpl in *; exact Hc.
Qed.

End Relation.

Lemma steady_ret {A : Type} (a : A) : preserves steady (ret a).
Proof. apply preserves_ret, steady_refl. Qed.

Lemma steady_lift {A : Type} (o : outcome A) : preserves steady (lift o).
Proof. apply preserves_lift, steady_refl. Qed.

Lemma steady_throw {A : Type} (e : error) : preserves steady (@throw A e).
Proof. apply preserves_throw, steady_refl. Qed.

Lemma steady_gets {A : Type} (f : Model -> A) : preserves steady (gets f).
Proof. apply preserves_gets, steady_refl. Qed.

Lemma steady_log (msg : logmsg) : preserves steady (log msg).
Proof. intro m. apply only_logs_steady, only_logs_log. Qed.

Lemma steady_generateId : preserves steady generateId.
Proof. intro m. repeat split; auto. Qed.

Lemma steady_bind {A B : Type} (c : M A) (k : A -> M B) :
  preserves steady c -> (forall a, preserves steady (k a)) -> preserves steady (bind c k).
Proof. apply preserves_bind. exact steady_trans. Qed.

Lemma apart_bind {A B : Type} (c : M A) (k : A -> M B) :
  preserves apart c -> (forall a, preserves apart (k a)) -> preserves apart (bind c k).
Proof. apply preserves_bind. exact apart_trans. Qed.

Lemma steady_is_apart {A : Type} (c : M A) : preserves steady c -> preserves apart c.
Proof. intros H m. apply steady_apart, H. Qed.

(** The first step of a transaction: connect unless a connection is held. *)
Lemma steady_open :
  preserves steady (fun m => if db m then (m, Resolved tt) else connect m).
Proof.
  intro m. destruct (db m) eqn:Hd; [apply steady_refl|].
  pose proof (keeps_connect m) as Hr.
  unfold connect in *.
  destruct (indexedDB m) as [[ev d]|];
    destruct (syncVersion m (version m) <=? 0); simpl in *;
    repeat split; auto; congruence.
Qed.

Lemma open_connected (m m0 : Model) (u : unit) :
  (if db m then (m, Resolved tt) else connect m) = (m0, Resolved u) -> db m0 = true.
Proof.
  destruct (db m) eqn:Hd.
  - intro H. injection H as <- _. exact Hd.
  - unfold connect.
    destruct (indexedDB m) as [[ev d]|];
      destruct (syncVersion m (version m) <=? 0); intro H;
      try discriminate; injection H as <- _; reflexivity.
Qed.

Lemma find_store_replace_other (n c : string) (st' : store) (d : database) :
  c <> n -> find_store c (replace_store n st' d) = find_store c d.
Proof.
  intro Hne. induction d as [|[n' st0] d IH]; simpl; [reflexivity|].
  destruct (String.eqb_spec n' n) as [->|Hn]; simpl.
  - destruct (String.eqb_spec n c); [congruence | reflexivity].
  - destruct (n' =? c)%string; [reflexivity | exact IH].
Qed.

Lemma active_records (m : Model) (st : store) :
  active_store m = Some st -> records m (activeCollection m) = st.
Proof. unfold active_store, records. now intros ->. Qed.

Lemma committed_active (m : Model) (st st' : store) :
  active_store m = Some st -> active_store (committed m st') = Some st'.
Proof.
  unfold active_store, committed, stores_of. simpl.
  destruct (indexedDB m) as [[v d]|]; [|discriminate].
  apply find_store_replace.
Qed.

Lemma committed_other (m : Model) (st' : store) (coll : string) :
  coll <> activeCollection m -> records (committed m st') coll = records m coll.
Proof.
  intro Hne. unfold records, committed, stores_of. simpl.
  destruct (indexedDB m) as [[v d]|]; [|reflexivity].
  now rewrite find_store_replace_other.
Qed.

Lemma committed_same (m : Model) (st : store) :
  active_store m = Some st -> committed m st = m.
Proof.
  unfold active_store, committed, stores_of.
  destruct (indexedDB m) as [[v d]|] eqn:Hi; [|discriminate].
  intro H. rewrite (replace_store_same _ _ _ H), <- Hi. apply with_indexedDB_same.
Qed.

Lemma steady_db (m m' : Model) : steady m m' -> db m = true -> db m' = true.
Proof. intros (_ & _ & _ & _ & _ & _ & Hd) H. now destruct (Hd H). Qed.

Lemma steady_active (m m' : Model) (st : store) :
  steady m m' -> db m = true -> active_store m = Some st -> active_store m' = Some st.
Proof.
  intros (Ha & _ & _ & _ & _ & _ & Hd) Hdb Hst.
  destruct (Hd Hdb) as (_ & Hi & _). unfold active_store, stores_of in *.
  now rewrite Ha, Hi.
Qed.

Lemma executeTransaction_steps {A : Type} (callback : store -> M (store * A))
    (m : Model) :
  _executeTransaction callback m =
  match (if db m then (m, Resolved tt) else connect m) with
  | (m0, Resolved _) =>
      match active_store m0 with
      | None => (m0, Rejected NotFoundError)
      | Some st =>
          match callback st m0 with
          | (m1, Resolved (st', a)) => (committed m1 st', Resolved a)
          | (m1, Rejected e) => (m1, Rejected e)
          | (m1, Pending) => (m1, Pending)
          end
      end
  | (m0, Rejected e) => (m0, Rejected e)
  | (m0, Pending) => (m0, Pending)
  end.
Proof. reflexivity. Qed.

(** What a transaction does, for a callback that touches no record itself:
    the records of the other collections stay; those of the active one
    become what the callback returns, if it returns. *)
Lemma executeTransaction_effect {A : Type} (callback : store -> M (store * A))
    (m : Model) :
  (forall st, preserves steady (callback st)) ->
  match snd (_executeTransaction callback m) with
  | Resolved a =>
      exists m0 m1 st',
        steady m m0 /\ steady m0 m1 /\ db m0 = true /\
        active_store m0 = Some (records m (activeCollection m)) /\
        callback (records m (activeCollection m)) m0 = (m1, Resolved (st', a)) /\
        fst (_executeTransaction callback m) = committed m1 st'
  | _ => steady m (fst (_executeTransaction callback m))
  end.
Proof.
  intros Hcb. rewrite executeTransaction_steps.
  pose proof (steady_open m) as Hopen.
  pose proof (open_connected m) as Hdb0.
  destruct (if db m then (m, Resolved tt) else connect m) as [m0 [u|e|]] eqn:E0;
    simpl in Hopen; try exact Hopen.
  specialize (Hdb0 m0 u eq_refl).
  destruct (active_store m0) as [st|] eqn:Hst; [|exact Hopen].
  assert (Hrec : records m (activeCollection m) = st).
  { destruct Hopen as (Ha & _ & _ & _ & _ & Hr & _).
    rewrite <- (Hr (activeCollection m)), <- Ha. now apply active_records. }
  pose proof (Hcb st m0) as Hk.
  destruct (callback st m0) as [m1 [[st' a]|e|]] eqn:Ek; simpl in Hk.
  2,3: simpl; now apply (steady_trans _ _ _ Hopen Hk).
  simpl. exists m0, m1, st'. rewrite Hrec.
  split; [exact Hopen|]. split; [exact Hk|]. split; [exact Hdb0|].
  split; [exact Hst|]. split; [exact Ek | reflexivity].
Qed.

Lemma committed_apart (m0 m1 : Model) (st st' : store) :
  steady m0 m1 -> apart m0 (committed m1 st').
Proof.
  intros (Ha & Hp & _ & _ & _ & Hr & _). repeat split; auto.
  intros coll Hne. rewrite committed_other by congruence. apply Hr.
Qed.

(** Whatever its callback returns, a transaction leaves the other
    collections alone. *)
Lemma apart_executeTransaction {A : Type} (callback : store -> M (store * A)) :
  (forall st, preserves steady (callback st)) ->
  preserves apart (_executeTransaction callback).
Proof.
  intros Hcb m. pose proof (executeTransaction_effect callback m Hcb) as H.
  destruct (snd (_executeTransaction callback m)) as [a|e|].
  - destruct H as (m0 & m1 & st' & H0 & H1 & _ & _ & _ & ->).
    eapply apart_trans; [apply steady_apart, H0|].
    now apply (committed_apart m0 m1 (records m (activeCollection m))).
  - now apply steady_apart.
  - now apply steady_apart.
Qed.

(** A transaction whose callback hands back the store it was given changes
    no record. *)
Lemma steady_executeTransaction {A : Type} (callback : store -> M (store * A)) :
  (forall st, preserves steady (callback st)) ->
  (forall st m st' a, snd (callback st m) = Resolved (st', a) -> st' = st) ->
  preserves steady (_executeTransaction callback).
Proof.
  intros Hcb Hsame m. pose proof (executeTransaction_effect callback m Hcb) as H.
  destruct (snd (_executeTransaction callback m)) as [a|e|]; try exact H.
  destruct H as (m0 & m1 & st' & H0 & H1 & Hdb & Hst & Hrun & ->).
  assert (st' = records m (activeCollection m)).
  { apply (Hsame _ m0 st' a). now rewrite Hrun. }
  subst st'. rewrite committed_same.
  - now apply (steady_trans _ _ _ H0 H1).
  - now apply (steady_active m0 m1).
Qed.

Lemma steady_find (arg : value) : preserves steady (find arg).
Proof.
  unfold find.
  apply steady_bind; [apply steady_lift | intros q].
  apply steady_bind; [apply steady_lift | intros f].
  apply steady_executeTransaction.
  - intro st. apply steady_lift.
  - intros st m st' a. unfold lift. simpl.
    destruct (scan _ _ st); try discriminate.
    intro H. now injection H as <- _.
Qed.

Lemma steady_prepare (data : value) : preserves steady (_prepare data).
Proof.
  unfold _prepare. apply steady_bind; [apply steady_lift | intros entries].
  intro m. destruct (prepare_entries_returns entries [] m) as [m' [p [Hp [Hl _]]]].
  rewrite Hp. now apply only_logs_steady.
Qed.

Lemma steady_validatePrimaryKey (data : value) : preserves steady (validatePrimaryKey data).
Proof.
  unfold validatePrimaryKey.
  apply steady_bind; [apply steady_gets | intros prim].
  apply steady_bind; [apply steady_lift | intros p].
  destruct (negb (truthy p)); [apply steady_ret|].
  apply steady_bind; [apply steady_lift | intros len].
  destruct (negb (strict_equals len (VNum (Fin 24)))); [|apply steady_ret].
  apply steady_bind; [apply steady_log | intros _; apply steady_ret].
Qed.

Lemma steady_validate_field (data : value) (op : operation) (entry : string * definition) :
  preserves steady (validate_field data op entry).
Proof.
  destruct entry as [field d]. unfold validate_field.
  apply steady_bind.
  { destruct (def_required d); [|apply steady_ret].
    apply steady_bind; [apply steady_lift | intros h; apply steady_ret]. }
  intros e1. apply steady_bind; [apply steady_gets | intros unique].
  apply steady_bind.
  { destruct (unique && match op with OpUpdate => false | OpCreate => true end);
      [|apply steady_ret].
    apply steady_bind; [apply steady_lift | intros v].
    apply steady_bind; [apply steady_find | intros existing; apply steady_ret]. }
  intros e2. apply steady_bind; [apply steady_lift | intros h].
  apply steady_bind; [apply steady_lift | intros v].
  apply steady_bind; [|intros e3; apply steady_ret].
  destruct (h && negb (strict_equals v VNull)); [|apply steady_ret].
  apply steady_bind; [apply steady_gets | intros type].
  apply steady_bind; [apply steady_lift | intros ok; apply steady_ret].
Qed.

Lemma steady_validate_fields (data : value) (op : operation)
    (entries : list (string * definition)) :
  forall errors, preserves steady (validate_fields data op entries errors).
Proof.
  induction entries as [|entry entries IH]; intro errors; simpl.
  - apply steady_ret.
  - apply steady_bind; [apply steady_validate_field | intros es; apply IH].
Qed.

Lemma steady_validateData (data : value) (op : operation) (id : value) :
  preserves steady (_validateData data op id).
Proof.
  unfold _validateData. apply steady_bind.
  - destruct op.
    + apply steady_bind; [apply steady_validatePrimaryKey | intros status].
      destruct status; try apply steady_ret.
      apply steady_bind; [apply steady_gets | intros prim].
      apply steady_bind; [apply steady_generateId | intros g; apply steady_lift].
    + destruct (negb (truthy id)); [apply steady_throw | apply steady_ret].
  - intros data'. apply steady_bind; [apply steady_gets | intros entries].
    apply steady_bind; [apply steady_validate_fields | intros errors].
    destruct errors; [apply steady_ret | apply steady_throw].
Qed.

End WithRuntime.

End Frame.

(** ** create, findById, delete, count, clear, update, deleteMany *)

Module WriteFacts.
Import ModelOps SyncOps QuerySpec MonadFacts CastFacts ConstructorFacts DeleteFacts UpdateFacts SyncFacts UniqueFacts FindFacts Frame.
Section WithRuntime.
Context {rt : Runtime}.

Lemma steady_create_callback (data : value) (cts : bool) (st : store) :
  preserves steady
    (record <- (if negb cts then p <- _prepare data ;; ret (VObj p) else ret data) ;;
     prim <- gets primary ;;
     st' <- lift (store_add prim st record) ;;
     ixs <- gets active_indexes ;;
     if violates_unique ixs prim st (spread_value record)
     then throw ConstraintError
     else ret (st', data)).
Proof.
  apply steady_bind.
  { destruct (negb cts); [|apply steady_ret].
    apply steady_bind; [apply steady_prepare | intros p; apply steady_ret]. }
  intros record. apply steady_bind; [apply steady_gets | intros prim].
  apply steady_bind; [apply steady_lift | intros st'].
  apply steady_bind; [apply steady_gets | intros ixs].
  destruct (violates_unique ixs prim st (spread_value record));
    [apply steady_throw | apply steady_ret].
Qed.

Lemma steady_update_callback (data id : value) (prim : string) (st : store) :
  preserves steady
    (found <- lift (store_get prim st id) ;;
     match found with
     | None => throw ItemNotFound
     | Some item =>
         written <- in_handler
                      (prepared <- _prepare data ;;
                       let updatedItem := spread item prepared in
                       st' <- lift (store_put prim st updatedItem) ;;
                       ret (st', updatedItem)) ;;
         ixs <- gets active_indexes ;;
         if violates_unique ixs prim st (snd written)
         then throw ConstraintError
         else ret written
     end).
Proof.
  apply steady_bind; [apply steady_lift | intros found].
  destruct found as [item|]; [|apply steady_throw].
  apply steady_bind.
  { apply preserves_in_handler.
    apply steady_bind; [apply steady_prepare | intros prepared].
    apply steady_bind; [apply steady_lift | intros st'; apply steady_ret]. }
  intros written. apply steady_bind; [apply steady_gets | intros ixs].
  destruct (violates_unique ixs prim st (snd written));
    [apply steady_throw | apply steady_ret].
Qed.

Lemma steady_delete_callback (id : value) (st : store) :
  preserves steady
    (prim <- gets primary ;;
     st' <- lift (store_delete prim st id) ;;
     ret (st', id)).
Proof.
  apply steady_bind; [apply steady_gets | intros prim].
  apply steady_bind; [apply steady_lift | intros st'; apply steady_ret].
Qed.

Lemma apart_create (data : value) (cts : bool) : preserves apart (create data cts).
Proof.
  unfold create. apply apart_bind.
  { apply steady_is_apart. destruct cts; [|apply steady_ret].
    apply steady_bind; [apply steady_prepare | intros p; apply steady_ret]. }
  intros data1. apply apart_bind; [apply steady_is_apart, steady_validateData|].
  intros data2. apply apart_executeTransaction. apply steady_create_callback.
Qed.

Lemma apart_update (data id : value) : preserves apart (update data id).
Proof.
  unfold update. apply apart_bind; [apply steady_is_apart, steady_gets | intros prim].
  apply apart_bind.
  { apply steady_is_apart. destruct (truthy id); [apply steady_ret | apply steady_lift]. }
  intros id1. apply apart_bind; [apply steady_is_apart, steady_lift | intros data1].
  apply apart_bind; [apply steady_is_apart, steady_validateData | intros _].
  apply apart_executeTransaction. intro st. apply steady_update_callback.
Qed.

Lemma apart_delete (id : value) : preserves apart (delete id).
Proof.
  unfold delete. apply apart_executeTransaction. intro st. apply steady_delete_callback.
Qed.

Lemma apart_clear : preserves apart clear.
Proof.
  unfold clear. apply apart_executeTransaction. intro st. apply steady_ret.
Qed.

Lemma apart_delete_each (ids : list value) : preserves apart (delete_each ids).
Proof.
  induction ids as [|id ids IH]; simpl; [apply steady_is_apart, steady_ret|].
  intro m. pose proof (apart_delete id m) as H1.
  destruct (delete id m) as [m1 r]; simpl in H1.
  pose proof (IH m1) as H2.
  destruct (delete_each ids m1) as [m2 [rs|e|]]; simpl in *;
    now apply (apart_trans _ _ _ H1 H2).
Qed.

Lemma apart_deleteMany (query : value) : preserves apart (deleteMany query).
Proof.
  unfold deleteMany. apply apart_bind; [apply steady_is_apart, steady_find | intros items].
  apply apart_bind; [apply steady_is_apart, steady_gets | intros prim].
  apply apart_bind; [apply apart_delete_each | intros deleted].
  apply steady_is_apart, steady_lift.
Qed.

(** X3.  [create], [update], [delete], [clear] and [deleteMany] never change
    the records of a collection other than the active one, whatever their
    arguments and whether they resolve or not. *)
Theorem writes_stay_in_the_active_collection (data id query : value) (cts : bool)
    (m : Model) (coll : string) :
  coll <> activeCollection m ->
  records (fst (create data cts m)) coll = records m coll /\
  records (fst (update data id m)) coll = records m coll /\
  records (fst (delete id m)) coll = records m coll /\
  records (fst (clear m)) coll = records m coll /\
  records (fst (deleteMany query m)) coll = records m coll.
Proof.
  intro Hne.
  split; [now apply (apart_create data cts m)|].
  split; [now apply (apart_update data id m)|].
  split; [now apply (apart_delete id m)|].
  split; [now apply (apart_clear m) | now apply (apart_deleteMany query m)].
Qed.

Lemma existsb_find_none {A : Type} (f : A -> bool) (l : list A) :
  existsb f l = false <-> List.find f l = None.
Proof.
  induction l as [|x l IH]; simpl; [tauto|].
  destruct (f x); simpl; [split; discriminate | exact IH].
Qed.

Lemma length_store_insert (keyPath k : string) (r : obj) (st : store) :
  List.find (has_key keyPath k) st = None ->
  List.length (store_insert keyPath k r st) = S (List.length st).
Proof.
  induction st as [|r' st IH]; simpl; [reflexivity|].
  unfold has_key at 1. destruct (key_of keyPath r') as [k'|] eqn:Hk'.
  - destruct (String.eqb_spec k' k) as [->|Hne]; [discriminate|].
    intro H. destruct (String.ltb k k'); simpl; [reflexivity | now rewrite IH].
  - intro H. simpl. now rewrite IH.
Qed.

Lemma bind_cases {A B : Type} (c : M A) (k : A -> M B) (m m' : Model) (o : outcome B) :
  bind c k m = (m', o) ->
  (exists m1 a, c m = (m1, Resolved a) /\ k a m1 = (m', o)) \/
  (exists o1, c m = (m', o1) /\ (forall a, o1 <> Resolved a) /\
              forall b, o <> Resolved b).
Proof.
  unfold bind. destruct (c m) as [m1 [a|e|]] eqn:E.
  - intro H. left. now exists m1, a.
  - intro H. injection H as <- <-. right. exists (Rejected e).
    repeat split; intros; discriminate.
  - intro H. injection H as <- <-. right. exists Pending.
    repeat split; intros; discriminate.
Qed.

Lemma store_add_resolved (keyPath : string) (st st' : store) (record : value) :
  store_add keyPath st record = Resolved st' ->
  exists r k, record = VObj r /\ key_of keyPath r = Some k /\
              List.find (has_key keyPath k) st = None /\
              st' = store_insert keyPath k r st.
Proof.
  unfold store_add. destruct record as [| |b|n|s|t|l|r]; try discriminate.
  destruct (key_of keyPath r) as [k|] eqn:Hk; [|discriminate].
  destruct (existsb (has_key keyPath k) st) eqn:He; [discriminate|].
  intro H. injection H as <-. exists r, k.
  repeat split; try assumption. now apply existsb_find_none.
Qed.

Lemma create_cases (data : value) (cts : bool) (m m' : Model) (o : outcome value) :
  create data cts m = (m', o) ->
  match o with
  | Resolved created =>
      exists k record,
        key_of (primary m) record = Some k /\
        List.find (has_key (primary m) k) (records m (activeCollection m)) = None /\
        db m' = true /\ activeCollection m' = activeCollection m /\
        primary m' = primary m /\
        active_store m' =
          Some (store_insert (primary m) k record (records m (activeCollection m)))
  | _ => records m' (activeCollection m) = records m (activeCollection m)
  end.
Proof.
  unfold create. intro H.
  assert (H1 : preserves steady
                 (if cts then p <- _prepare data ;; ret (VObj p) else ret data)).
  { destruct cts; [|apply steady_ret].
    apply steady_bind; [apply steady_prepare | intros p; apply steady_ret]. }
  specialize (H1 m).
  apply bind_cases in H.
  destruct H as [(ma & data1 & E1 & H)|(o1 & E1 & _ & Hno)].
  2:{ rewrite E1 in H1. simpl in H1. destruct H1 as (_ & _ & _ & _ & _ & Hr & _).
      destruct o as [c|e|]; [now destruct (Hno c) | apply Hr | apply Hr]. }
  rewrite E1 in H1. simpl in H1.
  pose proof (steady_validateData data1 OpCreate VUndefined ma) as H2.
  apply bind_cases in H.
  destruct H as [(mb & data2 & E2 & H)|(o1 & E2 & _ & Hno)].
  2:{ rewrite E2 in H2. simpl in H2.
      destruct (steady_trans _ _ _ H1 H2) as (_ & _ & _ & _ & _ & Hr & _).
      destruct o as [c|e|]; [now destruct (Hno c) | apply Hr | apply Hr]. }
  rewrite E2 in H2. simpl in H2.
  pose proof (steady_trans _ _ _ H1 H2) as H12.
  pose proof (executeTransaction_effect _ mb (steady_create_callback data2 cts)) as H3.
  cbv beta in H3. rewrite H in H3. simpl in H3.
  destruct H12 as (Ha & Hp & _ & _ & _ & Hr & _).
  destruct o as [created|e|].
  2,3: destruct H3 as (Ha3 & _ & _ & _ & _ & Hr3 & _); rewrite <- Ha, Hr3; apply Hr.
  destruct H3 as (m0 & m1 & st' & H0 & H01 & Hdb0 & Hst0 & Hrun & Hfst).
  subst m'. rewrite Hr, Ha in Hst0. rewrite Hr, Ha in Hrun.
  set (st := records m (activeCollection m)) in *.
  apply bind_resolved in Hrun. destruct Hrun as [mx [record [Hrec Hrun]]].
  assert (Hx : steady m0 mx).
  { assert (Hs : preserves steady
                   (if negb cts then p <- _prepare data2 ;; ret (VObj p) else ret data2)).
    { destruct (negb cts); [|apply steady_ret].
      apply steady_bind; [apply steady_prepare | intros p; apply steady_ret]. }
    specialize (Hs m0). now rewrite Hrec in Hs. }
  apply bind_resolved in Hrun. destruct Hrun as [my [prim [Hprim Hrun]]].
  unfold gets in Hprim. injection Hprim as <- <-.
  apply bind_resolved in Hrun. destruct Hrun as [mz [st'' [Hadd Hrun]]].
  apply bind_resolved in Hrun. destruct Hrun as [mw [ixs [Hix Hrun]]].
  unfold gets in Hix. injection Hix as <- <-.
  destruct (violates_unique _ _ _ _); [discriminate|].
  unfold ret in Hrun. injection Hrun as <- <-.
  unfold lift in Hadd. injection Hadd as <- Hadd.
  assert (Hpx : primary mx = primary m).
  { destruct H0 as (_ & Hp0 & _), Hx as (_ & Hpx & _). congruence. }
  assert (Hax : activeCollection mx = activeCollection m).
  { destruct H0 as (Ha0 & _), Hx as (Hax & _). congruence. }
  rewrite Hpx in Hadd.
  apply store_add_resolved in Hadd.
  destruct Hadd as (r & k & -> & Hk & Hfree & ->).
  exists k, r. split; [exact Hk|]. split; [exact Hfree|].
  split; [exact (steady_db _ _ Hx Hdb0)|].
  split; [exact Hax|]. split; [exact Hpx|].
  apply committed_active with (st := st).
  apply (steady_active m0 mx); assumption.
Qed.

(** X4.  [create] adds one record or none.  When it resolves, the active
    collection holds exactly one more record, stored under a key that was
    free, and every other key reads as before; when it does not, the records
    of the active collection are as before. *)
Theorem create_adds_one_record_or_none (data : value) (cts : bool) (m : Model) :
  let before := records m (activeCollection m) in
  let after := records (fst (create data cts m)) (activeCollection m) in
  match snd (create data cts m) with
  | Resolved created =>
      exists k record,
        key_of (primary m) record = Some k /\
        List.find (has_key (primary m) k) before = None /\
        List.find (has_key (primary m) k) after = Some record /\
        (forall k', k' <> k ->
                    List.find (has_key (primary m) k') after =
                    List.find (has_key (primary m) k') before) /\
        List.length after = S (List.length before)
  | _ => after = before
  end.
Proof.
  intros before after. unfold after, before. clear before after.
  pose proof (create_cases data cts m) as H.
  destruct (create data cts m) as [m' o]. specialize (H m' o eq_refl).
  simpl. destruct o as [created|e|]; try exact H.
  destruct H as (k & record & Hk & Hfree & _ & Ha & _ & Hst).
  apply active_records in Hst. rewrite Ha in Hst. rewrite Hst.
  exists k, record. split; [exact Hk|]. split; [exact Hfree|].
  split; [now apply find_insert_same|].
  split; [intros k' Hne; now apply find_insert_other|].
  now apply length_store_insert.
Qed.


Lemma findById_connected (id fields : value) (m : Model) (st : store) :
  db m = true ->
  active_store m = Some st ->
  findById id fields m =
  (m, match store_get (primary m) st id with
      | Resolved None => Resolved VUndefined
      | Resolved (Some result) =>
          Resolved (VObj (if negb (truthy fields) then result
                          else select_fields fields result))
      | Rejected e => Rejected e
      | Pending => Pending
      end).
Proof.
  intros Hdb Hst. unfold findById.
  rewrite (executeTransaction_connected _ m st Hdb Hst).
  unfold bind at 1. unfold gets at 1. cbv iota beta.
  unfold bind at 1. unfold lift at 1.
  destruct (store_get (primary m) st id) as [[result|]|e|]; try reflexivity.
  - destruct (negb (truthy fields)); unfold ret; fold (committed m st);
      now rewrite (committed_same m st Hst).
  - unfold ret. fold (committed m st). now rewrite (committed_same m st Hst).
Qed.


Lemma delete_connected (id : value) (m : Model) (st : store) :
  db m = true ->
  active_store m = Some st ->
  delete id m =
  match store_delete (primary m) st id with
  | Resolved st' => (committed m st', Resolved id)
  | Rejected e => (m, Rejected e)
  | Pending => (m, Pending)
  end.
Proof.
  intros Hdb Hst. unfold delete.
  rewrite (executeTransaction_connected _ m st Hdb Hst).
  unfold bind at 1. unfold gets at 1. cbv iota beta.
  unfold bind at 1. unfold lift at 1.
  destruct (store_delete (primary m) st id); reflexivity.
Qed.

Lemma count_connected (m : Model) (st : store) :
  db m = true ->
  active_store m = Some st ->
  count m = (m, Resolved (VNum (Fin (Z.of_nat (List.length st))))).
Proof.
  intros Hdb Hst. unfold count.
  rewrite (executeTransaction_connected _ m st Hdb Hst).
  unfold ret. fold (committed m st). now rewrite (committed_same m st Hst).
Qed.

Lemma clear_connected (m : Model) (st : store) :
  db m = true ->
  active_store m = Some st ->
  clear m = (committed m [], Resolved (VBool true)).
Proof.
  intros Hdb Hst. unfold clear.
  now rewrite (executeTransaction_connected _ m st Hdb Hst).
Qed.

Lemma find_filter_same (keyPath k : string) (st : store) :
  List.find (has_key keyPath k) (filter (fun r => negb (has_key keyPath k r)) st) = None.
Proof.
  induction st as [|r st IH]; simpl; [reflexivity|].
  destruct (has_key keyPath k r) eqn:E; simpl; [exact IH|].
  now rewrite E.
Qed.

Lemma find_filter_other (keyPath k k' : string) (st : store) :
  k' <> k ->
  List.find (has_key keyPath k') (filter (fun r => negb (has_key keyPath k r)) st) =
  List.find (has_key keyPath k') st.
Proof.
  intro Hne. induction st as [|r st IH]; simpl; [reflexivity|].
  destruct (has_key keyPath k r) eqn:E; simpl.
  - destruct (has_key keyPath k' r) eqn:E'; [|exact IH].
    apply has_key_of in E, E'. congruence.
  - now rewrite IH.
Qed.

(** X6.  Delete, then look up.  On a connected engine [delete(k)] of a
    string key resolves with [k]; afterwards [findById(k)] resolves with
    undefined, and [findById] of any other key gives what it gave before. *)
Theorem deleted_record_is_no_longer_found (m : Model) (st : store) (k : string) :
  db m = true ->
  active_store m = Some st ->
  snd (delete (VStr k) m) = Resolved (VStr k) /\
  snd (findById (VStr k) VNull (fst (delete (VStr k) m))) = Resolved VUndefined /\
  (forall k' fields,
      k' <> k ->
      snd (findById (VStr k') fields (fst (delete (VStr k) m))) =
      snd (findById (VStr k') fields m)).
Proof.
  intros Hdb Hst. rewrite (delete_connected _ m st Hdb Hst).
  unfold store_delete. simpl valid_key. cbv iota. simpl fst. simpl snd.
  set (st' := filter (fun r => negb (has_key (primary m) k r)) st).
  assert (Hst' : active_store (committed m st') = Some st')
    by now apply (committed_active m st).
  split; [reflexivity|]. split.
  - rewrite (findById_connected _ _ (committed m st') st' Hdb Hst'). simpl.
    unfold st'. now rewrite find_filter_same.
  - intros k' fields Hne.
    rewrite (findById_connected _ _ (committed m st') st' Hdb Hst'),
            (findById_connected _ _ m st Hdb Hst).
    simpl. unfold st'. now rewrite find_filter_other.
Qed.


Lemma length_filter_one (keyPath k : string) (st : store) (r : obj) :
  NoDup (map (key_of keyPath) st) ->
  List.find (has_key keyPath k) st = Some r ->
  S (List.length (filter (fun r0 => negb (has_key keyPath k r0)) st)) = List.length st.
Proof.
  induction st as [|r0 st IH]; simpl; [discriminate|].
  intros Hnd Hfind. inversion Hnd as [|? ? Hnotin Hnd']; subst.
  destruct (has_key keyPath k r0) eqn:E; simpl.
  - f_equal. f_equal.
    apply has_key_of in E.
    assert (Hnone : List.find (has_key keyPath k) st = None).
    { destruct (List.find (has_key keyPath k) st) as [r1|] eqn:F; [|reflexivity].
      apply find_some in F. destruct F as [Hin Hk1]. apply has_key_of in Hk1.
      exfalso. apply Hnotin. rewrite E, <- Hk1. now apply in_map. }
    now apply filter_absent_key.
  - f_equal. now apply IH.
Qed.

(** X7.  [count] follows the writes.  On a connected engine [count] resolves
    with the number of records of the active collection; it is one more
    after a [create] that resolved, one less after the [delete] of a stored
    key (keys being distinct), and zero after [clear], which resolves with
    [true] and after which [find] returns no record. *)
Theorem count_follows_the_writes (m : Model) (st : store) :
  db m = true ->
  active_store m = Some st ->
  snd (count m) = Resolved (VNum (Fin (Z.of_nat (List.length st)))) /\
  (forall data cts m1 created,
      create data cts m = (m1, Resolved created) ->
      snd (count m1) = Resolved (VNum (Fin (Z.of_nat (List.length st) + 1)))) /\
  (forall k r,
      NoDup (map (key_of (primary m)) st) ->
      List.find (has_key (primary m) k) st = Some r ->
      snd (count (fst (delete (VStr k) m))) =
        Resolved (VNum (Fin (Z.of_nat (List.length st) - 1)))) /\
  snd (clear m) = Resolved (VBool true) /\
  snd (count (fst (clear m))) = Resolved (VNum (Fin 0)) /\
  snd (find VUndefined (fst (clear m))) = Resolved [].
Proof.
  intros Hdb Hst.
  split; [now rewrite (count_connected m st)|].
  split; [|split].
  - intros data cts m1 created Hrun.
    pose proof (create_cases data cts m m1 _ Hrun) as H. simpl in H.
    destruct H as (k & record & Hk & Hfree & Hdb1 & _ & _ & Hst1).
    rewrite (active_records _ _ Hst) in Hst1, Hfree.
    rewrite (count_connected m1 _ Hdb1 Hst1). simpl.
    rewrite (length_store_insert _ _ _ _ Hfree). do 3 f_equal. lia.
  - intros k r Hnd Hfind.
    rewrite (delete_connected _ m st Hdb Hst).
    unfold store_delete. simpl valid_key. cbv iota. simpl fst.
    set (st' := filter (fun r0 => negb (has_key (primary m) k r0)) st).
    assert (Hst' : active_store (committed m st') = Some st')
      by now apply (committed_active m st).
    rewrite (count_connected (committed m st') st' Hdb Hst'). simpl.
    pose proof (length_filter_one _ _ _ _ Hnd Hfind) as Hlen. fold st' in Hlen.
    do 3 f_equal. lia.
  - rewrite (clear_connected m st Hdb Hst). simpl fst. simpl snd.
    assert (Hst' : active_store (committed m []) = Some [])
      by now apply (committed_active m st).
    split; [reflexivity|]. split.
    + now rewrite (count_connected (committed m []) [] Hdb Hst').
    + now rewrite (find_undefined_connected (committed m []) [] Hdb Hst').
Qed.

(** X8.  [update] called with a falsy id (undefined, null, the empty string,
    0) behaves as [update] called with the primary the data carries; when
    the data carries no truthy primary either, it is rejected with the error
    that the primary key is required, and the engine is as it was. *)
Theorem update_reads_a_missing_id_from_the_data (m : Model) (data : obj) (id : value) :
  truthy id = false ->
  update (VObj data) id m = update (VObj data) (get data (primary m)) m /\
  (truthy (get data (primary m)) = false ->
   update (VObj data) id m = (m, Rejected PrimaryRequired)).
Proof.
  intro Hid. split.
  - unfold update. unfold bind at 1. unfold bind at 4. unfold gets.
    cbv iota beta. rewrite Hid.
    destruct (truthy (get data (primary m))); reflexivity.
  - intro Hnone. unfold update. unfold bind at 1. unfold gets at 1. cbv iota beta.
    rewrite Hid. unfold bind at 1. unfold lift at 1. simpl get_prop. cbv iota beta.
    unfold bind at 1. unfold lift at 1. simpl delete_prop. cbv iota beta.
    unfold bind at 1. unfold _validateData. unfold bind at 1. rewrite Hnone.
    reflexivity.
Qed.

(** A required field the data lacks is reported by the validation of that
    field, if the validation comes to an end. *)
Lemma validate_field_required (o : obj) (op : operation) (f : string) (d : definition)
    (m m' : Model) (es : list verror) :
  def_required d = true ->
  has o f = false ->
  validate_field (VObj o) op (f, d) m = (m', Resolved es) ->
  In (FieldRequired f) es.
Proof.
  intros Hreq Hhas. unfold validate_field. rewrite Hreq.
  intro H. apply bind_resolved in H. destruct H as (m1 & e1 & H1 & H).
  unfold bind at 1 in H1. unfold lift at 1 in H1.
  destruct (hasOwnProperty (VObj o) f) as [b|e|] eqn:Eh; cbv iota beta in H1;
    try discriminate.
  pose proof (hasOwnProperty_hidden o f b Eh) as Hown.
  rewrite (hasOwnProperty_own o f Hown) in Eh. injection Eh as <-.
  rewrite Hhas in H1. unfold ret in H1. injection H1 as <- <-.
  apply bind_resolved in H. destruct H as (m2 & unique & _ & H).
  apply bind_resolved in H. destruct H as (m3 & e2 & _ & H).
  apply bind_resolved in H. destruct H as (m4 & h & _ & H).
  apply bind_resolved in H. destruct H as (m5 & v & _ & H).
  apply bind_resolved in H. destruct H as (m6 & e3 & _ & H).
  unfold ret in H. injection H as _ <-. now left.
Qed.

Lemma validate_fields_required (o : obj) (op : operation)
    (entries : list (string * definition)) :
  forall (errors : list verror) (m m' : Model) (es : list verror),
    validate_fields (VObj o) op entries errors m = (m', Resolved es) ->
    incl errors es /\
    forall f d, In (f, d) entries -> def_required d = true -> has o f = false ->
                In (FieldRequired f) es.
Proof.
  induction entries as [|[f0 d0] entries IH]; intros errors m m' es H.
  - simpl in H. unfold ret in H. injection H as _ <-.
    split; [apply incl_refl | intros f d []].
  - cbn [validate_fields] in H.
    apply bind_resolved in H. destruct H as (m1 & es1 & H1 & H).
    destruct (IH _ _ _ _ H) as [Hincl Hreq].
    split.
    + intros e He. apply Hincl, in_or_app. now left.
    + intros f d [Hin|Hin] Hr Hh.
      * injection Hin as <- <-. apply Hincl, in_or_app. right.
        now apply (validate_field_required o op f0 d0 m m1).
      * now apply (Hreq f d).
Qed.

Lemma prepare_entries_lacks (f : string) (entries : obj) :
  forall (acc : obj) (m m' : Model) (prepared : obj),
    lookup f entries = None ->
    _prepare_entries entries acc m = (m', Resolved prepared) ->
    lookup f prepared = lookup f acc.
Proof.
  induction entries as [|[key v] entries IH]; intros acc m m' prepared Hf H.
  - simpl in H. unfold ret in H. now injection H as _ <-.
  - simpl in Hf. destruct (String.eqb_spec key f) as [->|Hne]; [discriminate|].
    cbn [_prepare_entries] in H.
    apply bind_resolved in H. destruct H as (m1 & d & _ & H).
    destruct d as [definition|].
    2:{ destruct (inherited key); [|now apply (IH _ _ _ _ Hf H)].
        apply bind_resolved in H. destruct H as (m2 & c & _ & H).
        now rewrite (IH _ _ _ _ Hf H), lookup_assign_other. }
    apply bind_resolved in H. destruct H as (m2 & ty & _ & H).
    apply bind_resolved in H. destruct H as (m3 & c & _ & H).
    now rewrite (IH _ _ _ _ Hf H), lookup_assign_other.
Qed.

Lemma has_lookup (o : obj) (f : string) : has o f = false <-> lookup f o = None.
Proof. unfold has. destruct (lookup f o); split; congruence. Qed.

(** The validation of an update whose data lack a required field. *)
Lemma validateData_update_required (o : obj) (id : value) (m : Model) (f : string)
    (d : definition) :
  In (f, d) (sdefinition (schema m)) ->
  def_required d = true ->
  has o f = false ->
  fst (_validateData (VObj o) OpUpdate id m) = m /\
  match snd (_validateData (VObj o) OpUpdate id m) with
  | Resolved _ => False
  | Rejected (ValidationFailed errs) => In (FieldRequired f) errs
  | _ => True
  end.
Proof.
  intros Hin Hreq Hhas. split; [apply validateData_update_stateless|].
  unfold _validateData. unfold bind at 1.
  destruct (truthy id); simpl; [|exact I].
  unfold bind at 1. unfold gets at 1. cbv iota beta. unfold bind at 1.
  pose proof (validate_fields_update_outcome (VObj o) (sdefinition (schema m)) [] m
                (fun _ H => H)) as Hout.
  pose proof (validate_fields_required o OpUpdate (sdefinition (schema m)) [] m) as Hall.
  destruct (validate_fields (VObj o) OpUpdate (sdefinition (schema m)) [] m)
    as [m1 [es|e|]]; simpl in *.
  - destruct (Hall m1 es eq_refl) as [_ Hr]. specialize (Hr f d Hin Hreq Hhas).
    destruct es as [|e0 es]; [destruct Hr | exact Hr].
  - destruct e; try exact I. contradiction.
  - exact I.
Qed.

(** The validation of a create whose data lack a required field. *)
Lemma validateData_create_required (o : obj) (m : Model) (f : string) (d : definition) :
  In (f, d) (sdefinition (schema m)) ->
  def_required d = true ->
  f <> primary m ->
  has o f = false ->
  forall data, snd (_validateData (VObj o) OpCreate VUndefined m) <> Resolved data.
Proof.
  intros Hin Hreq Hne Hhas data. unfold _validateData.
  destruct (validate_prelude_create o m) as [m1 [Hpre Hsame]].
  unfold bind at 1. rewrite Hpre. cbv iota beta.
  unfold bind at 1. unfold gets at 1. cbv iota beta. unfold bind at 1.
  destruct Hsame as (Hs & _).
  pose proof (validate_fields_required (with_primary m o) OpCreate
                (sdefinition (schema m1)) [] m1) as Hall.
  destruct (validate_fields (VObj (with_primary m o)) OpCreate
              (sdefinition (schema m1)) [] m1) as [m2 [es|e|]]; simpl; try discriminate.
  destruct (Hall m2 es eq_refl) as [_ Hr].
  assert (Hw : has (with_primary m o) f = false).
  { unfold with_primary. destruct (truthy (get o (primary m))); [exact Hhas|].
    apply has_lookup. rewrite lookup_set.
    destruct (String.eqb_spec (primary m) f); [congruence | now apply has_lookup]. }
  rewrite Hs in Hr. specialize (Hr f d Hin Hreq Hw).
  destruct es as [|e0 es]; [destruct Hr | discriminate].
Qed.

(** X9.  A required field is demanded of every write.  When the schema
    declares [f] required ([f] not being the primary) and the data have no
    property [f], [create] does not resolve and leaves the records of every
    collection as they were; [update] leaves the engine exactly as it was
    and does not resolve either, although the stored record may have the
    field, and when it is rejected for validation the errors name [f] as
    required. *)
Theorem required_fields_are_demanded (o : obj) (id : value) (cts : bool) (m : Model)
    (f : string) (d : definition) :
  In (f, d) (sdefinition (schema m)) ->
  def_required d = true ->
  f <> primary m ->
  has o f = false ->
  (forall created, snd (create (VObj o) cts m) <> Resolved created) /\
  (forall coll, records (fst (create (VObj o) cts m)) coll = records m coll) /\
  fst (update (VObj o) id m) = m /\
  match snd (update (VObj o) id m) with
  | Resolved _ => False
  | Rejected (ValidationFailed errs) => In (FieldRequired f) errs
  | _ => True
  end.
Proof.
  intros Hin Hreq Hne Hhas.
  assert (Hcreate : forall created, snd (create (VObj o) cts m) <> Resolved created).
  { intros created Hc.
    destruct (create (VObj o) cts m) as [m' out] eqn:E. simpl in Hc. subst out.
    unfold create in E.
    apply bind_resolved in E. destruct E as (m1 & data1 & E1 & E).
    apply bind_resolved in E. destruct E as (m2 & data2 & E2 & _).
    assert (H1 : steady m m1 /\ exists o1, data1 = VObj o1 /\ has o1 f = false).
    { destruct cts.
      - apply bind_resolved in E1. destruct E1 as (ma & p & Ep & E1).
        unfold ret in E1. injection E1 as <- <-.
        pose proof (steady_prepare (VObj o) m) as Hs. rewrite Ep in Hs.
        split; [exact Hs|]. exists p. split; [reflexivity|].
        unfold _prepare in Ep. unfold bind at 1 in Ep. unfold lift at 1 in Ep.
        simpl Object_entries in Ep. cbv iota beta in Ep.
        apply has_lookup. rewrite (prepare_entries_lacks f o [] m ma p); [reflexivity| |exact Ep].
        now apply has_lookup.
      - unfold ret in E1. injection E1 as <- <-.
        split; [apply steady_refl|]. now exists o. }
    destruct H1 as ((_ & Hp & Hs & _) & o1 & -> & Ho1).
    apply (validateData_create_required o1 m1 f d) with (data := data2).
    - now rewrite Hs.
    - exact Hreq.
    - now rewrite Hp.
    - exact Ho1.
    - now rewrite E2. }
  split; [exact Hcreate|]. split.
  { intro coll. pose proof (create_cases (VObj o) cts m) as Hc.
    pose proof (apart_create (VObj o) cts m) as (_ & _ & Ha).
    destruct (create (VObj o) cts m) as [m' out] eqn:E.
    specialize (Hc m' out eq_refl). simpl in *.
    destruct (String.eqb_spec coll (activeCollection m)) as [->|Hc'];
      [|now apply Ha].
    destruct out as [created|e|]; [now destruct (Hcreate created) | exact Hc | exact Hc]. }
  set (id1 := if truthy id then id else get o (primary m)).
  assert (Hid : (if truthy id then ret id else lift (get_prop (VObj o) (primary m))) m =
                (m, Resolved id1)).
  { unfold id1. destruct (truthy id); reflexivity. }
  assert (Hhas' : has (remove o (primary m)) f = false).
  { apply has_lookup. rewrite lookup_remove.
    destruct (primary m =? f)%string; [reflexivity | now apply has_lookup]. }
  destruct (validateData_update_required (remove o (primary m)) id1 m f d Hin Hreq Hhas')
    as [Hfst Hsnd].
  destruct (update (VObj o) id m) as [m' out] eqn:E. simpl fst. simpl snd.
  unfold update in E. unfold bind at 1 in E. unfold gets at 1 in E. cbv iota beta in E.
  unfold bind at 1 in E. rewrite Hid in E. cbv iota beta in E.
  unfold bind at 1 in E. unfold lift at 1 in E. simpl delete_prop in E.
  cbv iota beta in E. unfold bind at 1 in E.
  destruct (_validateData (VObj (remove o (primary m))) OpUpdate id1 m) as [m1 [a|e|]];
    simpl in Hfst, Hsnd.
  - destruct Hsnd.
  - injection E as <- <-. split; [exact Hfst | exact Hsnd].
  - injection E as <- <-. split; [exact Hfst | exact I].
Qed.

Lemma Promise_all_resolved {A : Type} (l : list A) :
  Promise_all (map Resolved l) = Resolved l.
Proof. induction l as [|a l IH]; simpl; [reflexivity | now rewrite IH]. Qed.

Lemma key_of_get (keyPath k : string) (r : obj) :
  key_of keyPath r = Some k -> get r keyPath = VStr k.
Proof.
  unfold key_of. destruct (get r keyPath); try discriminate. congruence.
Qed.

Lemma filter_filter {A : Type} (f g : A -> bool) (l : list A) :
  filter f (filter g l) = filter (fun x => g x && f x) l.
Proof.
  induction l as [|x l IH]; simpl; [reflexivity|].
  destruct (g x); simpl; [|exact IH].
  destruct (f x); [now rewrite IH | exact IH].
Qed.

(** Deleting the records [items] one after the other. *)
Lemma delete_each_connected (items : list obj) :
  forall (m : Model) (st : store),
    db m = true ->
    active_store m = Some st ->
    (forall r, In r items -> key_of (primary m) r <> None) ->
    exists m',
      delete_each (map (fun item => get item (primary m)) items) m =
        (m', Resolved (map (fun item => Resolved (get item (primary m))) items)) /\
      db m' = true /\ primary m' = primary m /\
      activeCollection m' = activeCollection m /\
      active_store m' =
        Some (filter (fun r => negb (existsb (fun item =>
                                               match key_of (primary m) item with
                                               | Some k => has_key (primary m) k r
                                               | None => false
                                               end) items)) st).
Proof.
  induction items as [|item items IH]; intros m st Hdb Hst Hkeys.
  - exists m. simpl. repeat split; try assumption.
    rewrite Hst. f_equal. clear. induction st as [|r st IHst]; simpl; [reflexivity|].
    now rewrite <- IHst at 1.
  - destruct (key_of (primary m) item) as [k|] eqn:Hk;
      [|now destruct (Hkeys item (or_introl eq_refl))].
    simpl map. cbn [delete_each].
    rewrite (key_of_get _ _ _ Hk).
    rewrite (delete_connected _ m st Hdb Hst).
    unfold store_delete. simpl valid_key. cbv iota.
    set (st1 := filter (fun r => negb (has_key (primary m) k r)) st).
    assert (Hst1 : active_store (committed m st1) = Some st1)
      by now apply (committed_active m st).
    destruct (IH (committed m st1) st1 Hdb Hst1) as (m' & Hrun & Hdb' & Hp' & Ha' & Hst').
    { intros r Hin. apply Hkeys. now right. }
    simpl primary in Hrun, Hp', Hst'. simpl activeCollection in Ha'.
    exists m'. rewrite Hrun. repeat split; try assumption.
    rewrite Hst'. f_equal. unfold st1. rewrite filter_filter.
    apply filter_ext. intro r. simpl existsb. rewrite Hk, negb_orb. reflexivity.
Qed.

Lemma deleteMany_connected (arg : value) (m : Model) (st : store) (items : list obj) :
  db m = true ->
  active_store m = Some st ->
  find arg m = (m, Resolved items) ->
  (forall r, In r items -> key_of (primary m) r <> None) ->
  exists m',
    deleteMany arg m = (m', Resolved (map (fun item => get item (primary m)) items)) /\
    db m' = true /\
    active_store m' =
      Some (filter (fun r => negb (existsb (fun item =>
                                             match key_of (primary m) item with
                                             | Some k => has_key (primary m) k r
                                             | None => false
                                             end) items)) st).
Proof.
  intros Hdb Hst Hfind Hkeys. unfold deleteMany.
  unfold bind at 1. rewrite Hfind. cbv iota beta.
  unfold bind at 1. unfold gets at 1. cbv iota beta.
  destruct (delete_each_connected items m st Hdb Hst Hkeys)
    as (m' & Hrun & Hdb' & _ & _ & Hst').
  unfold bind at 1. rewrite Hrun. cbv iota beta. unfold lift.
  rewrite <- (map_map (fun item => get item (primary m)) Resolved).
  rewrite Promise_all_resolved. exists m'. split; [reflexivity|]. split; assumption.
Qed.

(** X10.  [deleteMany] passes its argument to [find].  On a connected engine
    whose records all have a key, [deleteMany] called with an object whose
    [query] and [fields] are falsy (so also with the clauses themselves, as
    in [deleteMany({age: 30})]) resolves with the keys of all records and
    leaves the active collection empty. *)
Theorem deleteMany_without_query_deletes_every_record (m : Model) (st : store)
    (arg : obj) :
  db m = true ->
  active_store m = Some st ->
  (forall r, In r st -> key_of (primary m) r <> None) ->
  truthy (get arg "query") = false ->
  truthy (get arg "fields") = false ->
  snd (deleteMany (VObj arg) m) = Resolved (map (fun r => get r (primary m)) st) /\
  active_store (fst (deleteMany (VObj arg) m)) = Some [].
Proof.
  intros Hdb Hst Hkeys Hq Hf.
  pose proof (find_everything_connected m st arg Hdb Hst Hq Hf) as Hfind.
  destruct (deleteMany_connected (VObj arg) m st st Hdb Hst Hfind Hkeys)
    as (m' & Hres & _ & Hstore).
  rewrite Hres. split; [reflexivity|]. simpl fst. rewrite Hstore. f_equal.
  apply (proj2 (List.Forall_forall _ _)) in Hkeys.
  assert (Hall : forall r, In r st ->
            existsb (fun item => match key_of (primary m) item with
                                 | Some k => has_key (primary m) k r
                                 | None => false
                                 end) st = true).
  { intros r Hin. apply existsb_exists. exists r. split; [exact Hin|].
    rewrite Forall_forall in Hkeys. specialize (Hkeys r Hin).
    destruct (key_of (primary m) r) as [k|] eqn:Hk; [|congruence].
    now apply has_key_of. }
  clear - Hall. 
  assert (H : forall l, (forall r, In r l -> In r st) ->
            filter (fun r => negb (existsb (fun item =>
                                    match key_of (primary m) item with
                                    | Some k => has_key (primary m) k r
                                    | None => false
                                    end) st)) l = []).
  { induction l as [|r l IH]; intro Hsub; simpl; [reflexivity|].
    rewrite (Hall r (Hsub r (or_introl eq_refl))). simpl.
    apply IH. intros r' Hin. apply Hsub. now right. }
  now apply H.
Qed.


End WithRuntime.

Lemma writes_stay_in_the_active_collection_witness :
  "orders" <> activeCollection shop /\
  records (fst (clear shop)) "orders" = [order] /\
  records (fst (clear shop)) "users" = [].
Proof.
  assert (H : "orders" <> activeCollection shop) by discriminate.
  exact (conj H (conj
           (proj1 (proj2 (proj2 (proj2
              (writes_stay_in_the_active_collection (rt := Scenario.runtime)
                 VUndefined VUndefined VUndefined false shop "orders" H)))))
           eq_refl)).
Defined.


Lemma deleted_record_is_no_longer_found_witness :
  db Scenario.users = true /\
  active_store Scenario.users = Some [Scenario.john] /\
  snd (findById (rt := Scenario.runtime) (VStr "674fa6419b342e316cbe59da") VNull
         Scenario.users) = Resolved (VObj Scenario.john) /\
  snd (findById (rt := Scenario.runtime) (VStr "674fa6419b342e316cbe59da") VNull
         (fst (delete (VStr "674fa6419b342e316cbe59da")
                 Scenario.users))) = Resolved VUndefined.
Proof.
  assert (H1 : db Scenario.users = true) by reflexivity.
  assert (H2 : active_store Scenario.users = Some [Scenario.john]) by reflexivity.
  exact (conj H1 (conj H2 (conj eq_refl
           (proj1 (proj2 (deleted_record_is_no_longer_found (rt := Scenario.runtime)
                            Scenario.users [Scenario.john]
                            "674fa6419b342e316cbe59da" H1 H2)))))).
Defined.

Lemma count_follows_the_writes_witness :
  db Scenario.users = true /\
  active_store Scenario.users = Some [Scenario.john] /\
  snd (count Scenario.users) = Resolved (VNum (Fin 1)) /\
  snd (count (fst (clear Scenario.users))) =
    Resolved (VNum (Fin 0)).
Proof.
  assert (H1 : db Scenario.users = true) by reflexivity.
  assert (H2 : active_store Scenario.users = Some [Scenario.john]) by reflexivity.
  pose proof (count_follows_the_writes (rt := Scenario.runtime)
                Scenario.users [Scenario.john] H1 H2) as (Hc & _ & _ & _ & Hz & _).
  exact (conj H1 (conj H2 (conj Hc Hz))).
Defined.

Lemma update_reads_a_missing_id_from_the_data_witness :
  truthy VUndefined = false /\
  update (rt := Scenario.runtime) (VObj Scenario.patch) VUndefined Scenario.users =
    update (rt := Scenario.runtime) (VObj Scenario.patch) (VStr "other") Scenario.users /\
  update (rt := Scenario.runtime) (VObj [("age", VNum (Fin 31))]) VUndefined Scenario.users =
    (Scenario.users, Rejected PrimaryRequired).
Proof.
  exact (conj eq_refl (conj
           (proj1 (update_reads_a_missing_id_from_the_data (rt := Scenario.runtime)
                     Scenario.users Scenario.patch VUndefined eq_refl))
           (proj2 (update_reads_a_missing_id_from_the_data (rt := Scenario.runtime)
                     Scenario.users [("age", VNum (Fin 31))] VUndefined eq_refl)
                  eq_refl))).
Defined.

Lemma required_fields_are_demanded_witness :
  In ("name", Scenario.field TString true false) (sdefinition (schema Scenario.users)) /\
  has [("age", VNum (Fin 31))] "name" = false /\
  fst (update (rt := Scenario.runtime) (VObj [("age", VNum (Fin 31))])
         (VStr "674fa6419b342e316cbe59da") Scenario.users) = Scenario.users /\
  snd (update (rt := Scenario.runtime) (VObj [("age", VNum (Fin 31))])
         (VStr "674fa6419b342e316cbe59da") Scenario.users) =
    Rejected (ValidationFailed [FieldRequired "name"]).
Proof.
  assert (H1 : In ("name", Scenario.field TString true false)
                 (sdefinition (schema Scenario.users))) by (left; reflexivity).
  assert (H2 : "name" <> primary Scenario.users) by discriminate.
  exact (conj H1 (conj eq_refl (conj
           (proj1 (proj2 (proj2
              (required_fields_are_demanded (rt := Scenario.runtime)
                 [("age", VNum (Fin 31))] (VStr "674fa6419b342e316cbe59da") false
                 Scenario.users "name" (Scenario.field TString true false)
                 H1 eq_refl H2 eq_refl))))
           eq_refl))).
Defined.

Lemma deleteMany_without_query_deletes_every_record_witness :
  db Scenario.users = true /\
  active_store Scenario.users = Some [Scenario.john] /\
  snd (deleteMany (rt := Scenario.runtime) (VObj [("age", VNum (Fin 31))]) Scenario.users) =
    Resolved [VStr "674fa6419b342e316cbe59da"] /\
  active_store (fst (deleteMany (rt := Scenario.runtime) (VObj [("age", VNum (Fin 31))])
                       Scenario.users)) = Some [].
Proof.
  assert (H1 : db Scenario.users = true) by reflexivity.
  assert (H2 : active_store Scenario.users = Some [Scenario.john]) by reflexivity.
  assert (H3 : forall r, In r [Scenario.john] ->
                         key_of (primary Scenario.users) r <> None).
  { intros r [<-|[]]. discriminate. }
  exact (conj H1 (conj H2
           (deleteMany_without_query_deletes_every_record (rt := Scenario.runtime)
              Scenario.users [Scenario.john] [("age", VNum (Fin 31))]
              H1 H2 H3 eq_refl eq_refl))).
Defined.


End WriteFacts.

(** ** connect, disconnect, refresh *)

Module ConnectFacts.
Import ModelOps SyncOps QuerySpec MonadFacts CastFacts ConstructorFacts DeleteFacts UpdateFacts SyncFacts UniqueFacts FindFacts Frame WriteFacts.
Section WithRuntime.
Context {rt : Runtime}.


Lemma connect_resolved (m : Model) :
  snd (connect m) = Resolved tt ->
  exists v stores ixs,
    0 < v /\ connect m = (with_connection (with_indexes m ixs) v stores, Resolved tt).
Proof.
  unfold connect.
  destruct (indexedDB m) as [[ev d]|];
    destruct (Z.leb_spec (syncVersion m (version m)) 0); try discriminate;
    intros _; eexists; eexists; eexists; split; try reflexivity; assumption.
Qed.

Lemma connect_connected (m : Model) (v : Z) (stores : database) :
  0 < v ->
  connect (with_connection m v stores) = (with_connection m v stores, Resolved tt).
Proof.
  intro Hv. unfold connect, syncVersion. simpl.
  rewrite Z.ltb_irrefl, andb_false_r, Z.ltb_irrefl.
  destruct (Z.leb_spec v 0); [lia | reflexivity].
Qed.



Lemma connect_reopens (m : Model) (v : Z) (stores : database) :
  0 < v ->
  connect (without_handle (with_connection m v stores)) =
  (with_connection m v stores, Resolved tt).
Proof.
  intro Hv. unfold connect, syncVersion. simpl.
  rewrite Z.ltb_irrefl, andb_false_r, Z.ltb_irrefl.
  destruct (Z.leb_spec v 0); [lia | reflexivity].
Qed.

(** X13.  Once [connect] has resolved, a second [connect] and [refresh]
    (disconnect, then connect) both resolve and leave the engine exactly as
    it is; [disconnect] alone drops the connection and keeps the records. *)
Theorem refresh_reopens_the_same_database (m : Model) :
  snd (connect m) = Resolved tt ->
  connect (fst (connect m)) = (fst (connect m), Resolved tt) /\
  refresh (fst (connect m)) = (fst (connect m), Resolved tt) /\
  db (fst (disconnect (fst (connect m)))) = false /\
  (forall coll, records (fst (disconnect (fst (connect m)))) coll =
                records (fst (connect m)) coll).
Proof.
  intro H. destruct (connect_resolved m H) as (v & stores & ixs & Hv & ->). simpl fst.
  split; [now apply connect_connected|].
  split; [|split; [reflexivity | intro coll; reflexivity]].
  unfold refresh, disconnect, bind. simpl db. cbv iota.
  now apply connect_reopens.
Qed.






End WithRuntime.


Lemma refresh_reopens_the_same_database_witness :
  snd (connect Scenario.users) = Resolved tt /\
  refresh (fst (connect Scenario.users)) = (fst (connect Scenario.users), Resolved tt) /\
  db (fst (disconnect (fst (connect Scenario.users)))) = false.
Proof.
  pose proof (refresh_reopens_the_same_database Scenario.users eq_refl)
    as (_ & Hr & Hd & _).
  exact (conj eq_refl (conj Hr Hd)).
Defined.


End ConnectFacts.

(** ** sort and getLastSyncTimestamp *)

Module SortFacts.
Import ModelOps SyncOps QuerySpec MonadFacts CastFacts ConstructorFacts DeleteFacts UpdateFacts SyncFacts UniqueFacts FindFacts Frame WriteFacts ConnectFacts.
Section WithRuntime.
Context {rt : Runtime}.

Lemma sort_compare_key (keyName : string) (isDate asc : bool) (a b : obj) :
  sort_compare keyName isDate asc a b =
  if asc then num_sub (sort_key keyName isDate a) (sort_key keyName isDate b)
  else num_sub (sort_key keyName isDate b) (sort_key keyName isDate a).
Proof. unfold sort_compare, sort_key. destruct asc, isDate; reflexivity. Qed.

Lemma sort_insert_perm (cmp : obj -> obj -> num) (x : obj) (l : list obj) :
  Permutation (x :: l) (sort_insert cmp x l).
Proof.
  induction l as [|y l IH]; simpl; [apply Permutation_refl|].
  destruct (cmp x y) as [|z]; [apply Permutation_refl|].
  destruct (0 <? z); [|apply Permutation_refl].
  eapply Permutation_trans; [apply perm_swap|]. now apply perm_skip.
Qed.

Lemma array_sort_perm (cmp : obj -> obj -> num) (l : list obj) :
  Permutation l (array_sort cmp l).
Proof.
  unfold array_sort. induction l as [|x l IH]; simpl; [apply perm_nil|].
  eapply Permutation_trans; [apply perm_skip, IH | apply sort_insert_perm].
Qed.

Lemma in_order_trans (asc : bool) (x y z : num) :
  in_order asc x y -> in_order asc y z -> in_order asc x z.
Proof.
  unfold in_order. destruct x, y, z, asc; try tauto; lia.
Qed.

Lemma sort_insert_sorted (keyName : string) (isDate asc : bool) (x : obj) (l : list obj) :
  sort_key keyName isDate x <> NaN ->
  (forall r, In r l -> sort_key keyName isDate r <> NaN) ->
  StronglySorted (fun a b => in_order asc (sort_key keyName isDate a)
                                          (sort_key keyName isDate b)) l ->
  StronglySorted (fun a b => in_order asc (sort_key keyName isDate a)
                                          (sort_key keyName isDate b))
                 (sort_insert (sort_compare keyName isDate asc) x l).
Proof.
  intros Hx Hl Hs. induction Hs as [|y l Hs IH Hall]; simpl.
  - constructor; constructor.
  - rewrite sort_compare_key.
    assert (Hy : sort_key keyName isDate y <> NaN) by (apply Hl; now left).
    destruct (sort_key keyName isDate x) as [|kx] eqn:Ex; [congruence|].
    destruct (sort_key keyName isDate y) as [|ky] eqn:Ey; [congruence|].
    assert (Hxy : forall (before : bool),
               (if before then in_order asc (Fin kx) (Fin ky)
                else in_order asc (Fin ky) (Fin kx)) ->
               StronglySorted (fun a b => in_order asc (sort_key keyName isDate a)
                                                       (sort_key keyName isDate b))
                 (if before then x :: y :: l
                  else y :: sort_insert (sort_compare keyName isDate asc) x l)).
    { intros [|] Hord.
      - constructor; [constructor; [exact Hs | now rewrite Ey]|].
        constructor; [now rewrite Ex, Ey|].
        rewrite Forall_forall in *. intros r Hr. specialize (Hall r Hr).
        rewrite Ex.
        now apply (in_order_trans asc (Fin kx) (Fin ky)).
      - constructor.
        + apply IH. intros r Hr. apply Hl. now right.
        + rewrite Forall_forall in *. intros r Hr.
          apply (Permutation_in _ (Permutation_sym (sort_insert_perm _ x l))) in Hr.
          rewrite Ey.
          destruct Hr as [<-|Hr]; [now rewrite Ex | now apply Hall]. }
    destruct asc; unfold num_sub; cbv iota beta.
    + destruct (0 <? kx - ky) eqn:E.
      * apply Z.ltb_lt in E. apply (Hxy false). simpl. lia.
      * apply Z.ltb_ge in E. apply (Hxy true). simpl. lia.
    + destruct (0 <? ky - kx) eqn:E.
      * apply Z.ltb_lt in E. apply (Hxy false). simpl. lia.
      * apply Z.ltb_ge in E. apply (Hxy true). simpl. lia.
Qed.

Lemma sort_insert_stable (keyName : string) (isDate asc : bool) (z : Z) (x : obj)
    (l : list obj) :
  filter (fun r => match sort_key keyName isDate r with
                   | Fin k => k =? z
                   | NaN => false
                   end)
         (sort_insert (sort_compare keyName isDate asc) x l) =
  filter (fun r => match sort_key keyName isDate r with
                   | Fin k => k =? z
                   | NaN => false
                   end) (x :: l).
Proof.
  induction l as [|y l IH]; [reflexivity|].
  cbn [sort_insert]. rewrite sort_compare_key.
  destruct (match (if asc
                   then num_sub (sort_key keyName isDate x) (sort_key keyName isDate y)
                   else num_sub (sort_key keyName isDate y) (sort_key keyName isDate x))
            with Fin d => 0 <? d | NaN => false end) eqn:Hmove.
  - assert (Hne : forall kx ky, sort_key keyName isDate x = Fin kx ->
                                sort_key keyName isDate y = Fin ky -> kx <> ky).
    { intros kx ky Ex Ey. rewrite Ex, Ey in Hmove.
      destruct asc; simpl in Hmove; apply Z.ltb_lt in Hmove; lia. }
    assert (Hfin : exists kx ky, sort_key keyName isDate x = Fin kx /\
                                 sort_key keyName isDate y = Fin ky).
    { destruct (sort_key keyName isDate x) as [|kx], (sort_key keyName isDate y) as [|ky];
        destruct asc; simpl in Hmove; try discriminate; eauto. }
    destruct Hfin as (kx & ky & Ex & Ey). specialize (Hne kx ky Ex Ey).
    replace (match (if asc
                    then num_sub (sort_key keyName isDate x) (sort_key keyName isDate y)
                    else num_sub (sort_key keyName isDate y) (sort_key keyName isDate x))
             with
             | Fin d => if 0 <? d
                        then y :: sort_insert (sort_compare keyName isDate asc) x l
                        else x :: y :: l
             | NaN => x :: y :: l
             end)
      with (y :: sort_insert (sort_compare keyName isDate asc) x l).
    2:{ destruct (if asc
                  then num_sub (sort_key keyName isDate x) (sort_key keyName isDate y)
                  else num_sub (sort_key keyName isDate y) (sort_key keyName isDate x));
          [discriminate | now rewrite Hmove]. }
    cbn [filter]. rewrite IH. cbn [filter]. rewrite Ex, Ey.
    destruct (Z.eqb_spec kx z), (Z.eqb_spec ky z); try reflexivity. lia.
  - replace (match (if asc
                    then num_sub (sort_key keyName isDate x) (sort_key keyName isDate y)
                    else num_sub (sort_key keyName isDate y) (sort_key keyName isDate x))
             with
             | Fin d => if 0 <? d
                        then y :: sort_insert (sort_compare keyName isDate asc) x l
                        else x :: y :: l
             | NaN => x :: y :: l
             end)
      with (x :: y :: l); [reflexivity|].
    destruct (if asc
              then num_sub (sort_key keyName isDate x) (sort_key keyName isDate y)
              else num_sub (sort_key keyName isDate y) (sort_key keyName isDate x));
      [reflexivity | now rewrite Hmove].
Qed.

Lemma sort_sorted (keyName : string) (isDate asc : bool) (fields : list obj) :
  (forall r, In r fields -> sort_key keyName isDate r <> NaN) ->
  StronglySorted (fun a b => in_order asc (sort_key keyName isDate a)
                                          (sort_key keyName isDate b))
                 (sort fields keyName isDate asc).
Proof.
  unfold sort, array_sort. induction fields as [|x l IH]; intro Hall; simpl.
  - constructor.
  - apply sort_insert_sorted.
    + apply Hall. now left.
    + intros r Hr. apply Hall. right.
      now apply (Permutation_in _ (Permutation_sym (array_sort_perm _ l))) in Hr.
    + apply IH. intros r Hr. apply Hall. now right.
Qed.

(** X15.  On records whose sort key is a number (no NaN), [sort] returns a
    permutation of the records that is in the order asked for (ascending or
    descending on the key) and keeps records with the same key in the order
    they came in. *)
Theorem sort_orders_the_records (fields : list obj) (keyName : string)
    (isDate asc : bool) :
  (forall r, In r fields -> sort_key keyName isDate r <> NaN) ->
  Permutation fields (sort fields keyName isDate asc) /\
  StronglySorted (fun a b => in_order asc (sort_key keyName isDate a)
                                          (sort_key keyName isDate b))
                 (sort fields keyName isDate asc) /\
  (forall z,
      filter (fun r => match sort_key keyName isDate r with
                       | Fin k => k =? z
                       | NaN => false
                       end) (sort fields keyName isDate asc) =
      filter (fun r => match sort_key keyName isDate r with
                       | Fin k => k =? z
                       | NaN => false
                       end) fields).
Proof.
  intro Hall.
  split; [apply array_sort_perm|]. split; [now apply sort_sorted|].
  intro z. unfold sort, array_sort. clear Hall.
  induction fields as [|x l IH]; [reflexivity|].
  cbn [fold_right]. rewrite sort_insert_stable. cbn [filter]. now rewrite IH.
Qed.

Lemma sorted_head (keyName : string) (isDate asc : bool) (l : list obj) :
  (forall r, In r l -> sort_key keyName isDate r <> NaN) ->
  match sort l keyName isDate asc with
  | [] => l = []
  | first :: _ =>
      In first l /\
      forall r, In r l -> in_order asc (sort_key keyName isDate first)
                                       (sort_key keyName isDate r)
  end.
Proof.
  intro Hall.
  pose proof (array_sort_perm (sort_compare keyName isDate asc) l) as Hperm.
  pose proof (sort_sorted keyName isDate asc l Hall) as Hsorted.
  unfold sort in *.
  destruct (array_sort (sort_compare keyName isDate asc) l) as [|first rest] eqn:E.
  - now apply Permutation_sym, Permutation_nil in Hperm.
  - split.
    + apply (Permutation_in _ (Permutation_sym Hperm)). now left.
    + intros r Hr. apply (Permutation_in _ Hperm) in Hr.
      inversion Hsorted as [|? ? _ Hfirst]; subst.
      destruct Hr as [<-|Hr].
      * assert (Hf : sort_key keyName isDate first <> NaN).
        { apply Hall. apply (Permutation_in _ (Permutation_sym Hperm)). now left. }
        unfold in_order. destruct (sort_key keyName isDate first); [congruence|].
        destruct asc; lia.
      * rewrite Forall_forall in Hfirst. now apply Hfirst.
Qed.

(** X16.  On a connected engine whose records all carry a valid date in the
    last-sync field, [getLastSyncTimestamp] resolves with null when the
    collection is empty and otherwise with the last-sync value of a stored
    record that is the latest of all records, whatever their sync status;
    the engine is left as it was. *)
Theorem lastSync_is_the_latest_of_all_records (sm : SyncManager) (m : Model) (st : store) :
  db m = true ->
  active_store m = Some st ->
  syncStatusField sm <> "query" ->
  syncStatusField sm <> "fields" ->
  (forall r, In r st -> to_date (get r (lastSyncField sm)) <> None) ->
  match st with
  | [] => getLastSyncTimestamp sm m = (m, Resolved VNull)
  | _ :: _ =>
      exists latest,
        In latest st /\
        getLastSyncTimestamp sm m = (m, Resolved (get latest (lastSyncField sm))) /\
        forall r t t',
          In r st ->
          to_date (get r (lastSyncField sm)) = Some t ->
          to_date (get latest (lastSyncField sm)) = Some t' ->
          t <= t'
  end.
Proof.
  intros Hdb Hst Hq Hf Hdates.
  assert (Hfind : find (VObj [(syncStatusField sm, VStr "synced")]) m = (m, Resolved st)).
  { now apply find_bare_connected. }
  assert (Hkeys : forall r, In r st -> sort_key (lastSyncField sm) true r <> NaN).
  { intros r Hr. unfold sort_key. specialize (Hdates r Hr).
    destruct (to_date (get r (lastSyncField sm))); [discriminate | congruence]. }
  pose proof (sorted_head (lastSyncField sm) true false st Hkeys) as Hhead.
  assert (Hrun : getLastSyncTimestamp sm m =
                 (m, Resolved match sort st (lastSyncField sm) true false with
                              | [] => VNull
                              | first :: _ => get first (lastSyncField sm)
                              end)).
  { unfold getLastSyncTimestamp, try_catch, bind, ret. rewrite Hfind.
    unfold limit. simpl.
    destruct (sort st (lastSyncField sm) true false); reflexivity. }
  rewrite Hrun.
  destruct (sort st (lastSyncField sm) true false) as [|first rest] eqn:Hsort.
  - subst st. reflexivity.
  - destruct st as [|r0 st0]; [destruct Hhead as [[] _]|].
    destruct Hhead as [Hin Hmax].
    exists first. split; [exact Hin|]. split; [reflexivity|].
    intros r t t' Hr Ht Ht'. specialize (Hmax r Hr).
    unfold sort_key, in_order in Hmax. now rewrite Ht, Ht' in Hmax.
Qed.

End WithRuntime.

Lemma sort_orders_the_records_witness :
  (forall r, In r [Scenario.modified_record; Scenario.synced_record] ->
             sort_key (rt := Scenario.runtime) "_lastSync" true r <> NaN) /\
  Permutation [Scenario.modified_record; Scenario.synced_record]
              [Scenario.synced_record; Scenario.modified_record] /\
  StronglySorted (fun a b => in_order true
                               (sort_key (rt := Scenario.runtime) "_lastSync" true a)
                               (sort_key (rt := Scenario.runtime) "_lastSync" true b))
                 [Scenario.synced_record; Scenario.modified_record].
Proof.
  assert (H : forall r, In r [Scenario.modified_record; Scenario.synced_record] ->
                        sort_key (rt := Scenario.runtime) "_lastSync" true r <> NaN).
  { intros r [<-|[<-|[]]]; discriminate. }
  pose proof (sort_orders_the_records (rt := Scenario.runtime)
                [Scenario.modified_record; Scenario.synced_record] "_lastSync" true true H)
    as (Hp & Hs & _).
  exact (conj H (conj Hp Hs)).
Defined.

Lemma lastSync_is_the_latest_of_all_records_witness :
  db Scenario.testdb_two = true /\
  active_store Scenario.testdb_two =
    Some [Scenario.synced_record; Scenario.modified_record] /\
  exists latest,
    In latest [Scenario.synced_record; Scenario.modified_record] /\
    getLastSyncTimestamp (rt := Scenario.runtime) Scenario.manager Scenario.testdb_two =
      (Scenario.testdb_two, Resolved (get latest "_lastSync")) /\
    forall r t t',
      In r [Scenario.synced_record; Scenario.modified_record] ->
      to_date (rt := Scenario.runtime) (get r "_lastSync") = Some t ->
      to_date (rt := Scenario.runtime) (get latest "_lastSync") = Some t' ->
      t <= t'.
Proof.
  assert (H1 : db Scenario.testdb_two = true) by reflexivity.
  assert (H2 : active_store Scenario.testdb_two =
               Some [Scenario.synced_record; Scenario.modified_record]) by reflexivity.
  assert (H3 : syncStatusField Scenario.manager <> "query") by discriminate.
  assert (H4 : syncStatusField Scenario.manager <> "fields") by discriminate.
  assert (H5 : forall r, In r [Scenario.synced_record; Scenario.modified_record] ->
                         to_date (rt := Scenario.runtime)
                           (get r (lastSyncField Scenario.manager)) <> None).
  { intros r [<-|[<-|[]]]; discriminate. }
  exact (conj H1 (conj H2
           (lastSync_is_the_latest_of_all_records (rt := Scenario.runtime)
              Scenario.manager Scenario.testdb_two
              [Scenario.synced_record; Scenario.modified_record] H1 H2 H3 H4 H5))).
Defined.

End SortFacts.

(** ** _castValue and prepareForSync *)

Module PrepareFacts.
Import ModelOps SyncOps QuerySpec MonadFacts CastFacts ConstructorFacts DeleteFacts UpdateFacts SyncFacts UniqueFacts FindFacts Frame WriteFacts ConnectFacts SortFacts.
Section WithRuntime.
Context {rt : Runtime}.



(** X17.  [_castValue] to a declared type always returns.  A value whose
    conversion to a primitive throws (an object with a property [toString]
    of its own, which is no function) is cast to String or to Number as
    [null]: the exception is caught and written to the console.  In every
    other case what is returned is stable under a second cast; for String
    and Boolean it has the declared type, for Number it has the type or is
    NaN, for Date it is a valid Date or null, and for every other type the
    value is returned as it came. *)
Theorem castValue_yields_a_valid_value (v : value) (ty : jstype) (m : Model) :
  exists c,
    snd (_castValue v (Some ty) m) = Resolved c /\
    let stable := forall m', snd (_castValue c (Some ty) m') = Resolved c in
    let thrown := c = VNull /\
                  console (fst (_castValue v (Some ty) m)) =
                  console m ++ [LogError not_primitive] in
    match ty with
    | TString =>
        if convertible v
        then stable /\ _isValidType c (Some ty) = Resolved true
        else thrown
    | TNumber =>
        if convertible v
        then stable /\ (_isValidType c (Some ty) = Resolved true \/ c = VNum NaN)
        else thrown
    | TBoolean => stable /\ _isValidType c (Some ty) = Resolved true
    | TDate => stable /\ (_isValidType c (Some ty) = Resolved true \/ c = VNull)
    | _ => stable /\ c = v
    end.
Proof.
  unfold _castValue, try_catch.
  destruct ty as [| | | | | |cls]; cbv zeta.
  - destruct (convertible v) eqn:Hc; simpl.
    + eexists. split; [reflexivity|]. split; reflexivity.
    + exists VNull. split; [reflexivity|]. split; reflexivity.
  - destruct (convertible v) eqn:Hc; simpl.
    + eexists. split; [reflexivity|]. split; [reflexivity|].
      destruct (to_number v); [now right | now left].
    + exists VNull. split; [reflexivity|]. split; reflexivity.
  - simpl. eexists. split; [reflexivity|]. split; reflexivity.
  - destruct v as [| |b|n|s|[t|]|l|l]; simpl;
      try (exists VNull; split; [reflexivity|]; split; [reflexivity | now right]).
    + destruct (Date_parse s) as [t|] eqn:Hp; simpl.
      * eexists. split; [reflexivity|]. split; [reflexivity | now left].
      * exists VNull. split; [reflexivity|]. split; [reflexivity | now right].
    + eexists. split; [reflexivity|]. split; [reflexivity | now left].
    + destruct (forallb _ l); simpl;
        exists VNull; (split; [reflexivity|]; split; [reflexivity | now right]).
    + destruct (negb (has l "toString")); simpl;
        exists VNull; (split; [reflexivity|]; split; [reflexivity | now right]).
  - simpl. eexists. split; [reflexivity|]. split; reflexivity.
  - simpl. eexists. split; [reflexivity|]. split; reflexivity.
  - simpl. eexists. split; [reflexivity|]. split; reflexivity.
Qed.

(** X18.  [prepareForSync] removes the five sync fields (status, server id,
    last sync, [_syncErrors], [_localUpdatedAt]) from the copy it returns
    and keeps every other property with its value. *)
Theorem prepareForSync_strips_the_sync_fields (sm : SyncManager) (item : obj)
    (k : string) :
  let stripped := [syncStatusField sm; serverIdField sm; lastSyncField sm;
                   "_syncErrors"; "_localUpdatedAt"] in
  (In k stripped -> has (prepareForSync sm item) k = false /\
                    get (prepareForSync sm item) k = VUndefined) /\
  (~ In k stripped -> lookup k (prepareForSync sm item) = lookup k item).
Proof.
  intro stripped. unfold prepareForSync, has, get.
  repeat rewrite lookup_remove. unfold stripped. cbn [In]. split.
  - intro Hin.
    destruct (String.eqb_spec "_localUpdatedAt" k); [now split|].
    destruct (String.eqb_spec "_syncErrors" k); [now split|].
    destruct (String.eqb_spec (lastSyncField sm) k); [now split|].
    destruct (String.eqb_spec (serverIdField sm) k); [now split|].
    destruct (String.eqb_spec (syncStatusField sm) k); [now split|].
    exfalso. intuition.
  - intro Hnot.
    destruct (String.eqb_spec "_localUpdatedAt" k); [exfalso; tauto|].
    destruct (String.eqb_spec "_syncErrors" k); [exfalso; tauto|].
    destruct (String.eqb_spec (lastSyncField sm) k); [exfalso; tauto|].
    destruct (String.eqb_spec (serverIdField sm) k); [exfalso; tauto|].
    destruct (String.eqb_spec (syncStatusField sm) k); [exfalso; tauto|].
    reflexivity.
Qed.

End WithRuntime.

End PrepareFacts.

(** ** prepareSyncSchema *)

Module SyncSchemaFacts.
Import ModelOps SyncOps QuerySpec MonadFacts CastFacts ConstructorFacts DeleteFacts UpdateFacts SyncFacts UniqueFacts FindFacts Frame WriteFacts ConnectFacts SortFacts PrepareFacts.
Section WithRuntime.
Context {rt : Runtime}.

Lemma lookup_def_assign (fields : list (string * definition)) (k : string) :
  forall defs,
    lookup_def k (fold_left (fun acc kd => set_def acc (fst kd) (snd kd)) fields defs) =
    match lookup_def k (rev fields) with
    | Some d => Some d
    | None => lookup_def k defs
    end.
Proof.
  induction fields as [|[k0 d0] fields IH]; intro defs; simpl.
  - reflexivity.
  - rewrite IH. clear IH.
    assert (Happ : forall l, lookup_def k (l ++ [(k0, d0)]) =
                             match lookup_def k l with
                             | Some d => Some d
                             | None => if (k0 =? k)%string then Some d0 else None
                             end).
    { induction l as [|[k1 d1] l IHl]; simpl.
      - reflexivity.
      - destruct (k1 =? k)%string; [reflexivity | exact IHl]. }
    rewrite Happ, lookup_def_set_def.
    destruct (lookup_def k (rev fields)); [reflexivity|].
    destruct (k0 =? k)%string; reflexivity.
Qed.

Lemma lookup_def_none_iff (k : string) (l : list (string * definition)) :
  lookup_def k l = None <-> ~ In k (map fst l).
Proof.
  induction l as [|[k0 d0] l IH]; simpl.
  - tauto.
  - destruct (String.eqb_spec k0 k) as [->|Hne].
    + split; [discriminate | tauto].
    + rewrite IH. tauto.
Qed.

Lemma keys_set_def (l : list (string * definition)) (k : string) (d : definition) :
  map fst (set_def l k d) =
  match lookup_def k l with
  | Some _ => map fst l
  | None => map fst l ++ [k]
  end.
Proof.
  induction l as [|[k0 d0] l IH]; simpl.
  - reflexivity.
  - destruct (String.eqb_spec k0 k) as [->|Hne]; simpl.
    + reflexivity.
    + rewrite IH. destruct (lookup_def k l); reflexivity.
Qed.

Lemma nodup_set_def (l : list (string * definition)) (k : string) (d : definition) :
  NoDup (map fst l) -> NoDup (map fst (set_def l k d)).
Proof.
  intro Hnd. rewrite keys_set_def.
  destruct (lookup_def k l) eqn:Hk; [exact Hnd|].
  apply lookup_def_none_iff in Hk.
  apply NoDup_app; [exact Hnd | repeat constructor; intros [] | ].
  intros x Hx [<-|[]]. contradiction.
Qed.

Lemma lookup_def_rev (k : string) (l : list (string * definition)) :
  NoDup (map fst l) -> lookup_def k (rev l) = lookup_def k l.
Proof.
  induction l as [|[k0 d0] l IH]; simpl; intro Hnd.
  - reflexivity.
  - inversion Hnd as [|? ? Hnotin Hnd']; subst.
    assert (Happ : forall l', lookup_def k (l' ++ [(k0, d0)]) =
                              match lookup_def k l' with
                              | Some d => Some d
                              | None => if (k0 =? k)%string then Some d0 else None
                              end).
    { induction l' as [|[k1 d1] l' IHl]; simpl.
      - reflexivity.
      - destruct (k1 =? k)%string; [reflexivity | exact IHl]. }
    rewrite Happ, (IH Hnd').
    destruct (String.eqb_spec k0 k) as [->|Hne].
    + apply lookup_def_none_iff in Hnotin. now rewrite Hnotin.
    + destruct (lookup_def k l); reflexivity.
Qed.

Lemma set_def_same (l : list (string * definition)) (k : string) (d : definition) :
  lookup_def k l = Some d -> set_def l k d = l.
Proof.
  induction l as [|[k0 d0] l IH]; simpl; [discriminate|].
  destruct (String.eqb_spec k0 k) as [->|Hne].
  - intro H. injection H as ->. reflexivity.
  - intro H. now rewrite IH.
Qed.

Lemma assign_same (fields defs : list (string * definition)) :
  (forall k d, In (k, d) fields -> lookup_def k defs = Some d) ->
  fold_left (fun acc kd => set_def acc (fst kd) (snd kd)) fields defs = defs.
Proof.
  induction fields as [|[k0 d0] fields IH]; intro H; simpl; [reflexivity|].
  rewrite set_def_same by (apply H; now left).
  apply IH. intros k d Hin. apply H. now right.
Qed.

Lemma sync_literal_nodup (sm : SyncManager) : NoDup (map fst (sync_literal sm)).
Proof. unfold sync_literal. repeat apply nodup_set_def. constructor. Qed.

Lemma lookup_sync_literal (sm : SyncManager) (f : string) :
  lookup_def f (sync_literal sm) =
  if ("_localUpdatedAt" =? f)%string then Some (Ctor TDate)
  else if ("_syncErrors" =? f)%string then Some (Ctor TArray)
  else if (lastSyncField sm =? f)%string then Some (Ctor TDate)
  else if (syncStatusField sm =? f)%string then Some syncStatus_def
  else None.
Proof.
  unfold sync_literal. repeat rewrite lookup_def_set_def. reflexivity.
Qed.

Lemma prepareSyncSchema_schema (sm : SyncManager) (m : Model) :
  sdefinition (schema (fst (prepareSyncSchema sm m))) =
  fold_left (fun acc kd => set_def acc (fst kd) (snd kd))
    (match lookup_def (serverIdField sm) (sdefinition (schema m)) with
     | None => set_def (sync_literal sm) (serverIdField sm) string_unique_def
     | Some _ => sync_literal sm
     end)
    (sdefinition (schema m)).
Proof. reflexivity. Qed.

Lemma prepareSyncSchema_lookup (sm : SyncManager) (m : Model) (f : string) :
  lookup_def f (sdefinition (schema (fst (prepareSyncSchema sm m)))) =
  match lookup_def (serverIdField sm) (sdefinition (schema m)) with
  | None => if (serverIdField sm =? f)%string then Some string_unique_def
            else match lookup_def f (sync_literal sm) with
                 | Some d => Some d
                 | None => lookup_def f (sdefinition (schema m))
                 end
  | Some _ => match lookup_def f (sync_literal sm) with
              | Some d => Some d
              | None => lookup_def f (sdefinition (schema m))
              end
  end.
Proof.
  rewrite prepareSyncSchema_schema, lookup_def_assign.
  destruct (lookup_def (serverIdField sm) (sdefinition (schema m))) eqn:Hs.
  - now rewrite (lookup_def_rev _ _ (sync_literal_nodup sm)).
  - rewrite lookup_def_rev by apply nodup_set_def, sync_literal_nodup.
    rewrite lookup_def_set_def.
    destruct (serverIdField sm =? f)%string; reflexivity.
Qed.

(** X19.  [prepareSyncSchema] only extends the schema: every declared field
    stays declared, the five sync fields are declared afterwards, a field
    that is none of them keeps its definition, the sync fields get the
    definitions of the source when their names are distinct (the server id
    only if it was not declared), a second call changes nothing, and no
    record is touched. *)
Theorem prepareSyncSchema_extends_the_schema (sm : SyncManager) (m : Model) :
  let defs := sdefinition (schema m) in
  let defs' := sdefinition (schema (fst (prepareSyncSchema sm m))) in
  let added := [syncStatusField sm; lastSyncField sm; "_syncErrors"; "_localUpdatedAt"] in
  (forall f, lookup_def f defs <> None -> lookup_def f defs' <> None) /\
  (forall f, In f (serverIdField sm :: added) -> lookup_def f defs' <> None) /\
  (forall f, ~ In f added ->
             f <> serverIdField sm \/ lookup_def f defs <> None ->
             lookup_def f defs' = lookup_def f defs) /\
  (NoDup (serverIdField sm :: added) ->
   lookup_def (syncStatusField sm) defs' = Some syncStatus_def /\
   lookup_def (lastSyncField sm) defs' = Some (Ctor TDate) /\
   lookup_def "_syncErrors" defs' = Some (Ctor TArray) /\
   lookup_def "_localUpdatedAt" defs' = Some (Ctor TDate) /\
   (lookup_def (serverIdField sm) defs = None ->
    lookup_def (serverIdField sm) defs' = Some string_unique_def)) /\
  (~ In (serverIdField sm) added \/ lookup_def (serverIdField sm) defs <> None ->
   schema (fst (prepareSyncSchema sm (fst (prepareSyncSchema sm m)))) =
   schema (fst (prepareSyncSchema sm m))) /\
  stores_of (fst (prepareSyncSchema sm m)) = stores_of m.
Proof.
  intros defs defs' added.
  assert (Hlit : forall f, lookup_def f (sync_literal sm) <> None <-> In f added).
  { intro f. rewrite lookup_sync_literal. unfold added. cbn [In].
    destruct (String.eqb_spec "_localUpdatedAt" f);
      [split; [tauto | discriminate]|].
    destruct (String.eqb_spec "_syncErrors" f);
      [split; [tauto | discriminate]|].
    destruct (String.eqb_spec (lastSyncField sm) f);
      [split; [tauto | discriminate]|].
    destruct (String.eqb_spec (syncStatusField sm) f);
      [split; [tauto | discriminate]|].
    split; [congruence | tauto]. }
  assert (H1 : forall f, lookup_def f defs <> None -> lookup_def f defs' <> None).
  { intros f Hf. unfold defs'. rewrite prepareSyncSchema_lookup. fold defs.
    destruct (lookup_def (serverIdField sm) defs);
      [|destruct (serverIdField sm =? f)%string; [discriminate|]];
      destruct (lookup_def f (sync_literal sm)); try discriminate; exact Hf. }
  assert (H2 : forall f, In f (serverIdField sm :: added) -> lookup_def f defs' <> None).
  { intros f [<-|Hin].
    - unfold defs'. rewrite prepareSyncSchema_lookup. fold defs.
      destruct (lookup_def (serverIdField sm) defs) eqn:Hs.
      + destruct (lookup_def (serverIdField sm) (sync_literal sm)); discriminate.
      + rewrite String.eqb_refl. discriminate.
    - apply Hlit in Hin. unfold defs'. rewrite prepareSyncSchema_lookup. fold defs.
      destruct (lookup_def (serverIdField sm) defs);
        [|destruct (serverIdField sm =? f)%string; [discriminate|]];
        destruct (lookup_def f (sync_literal sm)); try discriminate; congruence. }
  split; [exact H1|]. split; [exact H2|]. split; [|split; [|split]].
  - intros f Hnot Hserver.
    assert (Hn : lookup_def f (sync_literal sm) = None).
    { destruct (lookup_def f (sync_literal sm)) eqn:E; [|reflexivity].
      exfalso. apply Hnot, Hlit. congruence. }
    unfold defs'. rewrite prepareSyncSchema_lookup, Hn. fold defs.
    destruct (lookup_def (serverIdField sm) defs) eqn:Hs; [reflexivity|].
    destruct (String.eqb_spec (serverIdField sm) f) as [<-|]; [|reflexivity].
    destruct Hserver; congruence.
  - intro Hnd. unfold added in Hnd.
    inversion Hnd as [|? ? Hserver Hnd1]; subst.
    inversion Hnd1 as [|? ? Hstatus Hnd2]; subst.
    inversion Hnd2 as [|? ? Hlast Hnd3]; subst.
    inversion Hnd3 as [|? ? Herrors _]; subst.
    cbn [In] in *.
    assert (Hneq : forall a b : string, a <> b -> (a =? b)%string = false)
      by (intros a b; apply String.eqb_neq).
    unfold defs'. repeat rewrite prepareSyncSchema_lookup. fold defs.
    repeat rewrite lookup_sync_literal. repeat rewrite String.eqb_refl.
    rewrite (Hneq "_localUpdatedAt" (syncStatusField sm)) by intuition.
    rewrite (Hneq "_syncErrors" (syncStatusField sm)) by intuition.
    rewrite (Hneq (lastSyncField sm) (syncStatusField sm)) by intuition.
    rewrite (Hneq "_localUpdatedAt" (lastSyncField sm)) by intuition.
    rewrite (Hneq "_syncErrors" (lastSyncField sm)) by intuition.
    rewrite (Hneq (serverIdField sm) (syncStatusField sm)) by intuition.
    rewrite (Hneq (serverIdField sm) (lastSyncField sm)) by intuition.
    rewrite (Hneq (serverIdField sm) "_syncErrors") by intuition.
    rewrite (Hneq (serverIdField sm) "_localUpdatedAt") by intuition.
    rewrite (Hneq "_localUpdatedAt" "_syncErrors") by intuition.
    destruct (lookup_def (serverIdField sm) defs); repeat split; congruence.
  - intro Hserver.
    assert (Hdecl : lookup_def (serverIdField sm) defs' <> None)
      by (apply H2; now left).
    assert (Hsch : forall s1 s2 : Schema,
               sdefinition s1 = sdefinition s2 -> sindexes s1 = sindexes s2 -> s1 = s2)
      by (intros [l1 i1] [l2 i2]; simpl; congruence).
    apply Hsch; [|reflexivity]. rewrite prepareSyncSchema_schema. fold defs'.
    destruct (lookup_def (serverIdField sm) defs') as [d1|] eqn:Hs; [|congruence].
    apply assign_same.
    intros k d Hin.
    assert (Hk : lookup_def k (sync_literal sm) = Some d).
    { clear - Hin. pose proof (sync_literal_nodup sm) as Hnd.
      induction (sync_literal sm) as [|[k0 d0] l IH]; simpl in *; [destruct Hin|].
      inversion Hnd as [|? ? Hnotin Hnd']; subst.
      destruct Hin as [Heq|Hin].
      - injection Heq as -> ->. now rewrite String.eqb_refl.
      - destruct (String.eqb_spec k0 k) as [->|_]; [|now apply IH].
        exfalso. apply Hnotin. now apply (in_map fst) in Hin. }
    unfold defs'. rewrite prepareSyncSchema_lookup, Hk. fold defs.
    destruct (lookup_def (serverIdField sm) defs) eqn:Hs0; [reflexivity|].
    destruct (String.eqb_spec (serverIdField sm) k) as [<-|]; [|reflexivity].
    destruct Hserver as [Hnot|Hd]; [|congruence].
    exfalso. apply Hnot, Hlit. congruence.
  - reflexivity.
Qed.

End WithRuntime.

End SyncSchemaFacts.

(** ** pullFromServer, pushToServer and sync *)

Module ExchangeFacts.
Import ModelOps SyncOps QuerySpec MonadFacts CastFacts ConstructorFacts DeleteFacts UpdateFacts SyncFacts UniqueFacts FindFacts Frame WriteFacts ConnectFacts SortFacts PrepareFacts SyncSchemaFacts.
Section WithRuntime.
Context {rt : Runtime}.

Lemma undisturbed_refl (m : Model) : undisturbed m m.
Proof. intros _. apply same_engine_refl. Qed.

Lemma undisturbed_trans (m1 m2 m3 : Model) :
  undisturbed m1 m2 -> undisturbed m2 m3 -> undisturbed m1 m3.
Proof.
  intros H1 H2 Hdb. specialize (H1 Hdb).
  apply (same_engine_trans _ _ _ H1). apply H2.
  destruct H1 as (_ & _ & _ & _ & _ & Hd & _). congruence.
Qed.

Lemma undisturbed_bind {A B : Type} (c : M A) (k : A -> M B) :
  preserves undisturbed c -> (forall a, preserves undisturbed (k a)) ->
  preserves undisturbed (bind c k).
Proof. apply preserves_bind. exact undisturbed_trans. Qed.

Lemma undisturbed_ret {A : Type} (a : A) : preserves undisturbed (ret a).
Proof. apply preserves_ret, undisturbed_refl. Qed.

Lemma undisturbed_lift {A : Type} (o : outcome A) : preserves undisturbed (lift o).
Proof. apply preserves_lift, undisturbed_refl. Qed.

Lemma undisturbed_gets {A : Type} (f : Model -> A) : preserves undisturbed (gets f).
Proof. apply preserves_gets, undisturbed_refl. Qed.

Lemma undisturbed_now : preserves undisturbed now.
Proof. intros m _. repeat split. Qed.

Lemma undisturbed_stateless {A : Type} (c : M A) :
  (forall m, db m = true -> fst (c m) = m) -> preserves undisturbed c.
Proof. intros H m Hdb. rewrite (H m Hdb). apply same_engine_refl. Qed.

(** On a connected engine [update], given an object for the id, leaves the
    state as it is. *)
Lemma update_object_id_state (data : value) (o : obj) (m : Model) :
  db m = true -> fst (update data (VObj o) m) = m.
Proof.
  intro Hdb. unfold update. simpl truthy. cbv iota.
  apply stateless_bind; [reflexivity | intros prim].
  unfold bind at 1. unfold ret at 1. cbv iota beta.
  apply stateless_bind; [reflexivity | intros data1].
  apply stateless_bind; [apply validateData_update_stateless | intros _].
  rewrite executeTransaction_steps, Hdb.
  destruct (active_store m) as [st|]; reflexivity.
Qed.

Lemma undisturbed_wrapped_update (ws : list string) :
  forall (a : value) (o : obj), preserves undisturbed (wrapped_update ws a (VObj o)).
Proof.
  induction ws as [|w ws IH]; intros a o; simpl.
  - apply undisturbed_stateless. intros m. apply update_object_id_state.
  - apply undisturbed_bind; [apply undisturbed_now | intros t]. apply IH.
Qed.

Lemma undisturbed_call_update (a : value) (o : obj) :
  preserves undisturbed (call_update a (VObj o)).
Proof.
  unfold call_update. apply undisturbed_bind; [apply undisturbed_gets | intros ws].
  apply undisturbed_wrapped_update.
Qed.

Lemma undisturbed_resolve_conflict (sm : SyncManager) (localItem serverItem item : value) :
  preserves undisturbed (resolve_conflict sm localItem serverItem item).
Proof.
  unfold resolve_conflict.
  destruct (conflictResolution sm =? "server-wins")%string.
  { apply undisturbed_bind; [apply undisturbed_lift | intros id].
    apply undisturbed_bind; [apply undisturbed_lift | intros sid].
    apply undisturbed_bind; [apply undisturbed_now | intros t].
    apply undisturbed_bind; [apply undisturbed_call_update | intros r].
    apply undisturbed_ret. }
  destruct (conflictResolution sm =? "client-wins")%string.
  { apply undisturbed_bind; [apply undisturbed_lift | intros status].
    destruct (negb (strict_equals status (VStr "modified"))); [|apply undisturbed_ret].
    apply undisturbed_bind; [apply undisturbed_lift | intros id].
    apply undisturbed_bind; [apply undisturbed_lift | intros sid].
    apply undisturbed_bind; [apply undisturbed_now | intros t].
    apply undisturbed_bind; [apply undisturbed_call_update | intros r].
    apply undisturbed_ret. }
  destruct (conflictResolution sm =? "manual")%string; [|apply undisturbed_ret].
  apply undisturbed_bind; [apply undisturbed_lift | intros id].
  apply undisturbed_bind; [apply undisturbed_call_update | intros r].
  apply undisturbed_ret.
Qed.

(** [handleConflict] on an array always returns the array of promises. *)
Lemma map_conflicts_returns (sm : SyncManager) (localItem serverItem : value)
    (items : list value) :
  forall m, exists m' rs,
    map_conflicts sm localItem serverItem items m = (m', Resolved rs) /\
    undisturbed m m'.
Proof.
  induction items as [|item items IH]; intro m; simpl.
  - exists m, []. split; [reflexivity | apply undisturbed_refl].
  - pose proof (undisturbed_resolve_conflict sm localItem serverItem item m) as H1.
    destruct (resolve_conflict sm localItem serverItem item m) as [m1 r]; simpl in H1.
    destruct (IH m1) as (m2 & rs & Hrun & H2). rewrite Hrun.
    exists m2, (r :: rs). split; [reflexivity|].
    now apply (undisturbed_trans _ _ _ H1 H2).
Qed.

(** The loop of [pullFromServer] over a collection that is not empty. *)
Lemma pull_all_nonempty (sm : SyncManager) (items : list obj) :
  forall (m : Model) (st : store),
    db m = true ->
    active_store m = Some st ->
    st <> [] ->
    serverIdField sm <> "query" ->
    serverIdField sm <> "fields" ->
    exists m',
      pull_all sm (map VObj items) m = (m', Resolved tt) /\ same_engine m m'.
Proof.
  induction items as [|item items IH]; intros m st Hdb Hst Hne Hq Hf.
  - exists m. split; [reflexivity | apply same_engine_refl].
  - simpl map. cbn [pull_all].
    unfold bind at 1. unfold lift at 1. simpl get_prop. cbv iota beta.
    unfold bind at 1. rewrite (find_bare_connected _ _ m st Hdb Hst Hq Hf).
    cbv iota beta.
    destruct st as [|r0 st0]; [congruence|].
    unfold bind at 1. unfold handleConflict.
    destruct (map_conflicts_returns sm (VArr (map VObj (r0 :: st0))) (VObj item)
                (map VObj (r0 :: st0)) m) as (m1 & rs & Hrun & H1).
    rewrite Hrun. cbv iota beta.
    specialize (H1 Hdb).
    assert (Hdb1 : db m1 = true)
      by (destruct H1 as (_ & _ & _ & _ & _ & Hd & _); congruence).
    assert (Hst1 : active_store m1 = Some (r0 :: st0))
      by (rewrite (same_engine_active _ _ H1); exact Hst).
    destruct (IH m1 (r0 :: st0) Hdb1 Hst1 Hne Hq Hf) as (m' & Hrun' & H2).
    exists m'. split; [exact Hrun'|]. now apply (same_engine_trans _ _ _ H1 H2).
Qed.

Lemma settled_refl (m : Model) : settled m m.
Proof. intros _ _. apply same_engine_refl. Qed.

Lemma settled_trans (m1 m2 m3 : Model) : settled m1 m2 -> settled m2 m3 -> settled m1 m3.
Proof.
  intros H1 H2 Hdb Hst. specialize (H1 Hdb Hst).
  apply (same_engine_trans _ _ _ H1). apply H2.
  - destruct H1 as (_ & _ & _ & _ & _ & Hd & _). congruence.
  - destruct Hst as (r & st & Hst). exists r, st.
    now rewrite (same_engine_active _ _ H1).
Qed.

Lemma same_engine_settled {A : Type} (c : M A) :
  (forall m, same_engine m (fst (c m))) -> preserves settled c.
Proof. intros H m _ _. apply H. Qed.

Lemma settled_bind {A B : Type} (c : M A) (k : A -> M B) :
  preserves settled c -> (forall a, preserves settled (k a)) ->
  preserves settled (bind c k).
Proof. apply preserves_bind. exact settled_trans. Qed.

Lemma settled_lift {A : Type} (o : outcome A) : preserves settled (lift o).
Proof. apply preserves_lift, settled_refl. Qed.

Lemma settled_ret {A : Type} (a : A) : preserves settled (ret a).
Proof. apply preserves_ret, settled_refl. Qed.

Lemma settled_log (msg : logmsg) : preserves settled (log msg).
Proof. apply same_engine_settled. intro m. repeat split. Qed.

Lemma settled_handleConflict (sm : SyncManager) (localItem serverItem : value) :
  preserves settled (handleConflict sm localItem serverItem).
Proof.
  intros m Hdb _. unfold handleConflict.
  destruct localItem; try apply same_engine_refl.
  destruct (map_conflicts_returns sm (VArr l) serverItem l m) as (m' & rs & Hrun & H).
  rewrite Hrun. now apply H.
Qed.

Lemma settled_pull_all (sm : SyncManager) (items : list value) :
  serverIdField sm <> "query" ->
  serverIdField sm <> "fields" ->
  preserves settled (pull_all sm items).
Proof.
  intros Hq Hf. induction items as [|item items IH]; [apply settled_ret|].
  cbn [pull_all].
  apply settled_bind; [apply settled_lift | intros id].
  intros m Hdb Hst. destruct Hst as (r & st & Hst).
  unfold bind at 1. rewrite (find_bare_connected _ _ m _ Hdb Hst Hq Hf).
  cbv iota beta.
  assert (H : preserves settled
                (handleConflict sm (VArr (map VObj (r :: st))) item ;;; pull_all sm items)).
  { apply settled_bind; [apply settled_handleConflict | intros _; exact IH]. }
  apply (H m Hdb). now exists r, st.
Qed.

Lemma settled_pullFromServer (sm : SyncManager) (post : value -> outcome value)
    (lastSync batchSize : value) :
  serverIdField sm <> "query" ->
  serverIdField sm <> "fields" ->
  preserves settled (pullFromServer sm post lastSync batchSize).
Proof.
  intros Hq Hf. unfold pullFromServer.
  apply preserves_try_catch; [exact settled_trans | |].
  - apply settled_bind; [apply settled_lift | intros serverData].
    apply settled_bind; [apply settled_lift | intros items].
    apply settled_bind; [apply settled_lift | intros l].
    apply settled_bind; [now apply settled_pull_all | intros _].
    apply settled_bind; [apply settled_lift | intros n]. apply settled_ret.
  - intros e. apply settled_bind; [apply settled_log | intros _; apply settled_ret].
Qed.

(** X20.  On a connected engine whose active collection holds at least one
    record, [pullFromServer] leaves every store as it was, whatever the
    server answers; yet for an answer carrying an array of items it resolves
    with success and the number of items. *)
Theorem pull_writes_nothing_into_a_collection_that_holds_records
    (sm : SyncManager) (post : value -> outcome value) (lastSync batchSize : value)
    (m : Model) (r : obj) (st : store) :
  db m = true ->
  active_store m = Some (r :: st) ->
  serverIdField sm <> "query" ->
  serverIdField sm <> "fields" ->
  stores_of (fst (pullFromServer sm post lastSync batchSize m)) = stores_of m /\
  (forall response items,
      post (VObj [("lastSync", lastSync); ("batchSize", batchSize)]) =
        Resolved (VObj response) ->
      get response "items" = VArr (map VObj items) ->
      snd (pullFromServer sm post lastSync batchSize m) =
        Resolved (Success (VNum (Fin (Z.of_nat (List.length items)))))).
Proof.
  intros Hdb Hst Hq Hf. split.
  - destruct (settled_pullFromServer sm post lastSync batchSize Hq Hf m Hdb)
      as (_ & _ & _ & Hi & _); [now exists r, st|].
    unfold stores_of. now rewrite Hi.
  - intros response items Hpost Hitems.
    destruct (pull_all_nonempty sm items m (r :: st) Hdb Hst) as (m' & Hrun & Hsame);
      try assumption; [discriminate|].
    unfold pullFromServer, try_catch.
    unfold bind at 1. unfold lift at 1. rewrite Hpost. cbv iota beta.
    unfold bind at 1. unfold lift at 1. simpl get_prop. rewrite Hitems. cbv iota beta.
    unfold bind at 1. unfold lift at 1. simpl iterate. cbv iota beta.
    unfold bind at 1. rewrite Hrun. cbv iota beta.
    unfold bind at 1. unfold lift at 1. simpl get_prop. cbv iota beta.
    unfold ret. simpl. now rewrite length_map.
Qed.

Lemma getLastSyncTimestamp_connected (sm : SyncManager) (m : Model) (st : store) :
  find (VObj [(syncStatusField sm, VStr "synced")]) m = (m, Resolved st) ->
  getLastSyncTimestamp sm m =
  (m, Resolved match sort st (lastSyncField sm) true false with
               | [] => VNull
               | first :: _ => get first (lastSyncField sm)
               end).
Proof.
  intro Hfind. unfold getLastSyncTimestamp, try_catch, bind, ret. rewrite Hfind.
  unfold limit. simpl.
  destruct (sort st (lastSyncField sm) true false); reflexivity.
Qed.

Lemma try_catch_never_rejects {A : Type} (c : M A) (h : error -> A) (m : Model)
    (e : error) :
  snd (try_catch c (fun e0 => ret (h e0)) m) <> Rejected e.
Proof.
  unfold try_catch. destruct (c m) as [m' [a|e0|]]; simpl; discriminate.
Qed.

(** X21.  [sync] never rejects; on a connected engine, when both exchanges
    with the server fail, it still resolves with success, pushed 0 and
    pulled 0, and the stores are as they were. *)
Theorem sync_reports_success_when_both_exchanges_fail (sm : SyncManager)
    (put post : value -> outcome value) (batchSize : value) (m : Model) (st : store) :
  db m = true ->
  active_store m = Some st ->
  syncStatusField sm <> "query" ->
  syncStatusField sm <> "fields" ->
  (forall body, exists e, put body = Rejected e) ->
  (forall body, exists e, post body = Rejected e) ->
  snd (sync sm put post batchSize m) = Resolved (Synced (VNum (Fin 0)) (VNum (Fin 0))) /\
  stores_of (fst (sync sm put post batchSize m)) = stores_of m /\
  (forall m' e, snd (sync sm put post batchSize m') <> Rejected e).
Proof.
  intros Hdb Hst Hq Hf Hput Hpost.
  pose proof (find_bare_connected (syncStatusField sm) (VStr "modified") m st
                Hdb Hst Hq Hf) as Hmod.
  pose proof (find_bare_connected (syncStatusField sm) (VStr "synced") m st
                Hdb Hst Hq Hf) as Hsyn.
  assert (Hpush : exists e, pushToServer sm put m = (m, Resolved (Failure e))).
  { unfold pushToServer, try_catch. unfold bind at 1. rewrite Hmod. cbv iota beta.
    unfold bind at 1. unfold lift at 1.
    match goal with |- context [put ?b] => destruct (Hput b) as [e He]; rewrite He end.
    exists e. reflexivity. }
  destruct Hpush as [e1 Hpush].
  pose proof (getLastSyncTimestamp_connected sm m st Hsyn) as Hlast.
  set (ts := match sort st (lastSyncField sm) true false with
             | [] => VNull
             | first :: _ => get first (lastSyncField sm)
             end) in *.
  assert (Hpull : forall t, exists e,
             pullFromServer sm post t batchSize m =
             (fst (log (LogError e) m), Resolved (Failure e))).
  { intro t. unfold pullFromServer, try_catch. unfold bind at 1. unfold lift at 1.
    match goal with |- context [post ?b] => destruct (Hpost b) as [e He]; rewrite He end.
    exists e. reflexivity. }
  destruct (Hpull (match ts with VUndefined => VNull | _ => ts end)) as [e2 Hpull2].
  assert (Hrun : sync sm put post batchSize m =
                 (fst (log (LogError e2) m),
                  Resolved (Synced (VNum (Fin 0)) (VNum (Fin 0))))).
  { unfold sync, try_catch. unfold bind at 1. rewrite Hpush. cbv iota beta.
    unfold bind at 1. rewrite Hlast. cbv iota beta.
    unfold bind at 1. rewrite Hpull2. reflexivity. }
  rewrite Hrun. split; [reflexivity|]. split; [reflexivity|].
  intros m' e. unfold sync. apply try_catch_never_rejects.
Qed.

(** X22.  On a connected engine the changeset [pushToServer] sends is built
    from every record of the active collection, whatever its sync status;
    when the exchange fails the failure is returned and nothing changes, and
    when the server acknowledges nothing the call resolves with success and
    0. *)
Theorem push_sends_every_record (sm : SyncManager) (put : value -> outcome value)
    (m : Model) (st : store) :
  db m = true ->
  active_store m = Some st ->
  syncStatusField sm <> "query" ->
  syncStatusField sm <> "fields" ->
  (forall e, put (changes_of sm st) = Rejected e ->
             pushToServer sm put m = (m, Resolved (Failure e))) /\
  (forall other, put (changes_of sm st) = Resolved (VObj (("synchronized", VArr []) :: other)) ->
             pushToServer sm put m = (m, Resolved (Success (VNum (Fin 0))))) /\
  (put (changes_of sm st) = Pending -> pushToServer sm put m = (m, Pending)).
Proof.
  intros Hdb Hst Hq Hf.
  pose proof (find_bare_connected (syncStatusField sm) (VStr "modified") m st
                Hdb Hst Hq Hf) as Hmod.
  split; [|split].
  - intros e He. unfold pushToServer, try_catch. unfold bind at 1. rewrite Hmod.
    cbv iota beta. unfold bind at 1. unfold lift at 1.
    unfold changes_of in He. rewrite He. reflexivity.
  - intros other He. unfold pushToServer, try_catch. unfold bind at 1. rewrite Hmod.
    cbv iota beta. unfold bind at 1. unfold lift at 1.
    unfold changes_of in He. rewrite He. reflexivity.
  - intros He. unfold pushToServer, try_catch. unfold bind at 1. rewrite Hmod.
    cbv iota beta. unfold bind at 1. unfold lift at 1.
    unfold changes_of in He. rewrite He. reflexivity.
Qed.

End WithRuntime.

Lemma pull_writes_nothing_into_a_collection_that_holds_records_witness :
  db Scenario.testdb_two = true /\
  active_store Scenario.testdb_two =
    Some [Scenario.synced_record; Scenario.modified_record] /\
  stores_of (fst (pullFromServer (rt := Scenario.runtime) Scenario.manager one_item
                    VNull (VNum (Fin 100)) Scenario.testdb_two)) =
    stores_of Scenario.testdb_two /\
  snd (pullFromServer (rt := Scenario.runtime) Scenario.manager one_item
         VNull (VNum (Fin 100)) Scenario.testdb_two) =
    Resolved (Success (VNum (Fin 1))).
Proof.
  assert (H1 : db Scenario.testdb_two = true) by reflexivity.
  assert (H2 : active_store Scenario.testdb_two =
               Some [Scenario.synced_record; Scenario.modified_record]) by reflexivity.
  assert (H3 : serverIdField Scenario.manager <> "query") by discriminate.
  assert (H4 : serverIdField Scenario.manager <> "fields") by discriminate.
  pose proof (pull_writes_nothing_into_a_collection_that_holds_records
                (rt := Scenario.runtime) Scenario.manager one_item VNull (VNum (Fin 100))
                Scenario.testdb_two Scenario.synced_record [Scenario.modified_record]
                H1 H2 H3 H4) as (Hs & Hn).
  exact (conj H1 (conj H2 (conj Hs
           (Hn [("items", VArr [VObj [("_id", VStr "a"); ("name", VStr "Anne")]])]
               [[("_id", VStr "a"); ("name", VStr "Anne")]] eq_refl eq_refl)))).
Defined.

Lemma sync_reports_success_when_both_exchanges_fail_witness :
  db Scenario.testdb_two = true /\
  (forall body, exists e, offline body = Rejected e) /\
  snd (sync (rt := Scenario.runtime) Scenario.manager offline offline (VNum (Fin 100))
         Scenario.testdb_two) =
    Resolved (Synced (VNum (Fin 0)) (VNum (Fin 0))).
Proof.
  assert (H1 : db Scenario.testdb_two = true) by reflexivity.
  assert (H2 : active_store Scenario.testdb_two =
               Some [Scenario.synced_record; Scenario.modified_record]) by reflexivity.
  assert (H3 : syncStatusField Scenario.manager <> "query") by discriminate.
  assert (H4 : syncStatusField Scenario.manager <> "fields") by discriminate.
  assert (H5 : forall body, exists e, offline body = Rejected e).
  { intro body. exists (FetchFailed "Failed to fetch"). reflexivity. }
  exact (conj H1 (conj H5
           (proj1 (sync_reports_success_when_both_exchanges_fail (rt := Scenario.runtime)
                     Scenario.manager offline offline (VNum (Fin 100))
                     Scenario.testdb_two
                     [Scenario.synced_record; Scenario.modified_record]
                     H1 H2 H3 H4 H5 H5)))).
Defined.

Lemma push_sends_every_record_witness :
  db Scenario.testdb_two = true /\
  active_store Scenario.testdb_two =
    Some [Scenario.synced_record; Scenario.modified_record] /\
  pushToServer (rt := Scenario.runtime) Scenario.manager offline Scenario.testdb_two =
    (Scenario.testdb_two, Resolved (Failure (FetchFailed "Failed to fetch"))).
Proof.
  assert (H1 : db Scenario.testdb_two = true) by reflexivity.
  assert (H2 : active_store Scenario.testdb_two =
               Some [Scenario.synced_record; Scenario.modified_record]) by reflexivity.
  assert (H3 : syncStatusField Scenario.manager <> "query") by discriminate.
  assert (H4 : syncStatusField Scenario.manager <> "fields") by discriminate.
  exact (conj H1 (conj H2
           (proj1 (push_sends_every_record (rt := Scenario.runtime)
                     Scenario.manager offline Scenario.testdb_two
                     [Scenario.synced_record; Scenario.modified_record] H1 H2 H3 H4)
                  (FetchFailed "Failed to fetch") eq_refl))).
Defined.

End ExchangeFacts.

(** ** Schema: fromArray, fromString, addIndex, removeIndex *)

Module SchemaBuildFacts.
Import SchemaOps ModelOps UpdateFacts ConstructorFacts.

Lemma split_without (c : ascii) (s : string) :
  without c s -> split c s = [s].
Proof.
  unfold without. induction s as [|a s IH]; simpl; [reflexivity|].
  intro H. destruct (Ascii.eqb_spec a c) as [->|Hne]; [tauto|].
  rewrite IH by tauto. reflexivity.
Qed.

Lemma split_append (c : ascii) (s rest : string) :
  without c s ->
  split c (s ++ String c rest)%string = s :: split c rest.
Proof.
  unfold without. induction s as [|a s IH]; simpl.
  - intros _. now rewrite Ascii.eqb_refl.
  - intro H. destruct (Ascii.eqb_spec a c) as [->|Hne]; [tauto|].
    rewrite IH by tauto. reflexivity.
Qed.

Lemma split_join (c : ascii) (fields : list string) :
  fields <> [] ->
  (forall f, In f fields -> without c f) ->
  split c (join (String c EmptyString) fields) = fields.
Proof.
  induction fields as [|f fields IH]; [congruence|].
  intros _ Hall. destruct fields as [|g fields].
  - simpl. apply split_without, Hall. now left.
  - change (join (String c EmptyString) (f :: g :: fields))
      with (f ++ String c EmptyString ++ join (String c EmptyString) (g :: fields))%string.
    change (String c EmptyString ++ join (String c EmptyString) (g :: fields))%string
      with (String c (join (String c EmptyString) (g :: fields))).
    rewrite split_append by (apply Hall; now left).
    f_equal. apply IH; [discriminate|]. intros x Hx. apply Hall. now right.
Qed.

Lemma lookup_fromArray (fields : list string) (f : string) :
  forall acc,
    lookup_def f (fold_left (fun schema field => set_def schema field string_def)
                            fields acc) =
    if existsb (String.eqb f) fields then Some string_def else lookup_def f acc.
Proof.
  induction fields as [|a fields IH]; intro acc; simpl; [reflexivity|].
  rewrite IH, lookup_def_set_def. rewrite (String.eqb_sym f a).
  destruct (a =? f)%string; simpl; [|reflexivity].
  destruct (existsb (String.eqb f) fields); reflexivity.
Qed.

(** X23.  [fromArray] declares exactly the names of the array, each as a
    String; [fromString] of the names joined by commas is [fromArray] of the
    names when no name contains a comma, and [fromString] of the empty
    string declares one field, named by the empty string. *)
Theorem fromString_declares_the_pieces (fields : list string) :
  (forall f, lookup_def f (sdefinition (fromArray fields)) =
             if existsb (String.eqb f) fields then Some string_def else None) /\
  (fields <> [] ->
   (forall f, In f fields -> without "," f) ->
   fromString (join "," fields) = fromArray fields) /\
  fromString "" = fromArray [""].
Proof.
  split; [|split].
  - intro f. unfold fromArray. simpl. apply lookup_fromArray.
  - intros Hne Hall. unfold fromString. now rewrite split_join.
  - reflexivity.
Qed.

Lemma lookup_rev_none (k : string) (o : obj) :
  lookup k o = None -> lookup k (rev o) = None.
Proof.
  intro H. apply lookup_none_iff. apply lookup_none_iff in H.
  intro Hin. apply H. rewrite map_rev in Hin. now apply in_rev in Hin.
Qed.

Lemma filter_app_single {A : Type} (f : A -> bool) (l : list A) (x : A) :
  filter f (l ++ [x]) = if f x then filter f l ++ [x] else filter f l.
Proof.
  rewrite filter_app. simpl. destruct (f x); [reflexivity | apply app_nil_r].
Qed.

(** X24.  When the options carry no [field] property of their own,
    [removeIndex(field)] after [addIndex(field, options)] gives what
    [removeIndex(field)] gives without the addition (all indexes on the
    field go, not only the one added), removing another field commutes with
    the addition, and [removeIndex] keeps only indexes that were there and
    are on another field. *)
Theorem removeIndex_removes_what_addIndex_added (indexes : list obj) (field : string)
    (options : value) :
  has (spread_value options) "field" = false ->
  removeIndex (addIndex indexes field options) field = removeIndex indexes field /\
  (forall other, other <> field ->
                 removeIndex (addIndex indexes field options) other =
                 addIndex (removeIndex indexes other) field options) /\
  (forall index, In index (removeIndex indexes field) ->
                 In index indexes /\ get index "field" <> VStr field).
Proof.
  intro Hno.
  assert (Hfield : get (spread [("field", VStr field)] (spread_value options)) "field"
                   = VStr field).
  { unfold get. rewrite lookup_spread.
    unfold has in Hno.
    destruct (lookup "field" (spread_value options)) eqn:E; [discriminate|].
    rewrite (lookup_rev_none _ _ E). reflexivity. }
  split; [|split].
  - unfold removeIndex, addIndex. rewrite filter_app_single, Hfield.
    simpl. now rewrite String.eqb_refl.
  - intros other Hne. unfold removeIndex, addIndex.
    rewrite filter_app_single, Hfield. simpl.
    apply not_eq_sym, String.eqb_neq in Hne. now rewrite Hne.
  - intros index Hin. unfold removeIndex in Hin. apply filter_In in Hin.
    destruct Hin as [Hin Hf]. split; [exact Hin|].
    intro Heq. rewrite Heq in Hf. simpl in Hf. now rewrite String.eqb_refl in Hf.
Qed.

Lemma removeIndex_removes_what_addIndex_added_witness :
  has (spread_value (VObj [("unique", VBool true)])) "field" = false /\
  removeIndex (addIndex [[("field", VStr "name")]] "name" (VObj [("unique", VBool true)]))
              "name" = [].
Proof.
  exact (conj eq_refl
           (proj1 (removeIndex_removes_what_addIndex_added
                     [[("field", VStr "name")]] "name" (VObj [("unique", VBool true)])
                     eq_refl))).
Defined.

End SchemaBuildFacts.

(** ** watchChanges and create *)

Module WatchFacts.
Import ModelOps SyncOps QuerySpec MonadFacts CastFacts ConstructorFacts DeleteFacts UpdateFacts SyncFacts UniqueFacts FindFacts Frame WriteFacts ConnectFacts SortFacts PrepareFacts SyncSchemaFacts ExchangeFacts.
Section WithRuntime.
Context {rt : Runtime}.



End WithRuntime.


(** The status field named [__proto__]: the schema declares it and the
    wrapper of [create] sets it, but the record stored has no such field. *)
Lemma proto_status_is_not_stored :
  let run := call_create (rt := Scenario.runtime) (VObj [("name", VStr "Alice")]) false
               Scenario.protodb in
  watchers Scenario.protodb = ["__proto__"] /\
  lookup_def "__proto__" (sdefinition (schema Scenario.protodb)) <> None /\
  snd run = Resolved (VObj [("name", VStr "Alice"); ("__proto__", VStr "modified");
                            ("_localUpdatedAt", VDate (Some 1733337327000));
                            ("_id", VStr "674fa68cb742d1ff3e000000")]) /\
  records (fst run) "testdb" =
    [[("name", VStr "Alice"); ("_localUpdatedAt", VDate (Some 1733337327000));
      ("_id", VStr "674fa68cb742d1ff3e000000")]].
Proof. repeat split. discriminate. Qed.

End WatchFacts.

(** ** find and findById with fields *)

Module ProjectionFacts.
Import ModelOps SyncOps QuerySpec MonadFacts CastFacts ConstructorFacts DeleteFacts UpdateFacts SyncFacts UniqueFacts FindFacts Frame WriteFacts ConnectFacts SortFacts PrepareFacts SyncSchemaFacts ExchangeFacts WatchFacts.
Section WithRuntime.
Context {rt : Runtime}.

Lemma to_uint_nonnil (n : nat) : Nat.to_uint n <> Decimal.Nil.
Proof.
  pose proof (DecimalNat.Unsigned.to_of (Nat.to_uint n)) as H.
  rewrite DecimalNat.Unsigned.of_to in H. rewrite H. apply DecimalFacts.unorm_nonnil.
Qed.

Lemma string_of_nat_injective (i j : nat) :
  string_of_nat i = string_of_nat j -> i = j.
Proof.
  unfold string_of_nat. intro H.
  pose proof (NilZero.usu _ (to_uint_nonnil i)) as Hi.
  pose proof (NilZero.usu _ (to_uint_nonnil j)) as Hj.
  rewrite H in Hi. rewrite Hi in Hj. injection Hj as Hj.
  now apply DecimalNat.Unsigned.to_uint_inj.
Qed.

Lemma string_of_nat_not_length (i : nat) : (string_of_nat i =? "length")%string = false.
Proof.
  apply String.eqb_neq. unfold string_of_nat. intro H.
  pose proof (NilZero.usu _ (to_uint_nonnil i)) as Hi. rewrite H in Hi. discriminate.
Qed.

Lemma index_of_key_found (i n : nat) :
  (i < n)%nat -> index_of_key (string_of_nat i) n = Some i.
Proof.
  unfold index_of_key. intro Hlt.
  assert (H : forall start len,
             (start <= i < start + len)%nat ->
             List.find (fun j => (string_of_nat i =? string_of_nat j)%string)
                       (seq start len) = Some i).
  { intros start len. revert start. induction len as [|len IH]; intros start Hr; [lia|].
    simpl. destruct (String.eqb_spec (string_of_nat i) (string_of_nat start)) as [He|Hne].
    - apply string_of_nat_injective in He. now subst.
    - apply IH. assert (i <> start) by congruence. lia. }
  apply H. lia.
Qed.

Lemma get_prop_array_index (l : list value) (i : nat) :
  (i < List.length l)%nat ->
  get_prop (VArr l) (string_of_nat i) = Resolved (nth i l VUndefined).
Proof.
  intro Hlt. simpl. rewrite string_of_nat_not_length.
  now rewrite (index_of_key_found i _ Hlt).
Qed.

Lemma fold_left_indices {A B : Type} (g : A -> B -> A) (d : B) (l : list B) :
  forall (pre : list B) (a : A),
    fold_left (fun acc i => g acc (nth i (pre ++ l) d))
              (seq (List.length pre) (List.length l)) a =
    fold_left g l a.
Proof.
  induction l as [|x l IH]; intros pre a; [reflexivity|].
  simpl. rewrite app_nth2 by lia. rewrite Nat.sub_diag. simpl.
  specialize (IH (pre ++ [x]) (g a x)).
  rewrite <- app_assoc in IH. simpl in IH.
  rewrite length_app in IH. simpl in IH.
  replace (List.length pre + 1)%nat with (S (List.length pre)) in IH by lia.
  exact IH.
Qed.

Lemma fold_left_ext_in {A B : Type} (f g : A -> B -> A) (l : list B) :
  (forall a x, In x l -> f a x = g a x) ->
  forall a, fold_left f l a = fold_left g l a.
Proof.
  induction l as [|x l IH]; intros H a; [reflexivity|].
  simpl. rewrite (H a x) by now left. apply IH. intros a' x' Hin. apply H. now right.
Qed.

(** The projection on an array of field names. *)
Lemma select_fields_names (names : list string) (r : obj) :
  select_fields (VArr (map VStr names)) r =
  fold_left (fun selected f => if has r f then set selected f (get r f) else selected)
            names [].
Proof.
  unfold select_fields.
  change (get_prop (VArr (map VStr names)) "length")
    with (@Resolved value (VNum (Fin (Z.of_nat (List.length (map VStr names)))))).
  cbv iota beta.
  change (to_number (VNum (Fin (Z.of_nat (List.length (map VStr names))))))
    with (Fin (Z.of_nat (List.length (map VStr names)))).
  cbv iota beta. rewrite Nat2Z.id.
  rewrite (fold_left_ext_in _
             (fun selected i =>
                (fun sel v => match v with
                              | VStr f => if has r f then set sel f (get r f) else sel
                              | _ => sel
                              end) selected (nth i (map VStr names) VUndefined))).
  2:{ intros a i Hin. apply in_seq in Hin.
      rewrite get_prop_array_index by lia.
      assert (Hnth : exists f, nth i (map VStr names) VUndefined = VStr f).
      { exists (nth i names ""). 
        change VUndefined with (VUndefined) .
        rewrite <- (map_nth VStr names "" i) at 1.
        apply nth_indep. lia. }
      destruct Hnth as [f ->]. reflexivity. }
  etransitivity;
    [exact (fold_left_indices
              (fun sel v => match v with
                            | VStr f => if has r f then set sel f (get r f) else sel
                            | _ => sel
                            end) VUndefined (map VStr names) [] [])|].
  generalize (@nil (string * value)). induction names as [|f names IH]; intro acc.
  - reflexivity.
  - simpl. apply IH.
Qed.

Lemma lookup_selected (names : list string) (r : obj) (k : string) :
  forall acc,
    lookup k (fold_left (fun selected f =>
                           if has r f then set selected f (get r f) else selected)
                        names acc) =
    if existsb (String.eqb k) names && has r k then lookup k r else lookup k acc.
Proof.
  induction names as [|f names IH]; intro acc; simpl; [reflexivity|].
  rewrite IH. rewrite (String.eqb_sym k f).
  destruct (String.eqb_spec f k) as [->|Hne]; simpl.
  - destruct (has r k) eqn:Hh.
    + rewrite lookup_set, String.eqb_refl.
      rewrite andb_true_r.
      unfold get. unfold has in Hh. destruct (lookup k r); [|discriminate].
      destruct (existsb (String.eqb k) names); reflexivity.
    + now rewrite andb_false_r.
  - destruct (existsb (String.eqb k) names && has r k); [reflexivity|].
    destruct (has r f); [|reflexivity].
    rewrite lookup_set. destruct (String.eqb_spec f k); [contradiction | reflexivity].
Qed.

Lemma scan_projected (q fields : value) (st : store) :
  truthy fields = true ->
  (truthy q = true -> forall r, In r st -> exists b, _matchesQuery r q = Resolved b) ->
  scan q fields st =
  Resolved (map (select_fields fields)
                (filter (fun r => negb (truthy q) || matches q r) st)).
Proof.
  intros Hf. induction st as [|r st IH]; intro Hdec; [reflexivity|].
  cbn [scan]. rewrite Hf.
  rewrite IH by (intros Hq r' Hin; apply (Hdec Hq); now right).
  destruct (truthy q) eqn:Hq; cbn [negb orb filter map]; [|reflexivity].
  destruct (Hdec eq_refl r (or_introl eq_refl)) as [b Hb].
  rewrite Hb.
  replace (matches q r) with b by (unfold matches; rewrite Hb; now destruct b).
  destruct b; reflexivity.
Qed.

(** X26.  With [fields] an array of names, [find] and [findById] return the
    records they select without [fields], each reduced to its own properties
    among the names: a property is kept exactly when it is named, and a name
    the record lacks is left out. *)
Theorem fields_project_the_records (m : Model) (st : store) (names : list string)
    (query : obj) :
  db m = true ->
  active_store m = Some st ->
  (forall r, In r st -> exists b, _matchesQuery r (VObj query) = Resolved b) ->
  let project := select_fields (VArr (map VStr names)) in
  (forall r k, lookup k (project r) =
               if existsb (String.eqb k) names then lookup k r else None) /\
  find (VObj [("fields", VArr (map VStr names))]) m = (m, Resolved (map project st)) /\
  find (VObj [("query", VObj query); ("fields", VArr (map VStr names))]) m =
    (m, Resolved (map project (filter (matches (VObj query)) st))) /\
  (forall k r, List.find (has_key (primary m) k) st = Some r ->
               findById (VStr k) (VArr (map VStr names)) m =
               (m, Resolved (VObj (project r)))).
Proof.
  intros Hdb Hst Hdec project.
  split; [|split; [|split]].
  - intros r k. unfold project. rewrite select_fields_names, lookup_selected.
    destruct (existsb (String.eqb k) names); simpl; [|reflexivity].
    unfold has. destruct (lookup k r); reflexivity.
  - unfold find. unfold bind at 1. unfold lift at 1. simpl get_prop. cbv iota beta.
    unfold bind at 1. unfold lift at 1. cbv iota beta.
    rewrite (transaction_reads (fun st0 => scan _ _ st0) m st Hdb Hst).
    replace (get [("fields", VArr (map VStr names))] "query") with VUndefined
      by reflexivity.
    replace (get [("fields", VArr (map VStr names))] "fields")
      with (VArr (map VStr names)) by reflexivity.
    rewrite scan_projected; [|reflexivity | discriminate].
    simpl. f_equal. f_equal. f_equal.
    clear. induction st as [|r st IH]; simpl; [reflexivity | now rewrite IH].
  - unfold find. unfold bind at 1. unfold lift at 1. simpl get_prop. cbv iota beta.
    unfold bind at 1. unfold lift at 1. cbv iota beta.
    rewrite (transaction_reads (fun st0 => scan _ _ st0) m st Hdb Hst).
    replace (get [("query", VObj query); ("fields", VArr (map VStr names))] "query")
      with (VObj query) by reflexivity.
    replace (get [("query", VObj query); ("fields", VArr (map VStr names))] "fields")
      with (VArr (map VStr names)) by reflexivity.
    rewrite scan_projected; [|reflexivity | intros _; exact Hdec].
    reflexivity.
  - intros k r Hfind. rewrite (findById_connected _ _ m st Hdb Hst).
    unfold store_get. simpl valid_key. cbv iota. now rewrite Hfind.
Qed.

End WithRuntime.

Lemma fields_project_the_records_witness :
  db Scenario.users = true /\
  active_store Scenario.users = Some [Scenario.john] /\
  find (rt := Scenario.runtime) (VObj [("fields", VArr [VStr "name"; VStr "email"])])
       Scenario.users =
    (Scenario.users, Resolved [[("name", VStr "John Doe")]]).
Proof.
  assert (H1 : db Scenario.users = true) by reflexivity.
  assert (H2 : active_store Scenario.users = Some [Scenario.john]) by reflexivity.
  assert (H3 : forall r,
             In r [Scenario.john] ->
             exists b, _matchesQuery (rt := Scenario.runtime) r
                         (VObj [("age", VNum (Fin 30))]) = Resolved b).
  { intros r [<-|[]]. exists true. reflexivity. }
  exact (conj H1 (conj H2
           (proj1 (proj2 (fields_project_the_records (rt := Scenario.runtime)
                            Scenario.users [Scenario.john] ["name"; "email"]
                            [("age", VNum (Fin 30))] H1 H2 H3))))).
Defined.

End ProjectionFacts.
